(** * repseq: homopolymer and tandem-repeat scanner (src/main.c)

    A shallow embedding of [src/main.c] and the verification of its
    specification.

    Modelling conventions.
    - A C [int] is a [Z].  Positions and run lengths only grow by one per
      input character, so they agree with the C values for every input
      shorter than 2^31 characters; no wrap-around is modelled for them.
    - A C [char] is a [Z] in [-128, 127] (signed, two's complement, as on
      x86-64); storing an [int] into a [char] goes through [char_of_int].
    - A [FILE*] opened for reading is the [string] of the characters not
      yet read; [fgetc] returns [EOF] for ever once it is empty.
    - [malloc]ed arrays are lists; their initial contents are arbitrary and
      are therefore a parameter of the allocating function.  An access
      outside an array is undefined behaviour and is modelled by [None].
    - Calls of [print_entry] are recorded as a list of [entry] values, in
      call order; [print_entry] maps each to the line it prints.
    - [free_ring] and [free_seq_state] leave nothing to observe and are
      left out, as is [main], which hands [atoi] of its first two
      arguments and [fopen] of the third to [read_fasta]. *)

From Stdlib Require Import ZArith List String Ascii Lia Bool.
From Stdlib Require Import DecimalString Sorted.
From stdpp Require Import base tactics option list.

Import ListNotations.
Local Open Scope Z_scope.

(** ** C characters and streams *)

Definition EOF : Z := -1.
Definition HEADER_PREFIX : Z := 62.  (* '>' *)
Definition NEWLINE : Z := 10.        (* '\n' *)
Definition BASE_N : Z := 78.         (* 'N' *)
Definition NUL : Z := 0.             (* '\0' *)

(** Conversion of an [int] to [char]. *)
Definition char_of_int (z : Z) : Z := (z + 128) mod 256 - 128.

(** The value [fgetc] returns for a character of the file: an
    [unsigned char] converted to [int]. *)
Definition int_of_ascii (a : ascii) : Z := Z.of_N (N_of_ascii a).

(** The byte a [char] denotes when it is printed. *)
Definition ascii_of_char (z : Z) : ascii := ascii_of_N (Z.to_N (z mod 256)).

Definition fgetc (fp : string) : Z * string :=
  match fp with
  | EmptyString => (EOF, EmptyString)
  | String a fp' => (int_of_ascii a, fp')
  end.

(** [printf("%s", s)] for a character array [s]: the characters before the
    first NUL. *)
Fixpoint c_string (s : list Z) : string :=
  match s with
  | [] => EmptyString
  | c :: s' => if c =? NUL then EmptyString else String (ascii_of_char c) (c_string s')
  end.

(** [printf("%i", z)]. *)
Definition dec (z : Z) : string := NilZero.string_of_int (Z.to_int z).

Definition tab : string := String (ascii_of_nat 9) EmptyString.
Definition nl : string := String (ascii_of_nat 10) EmptyString.

(** The characters of a Rocq string as the [char] array holding it. *)
Definition chars_of (s : string) : list Z :=
  map (fun a => char_of_int (int_of_ascii a)) (list_ascii_of_string s).

(** [malloc(n * sizeof(char))]: an array of [n] characters with arbitrary
    contents, taken from [garbage].  For a negative [n] the size wraps to
    a huge one and [malloc] returns [NULL]: no index is valid, as in an
    empty array. *)
Definition alloc (n : Z) (garbage : list Z) : list Z :=
  take (Z.to_nat n) (map char_of_int garbage ++ repeat 0 (Z.to_nat n)).

(** [a[i]] and [a[i] = c] for a character array [a]; [None] outside it. *)
Definition load (a : list Z) (i : Z) : option Z :=
  if 0 <=? i then a !! Z.to_nat i else None.

Definition store (a : list Z) (i c : Z) : option (list Z) :=
  if (0 <=? i) && (i <? Z.of_nat (length a))
  then Some (<[Z.to_nat i := char_of_int c]> a) else None.

(** ** Various helper functions *)

(** One call [print_entry(chr, p, n, unit)]; [e_chr] is the string held
    by the array [chr] points to, [e_unit] the array [unit] points to. *)
Record entry : Type := Entry {
  e_chr : string;
  e_p : Z;
  e_n : Z;
  e_unit : list Z
}.

(** [void print_entry(char* chr, int p, char n, char* unit)]: the third
    parameter is a [char], so the caller's [int] is converted. *)
Definition print_entry (e : entry) : string :=
  let n := char_of_int (e_n e) in
  (c_string (chars_of (e_chr e)) ++ tab ++ dec (e_p e - n) ++ tab
   ++ dec (e_p e) ++ tab ++ "unit=" ++ c_string (e_unit e) ++ nl)%string.

(** ** Simple ring buffer *)

Record Ring : Type := mkRing {
  r_size : Z;
  r_elements : list Z
}.

(** [init_ring]: [elements] is [malloc]ed and not initialised. *)
Definition init_ring (size : Z) (garbage : list Z) : Ring :=
  {| r_size := size; r_elements := alloc size garbage |}.

(** [i % ring->size]: C's [%] truncates towards zero ([Z.rem]) and is
    undefined for a zero divisor. *)
Definition ring_index (ring : Ring) (i : Z) : option Z :=
  if r_size ring =? 0 then None else Some (Z.rem i (r_size ring)).

Definition write_ring (ring : Ring) (i c : Z) : option Ring :=
  k ← ring_index ring i;
  els ← store (r_elements ring) k c;
  Some {| r_size := r_size ring; r_elements := els |}.

Definition read_ring (ring : Ring) (i : Z) : option Z :=
  k ← ring_index ring i;
  load (r_elements ring) k.

(** ** The state of the polynucleotide repeat scanning loop *)

(** The three functions the field [invalid_repeat] can point to. *)
Inductive validator : Type := Invalid_repeat2 | Invalid_repeat3 | Invalid_repeat4.

(** [chr] points to the caller's label array; the field holds the string
    that array currently contains. *)
Record SeqState : Type := mkSeqState {
  last_bases : Ring;
  st_length : Z;
  invalid_repeat : validator;
  chr : string;
  unit_buffer : list Z
}.

Definition set_last_bases (st : SeqState) (ring : Ring) : SeqState :=
  {| last_bases := ring; st_length := st_length st;
     invalid_repeat := invalid_repeat st; chr := chr st;
     unit_buffer := unit_buffer st |}.

Definition set_unit_buffer (st : SeqState) (ub : list Z) : SeqState :=
  {| last_bases := last_bases st; st_length := st_length st;
     invalid_repeat := invalid_repeat st; chr := chr st;
     unit_buffer := ub |}.

Definition set_chr (st : SeqState) (s : string) : SeqState :=
  {| last_bases := last_bases st; st_length := st_length st;
     invalid_repeat := invalid_repeat st; chr := s;
     unit_buffer := unit_buffer st |}.

(** [lb[k]] with [lb = st->last_bases->elements]. *)
Definition lb (st : SeqState) (k : Z) : option Z :=
  load (r_elements (last_bases st)) k.

(** Repeat is invalid if it is 2-mer homopolymer. *)
Definition invalid_repeat2 (st : SeqState) : option Z :=
  a ← lb st 0; b ← lb st 1; Some (Z.b2z (a =? b)).

(** Repeat is invalid if it is 3-mer homopolymer ([&&] reads its right
    operand only when the left one holds). *)
Definition invalid_repeat3 (st : SeqState) : option Z :=
  a ← lb st 0; b ← lb st 1;
  if a =? b then b' ← lb st 1; c ← lb st 2; Some (Z.b2z (b' =? c))
  else Some 0.

(** Repeat is invalid if it has two identical dinuc repeats. *)
Definition invalid_repeat4 (st : SeqState) : option Z :=
  a ← lb st 0; c ← lb st 2;
  if a =? c then b ← lb st 1; d ← lb st 3; Some (Z.b2z (b =? d))
  else Some 0.

(** [st->invalid_repeat(st)]. *)
Definition call_invalid_repeat (st : SeqState) : option Z :=
  match invalid_repeat st with
  | Invalid_repeat2 => invalid_repeat2 st
  | Invalid_repeat3 => invalid_repeat3 st
  | Invalid_repeat4 => invalid_repeat4 st
  end.

Inductive init_result : Type :=
| InitOk (st : SeqState)
| InitExit (status : Z) (err : string)
| InitUndefined.

(** [init_seq_state]: [g_elements] and [g_unit] are the contents of the two
    fresh allocations.  The store [unit_buffer[rep] = 0] comes before the
    test of [rep]. *)
Definition init_seq_state (chr0 : string) (rep len : Z)
    (g_elements g_unit : list Z) : init_result :=
  let ring := init_ring rep g_elements in
  match store (alloc (rep + 1) g_unit) rep NUL with
  | None => InitUndefined
  | Some ub =>
      let mk v := InitOk {| last_bases := ring; st_length := len;
                            invalid_repeat := v; chr := chr0;
                            unit_buffer := ub |} in
      if rep =? 2 then mk Invalid_repeat2
      else if rep =? 3 then mk Invalid_repeat3
      else if rep =? 4 then mk Invalid_repeat4
      else InitExit (-1) ("invalid r (this should never happen)" ++ nl)
  end.

(** ** Scan chromosome for polynucleotide repeats *)

(** What an iteration of the scanning loop does that can be observed from
    outside the state: the calls of [print_entry] and the calls through the
    function pointer [invalid_repeat], with the value returned. *)
Inductive event : Type :=
| EvPrint (e : entry)
| EvValidate (v : Z).

Fixpoint entries_of (evs : list event) : list entry :=
  match evs with
  | [] => []
  | EvPrint e :: evs' => e :: entries_of evs'
  | EvValidate _ :: evs' => entries_of evs'
  end.


(** The body of the [for] loop of [print_entryN], [k] iterations from [j]. *)
Fixpoint fill_unit (ring : Ring) (o : Z) (k : nat) (j : Z) (ub : list Z)
    : option (list Z) :=
  match k with
  | O => Some ub
  | S k' =>
      c ← read_ring ring (j + o);
      ub' ← store ub j c;
      fill_unit ring o k' (j + 1) ub'
  end.

Definition print_entryN (st : SeqState) (p n : Z)
    : option (list event * SeqState) :=
  if st_length st <=? n then
    let r := r_size (last_bases st) in
    if r =? 0 then None
    else
      let o := Z.rem (p - n) r in
      ub ← fill_unit (last_bases st) o (Z.to_nat r) 0 (unit_buffer st);
      Some ([EvPrint (Entry (chr st) p n ub)], set_unit_buffer st ub)
  else Some ([], st).

Definition next_n (st : SeqState) (p c : Z)
    : option (list event * SeqState * Z) :=
  ring ← write_ring (last_bases st) p c;
  let st' := set_last_bases st ring in
  v ← call_invalid_repeat st';
  Some ([EvValidate v], st', r_size (last_bases st') - v).

Inductive ctl : Type := Continue | Break.

(** The variables of the loop of [scan_seqN]. *)
Record loopN : Type := LoopN {
  ln_st : SeqState;
  ln_p : Z;
  ln_n : Z
}.

(** One iteration of the [while (1)] loop of [scan_seqN], [c] being the
    value [fgetc] returned. *)
Definition scanN_body (s : loopN) (c : Z) : option (list event * loopN * ctl) :=
  let st := ln_st s in
  let p := ln_p s in
  let n := ln_n s in
  let q := r_size (last_bases st) - 1 in
  if c =? NEWLINE then Some ([], s, Continue)
  else if c =? BASE_N then
    '(evs, st') ← print_entryN st p n;
    Some (evs, LoopN st' (p + 1) 0, Continue)
  else if (c =? EOF) || (c =? HEADER_PREFIX) then
    '(evs, st') ← print_entryN st p n;
    Some (evs, LoopN st' p n, Break)
  else if n <? q then
    ring ← write_ring (last_bases st) p c;
    Some ([], LoopN (set_last_bases st ring) (p + 1) (n + 1), Continue)
  else if q <? n then
    c0 ← read_ring (last_bases st) p;
    if c0 =? c then Some ([], LoopN st (p + 1) (n + 1), Continue)
    else
      '(evs, st') ← print_entryN st p n;
      '(evs', st'', n') ← next_n st' p c;
      Some (evs ++ evs', LoopN st'' (p + 1) n', Continue)
  else
    '(evs, st', n') ← next_n st p c;
    Some (evs, LoopN st' (p + 1) n', Continue).

(** The loop itself: [fgetc] until an iteration breaks.  At the end of
    the file [fgetc] returns [EOF], on which the body always breaks
    (lemma [scanN_loop_fgetc] gives the loop back with [fgetc]). *)
Fixpoint scanN_loop (s : loopN) (fp : string)
    : option (list event * SeqState * string) :=
  match fp with
  | EmptyString =>
      '(evs, s', _) ← scanN_body s EOF;
      Some (evs, ln_st s', EmptyString)
  | String a fp' =>
      '(evs, s', k) ← scanN_body s (int_of_ascii a);
      match k with
      | Break => Some (evs, ln_st s', fp')
      | Continue =>
          '(evs', st', rest) ← scanN_loop s' fp';
          Some (evs ++ evs', st', rest)
      end
  end.

Definition scan_seqN (fp : string) (st : SeqState)
    : option (list event * SeqState * string) :=
  scanN_loop (LoopN st 0 0) fp.

(** ** Scan chromosome for homopolymers *)

(** The variables of the loop of [scan_seq1]; [l1_last] is
    [last_base[0]]. *)
Record loop1 : Type := Loop1 {
  l1_last : Z;
  l1_p : Z;
  l1_n : Z
}.

(** One iteration of the [while (1)] loop of [scan_seq1]. *)
Definition scan1_body (chr0 : string) (len : Z) (s : loop1) (c : Z)
    : list entry * loop1 * ctl :=
  let last := l1_last s in
  let p := l1_p s in
  let n := l1_n s in
  if c =? NEWLINE then ([], s, Continue)
  else if c =? last then ([], Loop1 last (p + 1) (n + 1), Continue)
  else
    let es := if (len <=? n) && negb (last =? BASE_N)
              then [Entry chr0 p n [last; NUL]] else [] in
    if (c =? EOF) || (c =? HEADER_PREFIX) then (es, s, Break)
    else (es, Loop1 (char_of_int c) (p + 1) 1, Continue).

Inductive scan1_result : Type :=
| Scan1Returns (es : list entry) (fp : string)
| Scan1Hangs (es : list entry).

Definition scan1_emit (es : list entry) (r : scan1_result) : scan1_result :=
  match r with
  | Scan1Returns es' fp => Scan1Returns (es ++ es') fp
  | Scan1Hangs es' => Scan1Hangs (es ++ es')
  end.

(** The loop: at the end of the file [fgetc] returns [EOF] for ever, so
    an iteration that continues on [EOF] is followed by iterations that
    do the same (lemma [scan1_body_EOF_continue]) and the loop never
    returns (lemma [scan1_loop_fgetc] gives the loop back with
    [fgetc]). *)
Fixpoint scan1_loop (chr0 : string) (len : Z) (s : loop1) (fp : string)
    : scan1_result :=
  match fp with
  | EmptyString =>
      let '(es, _, k) := scan1_body chr0 len s EOF in
      match k with
      | Break => Scan1Returns es EmptyString
      | Continue => Scan1Hangs es
      end
  | String a fp' =>
      let '(es, s', k) := scan1_body chr0 len s (int_of_ascii a) in
      match k with
      | Break => Scan1Returns es fp'
      | Continue => scan1_emit es (scan1_loop chr0 len s' fp')
      end
  end.

Definition scan_seq1 (fp : string) (chr0 : string) (len : Z) : scan1_result :=
  scan1_loop chr0 len (Loop1 BASE_N 0 1) fp.

(** ** FASTA parser *)

(** [seek_char]: the parameter [t] is a [char], so the argument is
    converted on the way in; [c] is the [int] that [fgetc] returned. *)
Fixpoint seek_char (fp : string) (t : Z) : Z * string :=
  match fp with
  | EmptyString => (EOF, EmptyString)
  | String a fp' =>
      let c := int_of_ascii a in
      if char_of_int t =? c then (c, fp') else seek_char fp' t
  end.

(** [isspace] in the C locale. *)
Definition isspace (a : ascii) : bool :=
  let c := int_of_ascii a in (c =? 32) || ((9 <=? c) && (c <=? 13)).

Fixpoint skip_space (fp : string) : string :=
  match fp with
  | EmptyString => EmptyString
  | String a fp' => if isspace a then skip_space fp' else fp
  end.

Fixpoint read_word (k : nat) (fp : string) : string * string :=
  match k, fp with
  | S k', String a fp' =>
      if isspace a then (EmptyString, fp)
      else let '(w, rest) := read_word k' fp' in (String a w, rest)
  | _, _ => (EmptyString, fp)
  end.

(** [fscanf(fp, "%31s", chr)]: white space is skipped; at the end of the
    file the result is [EOF] and [chr] is left as it was; otherwise up to
    31 characters that are not white space are stored and the result is
    1. *)
Definition fscanf_s31 (fp : string) (chr0 : string) : Z * string * string :=
  match skip_space fp with
  | EmptyString => (EOF, chr0, EmptyString)
  | String a fp' =>
      let '(w, rest) := read_word 31 (String a fp') in (1, w, rest)
  end.

Inductive header_result : Type :=
| HeaderReturns (c : Z) (chr0 : string) (fp : string)
| HeaderExit (status : Z) (out : string).

Definition parse_header (fp : string) (chr0 : string) : header_result :=
  let '(c, chr', fp') := fscanf_s31 fp chr0 in
  if negb (c =? 1) && negb (c =? EOF)
  then HeaderExit (-1) "Error when parsing chromosome header"
  else let '(c', fp'') := seek_char fp' NEWLINE in HeaderReturns c' chr' fp''.

(** What a run of the program leaves behind: the text written to the
    standard output and to the standard error, and the rest of the input
    file ([None] when the file could not be opened). *)
Record world : Type := World {
  w_out : string;
  w_err : string;
  w_fp : option string
}.

Inductive outcome : Type :=
| Returned (ret : Z) (w : world)
| Exited (status : Z) (w : world)
| Undefined
| Hangs
| OutOfFuel.

Definition print_entries (es : list entry) : string :=
  fold_right (fun e acc => (print_entry e ++ acc)%string) EmptyString es.

(** The loop [while (parse_header(fp, chr) != EOF)] of [read_fasta]; [st]
    is [None] when [is_homopoly] holds.  The label array [chr0] is shared
    with [st->chr], so a label read by [parse_header] is the one
    [scan_seqN] prints. *)
Fixpoint parse_chromosomes (fuel : nat) (st : option SeqState) (len : Z)
    (chr0 : string) (out err : string) (fp : string) : outcome :=
  match fuel with
  | O => OutOfFuel
  | S fuel' =>
      match parse_header fp chr0 with
      | HeaderExit status msg =>
          Exited status (World (out ++ msg) err (Some fp))
      | HeaderReturns c chr' fp' =>
          if c =? EOF then Returned 0 (World out err (Some fp'))
          else
            let err' := (err ++ "Parsing chromosome "
                         ++ c_string (chars_of chr') ++ nl)%string in
            match st with
            | None =>
                match scan_seq1 fp' chr' len with
                | Scan1Returns es fp'' =>
                    parse_chromosomes fuel' None len chr'
                      (out ++ print_entries es) err' fp''
                | Scan1Hangs _ => Hangs
                end
            | Some st0 =>
                match scan_seqN fp' (set_chr st0 chr') with
                | None => Undefined
                | Some (evs, st', fp'') =>
                    parse_chromosomes fuel' (Some st') len chr'
                      (out ++ print_entries (entries_of evs)) err' fp''
                end
            end
      end
  end.

(** The uninitialised memory [read_fasta] starts from. *)
Record garbage : Type := Garbage {
  g_chr : string;
  g_elements : list Z;
  g_unit_buffer : list Z
}.

(** [read_fasta]; [fp] is [None] when [fopen] failed.  Every chromosome
    that is parsed takes at least one character from the file, so one unit
    of fuel per character, and one for the last call of [parse_header], is
    enough (lemma [read_fasta_fuel]). *)
Definition read_fasta (g : garbage) (fp : option string) (rep len : Z)
    : outcome :=
  if len <=? rep then
    Exited (-1) (World "" ("Repeat length must be less than total length" ++ nl) fp)
  else if 4 <? rep then
    Exited (-1) (World "" ("Repeat length must be in [1,4]" ++ nl) fp)
  else
    match fp with
    | None => Exited (-1) (World "" ("Error in opening file" ++ nl) None)
    | Some f =>
        let '(_, f1) := seek_char f HEADER_PREFIX in
        let is_homopoly := rep =? 1 in
        let out := ("#repeat_length: " ++ dec rep ++ nl
                    ++ "#total_length: " ++ dec len ++ nl)%string in
        if negb is_homopoly then
          let err := ("Finding polynuc repeats >=" ++ dec rep
                      ++ "bp with unit size " ++ dec len ++ "bp" ++ nl)%string in
          match init_seq_state (g_chr g) rep len (g_elements g) (g_unit_buffer g) with
          | InitUndefined => Undefined
          | InitExit status msg =>
              Exited status (World "" (err ++ msg) (Some f1))
          | InitOk st =>
              parse_chromosomes (S (String.length f1)) (Some st) len (g_chr g)
                out err f1
          end
        else
          let err := ("Finding homopolymers >=" ++ dec len ++ "bp" ++ nl)%string in
          parse_chromosomes (S (String.length f1)) None len (g_chr g) out err f1
    end.

(** * Specification vocabulary

    The predicates and auxiliary functions the statements below are
    written with. *)

(** A ring as [init_ring] makes it for a positive size. *)
Definition wf_ring (ring : Ring) : Prop :=
  0 < r_size ring /\ Z.of_nat (length (r_elements ring)) = r_size ring.

Definition period (st : SeqState) : Z := r_size (last_bases st).

(** A state as [init_seq_state] makes it: the ring and the unit buffer
    have their sizes, and the validator is the one of the period. *)
Definition wf_state (st : SeqState) : Prop :=
  wf_ring (last_bases st)
  /\ (Z.of_nat (length (unit_buffer st)) = period st + 1
      /\ unit_buffer st !! Z.to_nat (period st) = Some NUL)
  /\ (period st = 2 /\ invalid_repeat st = Invalid_repeat2
      \/ period st = 3 /\ invalid_repeat st = Invalid_repeat3
      \/ period st = 4 /\ invalid_repeat st = Invalid_repeat4).

(** Modelled from the specification's words (section 4.2): the unit is the
    [period] most recent symbols, oldest first; it is degenerate for
    period 2 if both symbols are equal, for period 3 if all three are
    equal, for period 4 if position 0 equals position 2 and position 1
    equals position 3. *)
Definition degenerate_spec (r : Z) (w : list Z) : bool :=
  match w with
  | [a; b] => (r =? 2) && (a =? b)
  | [a; b; c] => (r =? 3) && ((a =? b) && (b =? c))
  | [a; b; c; d] => (r =? 4) && ((a =? c) && (b =? d))
  | _ => false
  end.

(** The window [w] (oldest first) of the symbols at the positions
    [p - period + 1 .. p] is what the ring holds, each at its slot. *)
Definition ring_holds_window (st : SeqState) (p : Z) (w : list Z) : Prop :=
  Z.of_nat (length w) = period st
  /\ forall k : nat, (k < length w)%nat ->
       r_elements (last_bases st)
         !! Z.to_nat ((p - period st + 1 + Z.of_nat k) mod period st) = w !! k.

(** An incoming symbol that is neither ignored, nor the terminator, nor
    the end of the segment. *)
Definition ordinary (c : Z) : Prop :=
  c <> NEWLINE /\ c <> BASE_N /\ c <> EOF /\ c <> HEADER_PREFIX.

(** The states of the period-N machine: the state is well formed and the
    run does not start before position 0. *)
Definition scanN_ok (s : loopN) : Prop :=
  wf_state (ln_st s) /\ 0 <= ln_n s <= ln_p s.

Definition b2n (r : Z) (b : bool) : Z := if b then r - 1 else r.

(** A state used in the examples: period 2, threshold 4, the ring holding
    [A] and [T]. *)
Definition example_state2 : SeqState :=
  mkSeqState (mkRing 2 [65; 84]) 4 Invalid_repeat2 "chr1" [0; 0; 0].


(** The steps of the period-N machine that complete a run: the
    terminator, the end of the segment, and a mismatch in the comparison
    phase. *)
Definition completes_runN (s : loopN) (c : Z) : Prop :=
  c = BASE_N \/ c = EOF \/ c = HEADER_PREFIX
  \/ ordinary c /\ period (ln_st s) <= ln_n s
     /\ read_ring (last_bases (ln_st s)) (ln_p s) <> Some c.

Definition is_byte (c : Z) : Prop := 0 <= c < 256.

(** The symbols consumed so far in the segment, by position: every value
    of [fgetc] but the ignored newline and the end of the segment takes a
    position. *)
Definition push (h : list Z) (c : Z) : list Z :=
  if (c =? NEWLINE) || ((c =? EOF) || (c =? HEADER_PREFIX)) then h else h ++ [c].

(** The ring is fresh for the current run: the positions of the run,
    [p - n .. p - 1], hold ordinary symbols, and the slot of each holds
    the symbol consumed there (as a [char]). *)
Definition fresh (h : list Z) (s : loopN) : Prop :=
  ln_p s = Z.of_nat (length h)
  /\ forall i, ln_p s - ln_n s <= i < ln_p s ->
       exists x,
         h !! Z.to_nat i = Some x /\ is_byte x /\ ordinary x
         /\ r_elements (last_bases (ln_st s)) !! Z.to_nat (i mod period (ln_st s))
            = Some (char_of_int x).

(** A printed run lies in the segment, holds ordinary symbols only, and
    its unit is made of the symbols at its first [r] positions. *)
Definition entry_fresh (r : Z) (h : list Z) (e : entry) : Prop :=
  0 <= e_p e - e_n e /\ e_p e <= Z.of_nat (length h) /\ r < e_n e
  /\ (forall i, e_p e - e_n e <= i < e_p e ->
        exists x, h !! Z.to_nat i = Some x /\ ordinary x)
  /\ (forall j, 0 <= j < r ->
        exists x, h !! Z.to_nat (e_p e - e_n e + j) = Some x
                  /\ e_unit e !! Z.to_nat j = Some (char_of_int x))
  /\ e_unit e !! Z.to_nat r = Some NUL
  /\ Z.of_nat (length (e_unit e)) = r + 1.

Definition same_config (st st' : SeqState) : Prop :=
  period st' = period st /\ st_length st' = st_length st
  /\ invalid_repeat st' = invalid_repeat st /\ chr st' = chr st.

(** The loop of [scan_seqN] run on the values [cs] that [fgetc] returns,
    one iteration per value, until an iteration breaks or [cs] is
    exhausted: the state reached, and what was printed and validated on
    the way. *)
Fixpoint scanN_run (s : loopN) (cs : list Z) : option (list event * loopN * ctl) :=
  match cs with
  | [] => Some ([], s, Continue)
  | c :: cs' =>
      '(evs, s', k) ← scanN_body s c;
      match k with
      | Break => Some (evs, s', Break)
      | Continue =>
          '(evs', s'', k') ← scanN_run s' cs';
          Some (evs ++ evs', s'', k')
      end
  end.

(** The values [fgetc] returns on a file: its characters, then [EOF]. *)
Definition fgetc_values (fp : string) : list Z :=
  map int_of_ascii (list_ascii_of_string fp) ++ [EOF].

Definition fgetc_value (c : Z) : Prop := c = EOF \/ is_byte c.

(** The symbols of the segment that [cs] starts with, by position: the
    values before the first end marker, newlines left out. *)
Fixpoint symbols (cs : list Z) : list Z :=
  match cs with
  | [] => []
  | c :: cs' =>
      if (c =? EOF) || (c =? HEADER_PREFIX) then []
      else if c =? NEWLINE then symbols cs'
      else c :: symbols cs'
  end.

(** The state of the homopolymer machine after the symbols [h]: [last]
    is the latest symbol (the sentinel [N] before the first), the [n]
    latest symbols are equal to it (the run may count the sentinel), and
    the symbol before the run, if any, differs from the first of the
    run. *)
Definition fresh1 (h : list Z) (s : loop1) : Prop :=
  let last := l1_last s in
  let p := l1_p s in
  let n := l1_n s in
  p = Z.of_nat (length h)
  /\ 1 <= n <= p + 1
  /\ (-128 <= last < 128 /\ last <> HEADER_PREFIX)
  /\ (forall (i : nat) x, h !! i = Some x -> is_byte x)
  /\ (n = p + 1 -> last = BASE_N)
  /\ (n <= p ->
        exists x, h !! Z.to_nat (p - n) = Some x /\ char_of_int x = last
                  /\ (1 <= p - n ->
                        exists y, h !! Z.to_nat (p - n - 1) = Some y
                                  /\ x <> char_of_int y))
  /\ (forall i, 0 <= i -> p - n < i < p -> h !! Z.to_nat i = Some last).

(** What a printed homopolymer run must be, in a segment of symbols
    [hh]: the unit is one symbol [b], not the terminator; the run
    [p - n .. p - 1] lies in the segment and holds [b] everywhere; the
    symbols just before and just after it, where the segment has them,
    are not [b]. *)
Definition homopolymer_run (hh : list Z) (e : entry) : Prop :=
  exists b,
    e_unit e = [b; NUL] /\ b <> BASE_N /\ 1 <= e_n e
    /\ 0 <= e_p e - e_n e /\ e_p e <= Z.of_nat (length hh)
    /\ (forall i, e_p e - e_n e <= i < e_p e -> hh !! Z.to_nat i = Some b)
    /\ (1 <= e_p e - e_n e ->
          exists y, hh !! Z.to_nat (e_p e - e_n e - 1) = Some y /\ y <> b)
    /\ (forall z, hh !! Z.to_nat (e_p e) = Some z -> z <> b).

Definition scan1_entries (r : scan1_result) : list entry :=
  match r with
  | Scan1Returns es _ => es
  | Scan1Hangs es => es
  end.

(** The states [read_fasta] hands to [scan_seqN], and the thresholds it
    hands to [scan_seq1]. *)
Definition scanner_ok (st : option SeqState) (len : Z) : Prop :=
  match st with
  | Some st0 => wf_state st0 /\ period st0 < st_length st0 /\ st_length st0 = len
  | None => 2 <= len
  end.


(** An input for the examples: one segment, [AAAANAAA]. *)
Definition example_garbage : garbage := Garbage "" [] [].

Definition example_file : string := (">chr1" ++ nl ++ "AAAANAAA" ++ nl)%string.

Definition example_world : world :=
  World ("#repeat_length: 1" ++ nl ++ "#total_length: 3" ++ nl
         ++ "chr1" ++ tab ++ "0" ++ tab ++ "4" ++ tab ++ "unit=A" ++ nl
         ++ "chr1" ++ tab ++ "5" ++ tab ++ "8" ++ tab ++ "unit=A" ++ nl)
        ("Finding homopolymers >=3bp" ++ nl ++ "Parsing chromosome chr1" ++ nl)
        (Some EmptyString).

(** [k] copies of [s]. *)
Fixpoint repeat_string (k : nat) (s : string) : string :=
  match k with
  | O => EmptyString
  | S k' => (s ++ repeat_string k' s)%string
  end.

(** [scan_seq1] did not return. *)
Definition scan1_hangs (r : scan1_result) : Prop :=
  match r with
  | Scan1Hangs _ => True
  | Scan1Returns _ _ => False
  end.

(** A run of [x] that is still to come, or that the machine is in. *)
Definition run_pending (s : loop1) (a b x : Z) : Prop :=
  l1_p s <= a \/ a < l1_p s <= b /\ l1_p s - l1_n s = a /\ l1_last s = x.

(** Two records of the homopolymer machine in output order: the later
    run starts at or after the end of the earlier one. *)
Definition runs_apart (e1 e2 : entry) : Prop :=
  e_p e1 <= e_p e2 - e_n e2.

(** The symbols [a .. a + k - 1] of [h]. *)
Definition sub (h : list Z) (a k : Z) : list Z :=
  take (Z.to_nat k) (drop (Z.to_nat a) h).

(** A value of [fgetc] on an ASCII file. *)
Definition ascii7 (c : Z) : Prop := c = EOF \/ 0 <= c < 128.

(** ** The period-N machine on the symbols themselves

    The same loop with the ring replaced by the list [h] of the symbols
    consumed so far in the segment: the slot read for position [p] becomes
    the symbol at position [p - r], the window the validator sees the last
    [r] symbols, the unit of a run its first [r] symbols.  The scanner is
    shown to compute what this machine computes (lemma [scanN_run_hist]),
    and the properties of its output are then read off the symbols. *)
Definition hist_print (chr0 : string) (L r : Z) (h : list Z) (n : Z) : list entry :=
  let p := Z.of_nat (length h) in
  if L <=? n then [Entry chr0 p n (sub h (p - n) r ++ [NUL])] else [].

Definition hist_next_n (r : Z) (h : list Z) : Z :=
  r - Z.b2z (degenerate_spec r (sub h (Z.of_nat (length h) - r) r)).

Definition hist_matches (r : Z) (h : list Z) (c : Z) : bool :=
  match h !! Z.to_nat (Z.of_nat (length h) - r) with
  | Some x => x =? c
  | None => false
  end.

Definition hist_body (chr0 : string) (L r : Z) (h : list Z) (n c : Z)
    : list entry * (list Z * Z) * ctl :=
  if c =? NEWLINE then ([], (h, n), Continue)
  else if c =? BASE_N then (hist_print chr0 L r h n, (h ++ [c], 0), Continue)
  else if (c =? EOF) || (c =? HEADER_PREFIX) then (hist_print chr0 L r h n, (h, n), Break)
  else if n <? r - 1 then ([], (h ++ [c], n + 1), Continue)
  else if r - 1 <? n then
    if hist_matches r h c then ([], (h ++ [c], n + 1), Continue)
    else (hist_print chr0 L r h n, (h ++ [c], hist_next_n r (h ++ [c])), Continue)
  else ([], (h ++ [c], hist_next_n r (h ++ [c])), Continue).

Fixpoint hist_run (chr0 : string) (L r : Z) (h : list Z) (n : Z) (cs : list Z)
    : list entry * (list Z * Z) * ctl :=
  match cs with
  | [] => ([], (h, n), Continue)
  | c :: cs' =>
      let '(es, (h', n'), k) := hist_body chr0 L r h n c in
      match k with
      | Break => (es, (h', n'), Break)
      | Continue =>
          let '(es', hn, k') := hist_run chr0 L r h' n' cs' in
          (es ++ es', hn, k')
      end
  end.

(** The symbols of an ASCII file. *)
Definition ascii_hist (h : list Z) : Prop := Forall (fun x => 0 <= x < 128) h.

(** An ASCII file: no byte above 127. *)
Definition ascii_file (fp : string) : Prop :=
  forall a, In a (list_ascii_of_string fp) -> int_of_ascii a < 128.

(** The positions [a .. b - 1] of the symbols [hh] hold a repeat of
    period [r]: at least [r] symbols, none of them the terminator, each
    equal to the one [r] positions later, the first [r] not degenerate. *)
Definition tandem_run (r : Z) (hh : list Z) (a b : Z) : Prop :=
  0 <= a /\ a + r <= b <= Z.of_nat (length hh)
  /\ (forall i, a <= i < b -> hh !! Z.to_nat i <> Some BASE_N)
  /\ (forall i, a <= i -> i + r < b -> hh !! Z.to_nat i = hh !! Z.to_nat (i + r))
  /\ degenerate_spec r (sub hh a r) = false.

(** The repeat cannot be extended by the symbol before [a]. *)
Definition left_maximal (r : Z) (hh : list Z) (a : Z) : Prop :=
  a = 0 \/ hh !! Z.to_nat (a - 1) = Some BASE_N
  \/ hh !! Z.to_nat (a - 1) <> hh !! Z.to_nat (a - 1 + r).

(** The repeat cannot be extended by the symbol at [b]. *)
Definition right_maximal (r : Z) (hh : list Z) (b : Z) : Prop :=
  b = Z.of_nat (length hh) \/ hh !! Z.to_nat b = Some BASE_N
  \/ hh !! Z.to_nat b <> hh !! Z.to_nat (b - r).

(** The state [(h, n)] of the machine on the symbols: the last [n]
    symbols are the current run, periodic and free of the terminator,
    with a unit that is not degenerate once [r] symbols are in; the run
    cannot be extended to the left, or it is the tail of a degenerate
    window; and it is at least as long as the filling phase allows. *)
Definition run_inv (r : Z) (h : list Z) (n : Z) : Prop :=
  let p := Z.of_nat (length h) in
  0 <= n <= p
  /\ (forall i, p - n <= i < p -> h !! Z.to_nat i <> Some BASE_N)
  /\ (forall i, p - n <= i -> i + r < p -> h !! Z.to_nat i = h !! Z.to_nat (i + r))
  /\ (r <= n -> degenerate_spec r (sub h (p - n) r) = false)
  /\ (p - n = 0
      \/ h !! Z.to_nat (p - n - 1) = Some BASE_N
      \/ r <= n /\ h !! Z.to_nat (p - n - 1) <> h !! Z.to_nat (p - n - 1 + r)
      \/ n = r - 1 /\ r <= p
         /\ (forall i, p - r <= i < p -> h !! Z.to_nat i <> Some BASE_N)
         /\ degenerate_spec r (sub h (p - r) r) = true)
  /\ (forall m, 0 <= m <= p ->
        (forall i, p - m <= i < p -> h !! Z.to_nat i <> Some BASE_N) ->
        Z.min m (r - 1) <= n).

(** What a record of the period-N scan says of the symbols [hh] of its
    segment: a repeat of period [r] that cannot be extended on either
    side, of at least [L] symbols, with its first [r] symbols as unit. *)
Definition reported_run (chr0 : string) (L r : Z) (hh : list Z) (e : entry) : Prop :=
  e_chr e = chr0 /\ L <= e_n e
  /\ e_unit e = sub hh (e_p e - e_n e) r ++ [NUL]
  /\ tandem_run r hh (e_p e - e_n e) (e_p e)
  /\ left_maximal r hh (e_p e - e_n e)
  /\ right_maximal r hh (e_p e).

(** Two records of the period-N scan in output order: the second ends
    later, and starts less than [r] symbols before the end of the first. *)
Definition runs_ordered (r : Z) (e1 e2 : entry) : Prop :=
  e_p e1 < e_p e2 /\ e_p e1 - r < e_p e2 - e_n e2.

(** The records of a machine in state [(p, n)] that are still to come. *)
Definition runs_ahead (p n : Z) (e : entry) : Prop :=
  p <= e_p e /\ p - n <= e_p e - e_n e.



(** * Verification *)

(** ** Characters *)

Lemma char_of_int_range z : -128 <= char_of_int z < 128.
Proof. unfold char_of_int. pose proof (Z.mod_pos_bound (z + 128) 256). lia. Qed.

Lemma char_of_int_id z : -128 <= z < 128 -> char_of_int z = z.
Proof. intros H. unfold char_of_int. rewrite Z.mod_small by lia. lia. Qed.

Lemma char_of_int_idemp z : char_of_int (char_of_int z) = char_of_int z.
Proof. apply char_of_int_id, char_of_int_range. Qed.

Lemma int_of_ascii_range a : 0 <= int_of_ascii a < 256.
Proof.
  unfold int_of_ascii. pose proof (N_ascii_bounded a). lia.
Qed.

(** A byte read from the file that compares equal to a stored [char] is
    the byte that was stored. *)
Lemma char_of_int_eq_byte x c :
  0 <= x < 256 -> 0 <= c < 256 -> char_of_int x = c -> x = c /\ char_of_int c = c.
Proof.
  intros Hx Hc H. unfold char_of_int in *.
  destruct (Z_lt_ge_dec x 128).
  - rewrite Z.mod_small in H by lia. split; [lia|].
    rewrite Z.mod_small by lia. lia.
  - replace (x + 128) with (x - 128 + 1 * 256) in H by lia.
    rewrite Z_mod_plus_full, Z.mod_small in H by lia. lia.
Qed.

(** ** Arrays *)

Lemma length_alloc n g : length (alloc n g) = Z.to_nat n.
Proof.
  unfold alloc. rewrite length_take, length_app, length_map, repeat_length. lia.
Qed.

Lemma load_Some a i : 0 <= i < Z.of_nat (length a) -> is_Some (load a i).
Proof.
  intros H. unfold load. destruct (Z.leb_spec 0 i); [|lia].
  apply lookup_lt_is_Some. lia.
Qed.

Lemma store_Some a i c :
  0 <= i < Z.of_nat (length a) ->
  store a i c = Some (<[Z.to_nat i := char_of_int c]> a).
Proof.
  intros H. unfold store.
  destruct (Z.leb_spec 0 i); [|lia]. destruct (Z.ltb_spec i (Z.of_nat (length a))); [|lia].
  reflexivity.
Qed.

Lemma store_inv a i c a' :
  store a i c = Some a' ->
  0 <= i < Z.of_nat (length a) /\ a' = <[Z.to_nat i := char_of_int c]> a.
Proof.
  unfold store. intros H.
  destruct (Z.leb_spec 0 i); simpl in H; [|discriminate].
  destruct (Z.ltb_spec i (Z.of_nat (length a))); simpl in H; [|discriminate].
  inversion H. split; [lia | reflexivity].
Qed.

(** ** The ring buffer *)

Lemma init_ring_wf size g : 0 < size -> wf_ring (init_ring size g).
Proof.
  intros H. split; simpl; [lia|]. rewrite length_alloc. lia.
Qed.

Lemma ring_index_nonneg ring i :
  wf_ring ring -> 0 <= i ->
  ring_index ring i = Some (i mod r_size ring)
  /\ 0 <= i mod r_size ring < Z.of_nat (length (r_elements ring)).
Proof.
  intros [Hpos Hlen] Hi. unfold ring_index.
  destruct (Z.eqb_spec (r_size ring) 0); [lia|].
  rewrite Z.rem_mod_nonneg by lia. split; [reflexivity|].
  rewrite Hlen. apply Z.mod_pos_bound. lia.
Qed.

Lemma write_ring_nonneg ring i c :
  wf_ring ring -> 0 <= i ->
  write_ring ring i c =
    Some {| r_size := r_size ring;
            r_elements := <[Z.to_nat (i mod r_size ring) := char_of_int c]> (r_elements ring) |}.
Proof.
  intros Hwf Hi. unfold write_ring.
  destruct (ring_index_nonneg ring i Hwf Hi) as [-> Hb]. simpl.
  rewrite store_Some by exact Hb. reflexivity.
Qed.

Lemma read_ring_nonneg ring i :
  wf_ring ring -> 0 <= i ->
  read_ring ring i = r_elements ring !! Z.to_nat (i mod r_size ring).
Proof.
  intros Hwf Hi. unfold read_ring.
  destruct (ring_index_nonneg ring i Hwf Hi) as [-> Hb]. simpl.
  unfold load. destruct (Z.leb_spec 0 (i mod r_size ring)); [reflexivity | lia].
Qed.

Lemma write_ring_wf ring i c ring' :
  wf_ring ring -> write_ring ring i c = Some ring' ->
  wf_ring ring' /\ r_size ring' = r_size ring.
Proof.
  intros [Hpos Hlen] H. unfold write_ring in H.
  destruct (ring_index ring i) as [k|]; simpl in H; [|discriminate].
  destruct (store (r_elements ring) k c) as [els|] eqn:Hs; simpl in H; [|discriminate].
  inversion H; subst ring'; clear H. apply store_inv in Hs as [_ ->].
  split; [|reflexivity]. split; simpl; [exact Hpos|].
  rewrite length_insert. exact Hlen.
Qed.

(** C9.  For a ring of positive capacity, every position [i] (positions
    count consumed symbols, so [0 <= i]) and every [s]: [write_ring]
    succeeds (the index [i mod capacity] is inside the storage), stores
    [s], as a [char], at slot [i mod capacity] and changes no other slot
    nor the capacity; after it, [read_ring] at any position in the same
    residue class returns the stored symbol, and at any other position
    what it returned before; [read_ring] never fails either.  A symbol
    that is a [char] value is stored as it is. *)
Theorem ring_write_read_contract (ring : Ring) (i s : Z) :
  wf_ring ring -> 0 <= i ->
  exists ring',
    write_ring ring i s = Some ring'
    /\ wf_ring ring' /\ r_size ring' = r_size ring
    /\ 0 <= i mod r_size ring < Z.of_nat (length (r_elements ring))
    /\ r_elements ring' !! Z.to_nat (i mod r_size ring) = Some (char_of_int s)
    /\ (forall k : nat, k <> Z.to_nat (i mod r_size ring) ->
          r_elements ring' !! k = r_elements ring !! k)
    /\ (forall j, 0 <= j -> j mod r_size ring = i mod r_size ring ->
          read_ring ring' j = Some (char_of_int s))
    /\ (forall j, 0 <= j -> j mod r_size ring <> i mod r_size ring ->
          read_ring ring' j = read_ring ring j)
    /\ (forall j, 0 <= j -> is_Some (read_ring ring j))
    /\ (-128 <= s < 128 -> char_of_int s = s).
Proof.
  intros Hwf Hi.
  pose proof (write_ring_nonneg ring i s Hwf Hi) as Hw.
  destruct (ring_index_nonneg ring i Hwf Hi) as [_ Hb].
  eexists. split; [exact Hw|].
  destruct (write_ring_wf _ _ _ _ Hwf Hw) as [Hwf' Hsz].
  split; [exact Hwf'|]. split; [exact Hsz|]. split; [exact Hb|].
  simpl. split.
  { apply list_lookup_insert_eq. lia. }
  split.
  { intros k Hk. apply list_lookup_insert_ne. congruence. }
  split.
  { intros j Hj Hji. rewrite read_ring_nonneg by assumption. simpl.
    rewrite Hji. apply list_lookup_insert_eq. lia. }
  split.
  { intros j Hj Hji. rewrite !read_ring_nonneg by assumption. simpl.
    apply list_lookup_insert_ne.
    pose proof (Z.mod_pos_bound j (r_size ring) (proj1 Hwf)).
    intros Heq. apply Hji. lia. }
  split.
  { intros j Hj. rewrite read_ring_nonneg by assumption.
    destruct (ring_index_nonneg ring j Hwf Hj) as [_ Hbj].
    apply lookup_lt_is_Some. lia. }
  apply char_of_int_id.
Qed.

(** A negative [int] is not a position: C's [%] then gives a negative
    index.  No caller passes one ([scan_seqN] starts at position 0 and
    counts up, and [print_entryN] reads from [(p - n) % r + j] with
    [n <= p]). *)
Lemma write_ring_negative_index :
  write_ring (mkRing 3 [65; 67; 71]) (-1) 84 = None.
Proof. reflexivity. Qed.

Lemma ring_write_read_contract_witness :
  exists ring',
    write_ring (init_ring 3 [65; 67; 71]) 7 84 = Some ring'
    /\ read_ring ring' 10 = Some 84.
Proof.
  destruct (ring_write_read_contract (init_ring 3 [65; 67; 71]) 7 84)
    as (ring' & Hw & _ & _ & _ & _ & _ & Hr & _).
  - apply init_ring_wf. lia.
  - lia.
  - exists ring'. split; [exact Hw|]. apply Hr; [lia | reflexivity].
Defined.

(** ** The scan state *)

Lemma wf_state_period st : wf_state st -> 2 <= period st <= 4.
Proof. intros (_ & _ & H). lia. Qed.

Lemma init_seq_state_wf chr0 rep len g1 g2 st :
  init_seq_state chr0 rep len g1 g2 = InitOk st ->
  wf_state st /\ period st = rep /\ st_length st = len /\ chr st = chr0.
Proof.
  unfold init_seq_state. intros H.
  destruct (store (alloc (rep + 1) g2) rep NUL) as [ub|] eqn:Hs; [|discriminate].
  apply store_inv in Hs as [Hb ->]. rewrite length_alloc in Hb.
  assert (Hcase : exists v, st = {| last_bases := init_ring rep g1; st_length := len;
                    invalid_repeat := v; chr := chr0;
                    unit_buffer := <[Z.to_nat rep := char_of_int NUL]> (alloc (rep + 1) g2) |}
            /\ (rep = 2 /\ v = Invalid_repeat2 \/ rep = 3 /\ v = Invalid_repeat3
                \/ rep = 4 /\ v = Invalid_repeat4)).
  { destruct (Z.eqb_spec rep 2); [inversion H; eexists; split; [reflexivity|tauto]|].
    destruct (Z.eqb_spec rep 3); [inversion H; eexists; split; [reflexivity|tauto]|].
    destruct (Z.eqb_spec rep 4); [inversion H; eexists; split; [reflexivity|tauto]|].
    discriminate. }
  destruct Hcase as (v & -> & Hv). unfold wf_state, period. simpl.
  assert (2 <= rep <= 4) by (destruct Hv as [[-> _] | [[-> _] | [-> _]]]; lia).
  split; [|split; [reflexivity | split; reflexivity]].
  split; [split; simpl; [lia | rewrite length_alloc; lia]|].
  split; [|exact Hv].
  rewrite length_insert, length_alloc. split; [lia|].
  apply list_lookup_insert_eq. rewrite length_alloc. lia.
Qed.

(** For each period 2, 3 and 4 [init_seq_state] does return a state. *)
Lemma init_seq_state_ok chr0 rep len g1 g2 :
  2 <= rep <= 4 -> exists st, init_seq_state chr0 rep len g1 g2 = InitOk st.
Proof.
  intros H. unfold init_seq_state.
  rewrite store_Some by (rewrite length_alloc; lia).
  assert (rep = 2 \/ rep = 3 \/ rep = 4) as [-> | [-> | ->]] by lia;
    simpl; eexists; reflexivity.
Qed.

(** ** The unit validator *)

Lemma wf_lb st k :
  wf_state st -> 0 <= k < period st ->
  lb st k = r_elements (last_bases st) !! Z.to_nat k
  /\ is_Some (r_elements (last_bases st) !! Z.to_nat k).
Proof.
  intros ((_ & Hlen) & _) Hk. unfold lb, load, period in *.
  destruct (Z.leb_spec 0 k); [|lia]. split; [reflexivity|].
  apply lookup_lt_is_Some. lia.
Qed.

(** The validator of a well-formed state returns 0 or 1 and has no
    undefined access. *)
Lemma call_invalid_repeat_bool st :
  wf_state st -> exists b : bool, call_invalid_repeat st = Some (Z.b2z b).
Proof.
  intros Hwf. pose proof Hwf as (_ & _ & Hv).
  unfold call_invalid_repeat, invalid_repeat2, invalid_repeat3, invalid_repeat4.
  destruct Hv as [[Hr ->] | [[Hr ->] | [Hr ->]]].
  - destruct (wf_lb st 0 Hwf) as [-> [a ->]]; [lia|].
    destruct (wf_lb st 1 Hwf) as [-> [b ->]]; [lia|]. simpl. eauto.
  - destruct (wf_lb st 0 Hwf) as [-> [a ->]]; [lia|].
    destruct (wf_lb st 1 Hwf) as [-> [b ->]]; [lia|].
    destruct (wf_lb st 2 Hwf) as [-> [c ->]]; [lia|]. simpl.
    destruct (a =? b); [eauto | exists false; reflexivity].
  - destruct (wf_lb st 0 Hwf) as [-> [a ->]]; [lia|].
    destruct (wf_lb st 1 Hwf) as [-> [b ->]]; [lia|].
    destruct (wf_lb st 2 Hwf) as [-> [c ->]]; [lia|].
    destruct (wf_lb st 3 Hwf) as [-> [d ->]]; [lia|]. simpl.
    destruct (a =? c); [eauto | exists false; reflexivity].
Qed.

Lemma mod_shift p d r : 0 < r -> (p + d) mod r = (p mod r + d) mod r.
Proof. intros H. rewrite Zplus_mod_idemp_l. reflexivity. Qed.

Ltac window_slots H p r :=
  repeat match goal with
  | Hk : context [Z.to_nat ((p - r + 1 + ?k) mod r)] |- _ =>
      replace (p - r + 1 + k) with (p + (k + 1 - r)) in Hk by lia;
      rewrite (mod_shift p (k + 1 - r) r) in Hk by lia;
      rewrite H in Hk; simpl in Hk
  end.

Lemma lb_lookup st k x :
  r_elements (last_bases st) !! Z.to_nat k = Some x -> 0 <= k -> lb st k = Some x.
Proof.
  intros H Hk. unfold lb, load. destruct (Z.leb_spec 0 k); [exact H | lia].
Qed.

(** C3.  Whatever the position [p] the window ends at, when the ring
    holds the window [w] of the [period] most recent symbols (each at the
    slot of its position modulo [period]), the validator of the state
    returns 1 (degenerate) exactly when the specification's rule, read
    oldest first, says so, and 0 otherwise. *)
Theorem validator_agrees_with_spec (st : SeqState) (p : Z) (w : list Z) :
  wf_state st -> period st - 1 <= p -> ring_holds_window st p w ->
  call_invalid_repeat st = Some (Z.b2z (degenerate_spec (period st) w)).
Proof.
  intros Hwf Hp [Hlen Hw]. pose proof Hwf as (_ & _ & Hv).
  unfold call_invalid_repeat.
  destruct Hv as [[Hr ->] | [[Hr ->] | [Hr ->]]]; rewrite Hr in *.
  - destruct w as [|a [|b [|? ?]]]; simpl in Hlen; try lia.
    pose proof (Hw 0%nat ltac:(simpl; lia)) as H0.
    pose proof (Hw 1%nat ltac:(simpl; lia)) as H1. simpl in H0, H1.
    pose proof (Z.mod_pos_bound p 2 ltac:(lia)) as Hm.
    assert (p mod 2 = 0 \/ p mod 2 = 1) as [Hc | Hc] by lia;
      window_slots Hc p 2; unfold invalid_repeat2;
      rewrite (lb_lookup st 0 _ ltac:(eassumption)) by lia;
      rewrite (lb_lookup st 1 _ ltac:(eassumption)) by lia; simpl;
      try reflexivity.
    rewrite (Z.eqb_sym b a). reflexivity.
  - destruct w as [|a [|b [|c [|? ?]]]]; simpl in Hlen; try lia.
    pose proof (Hw 0%nat ltac:(simpl; lia)) as H0.
    pose proof (Hw 1%nat ltac:(simpl; lia)) as H1.
    pose proof (Hw 2%nat ltac:(simpl; lia)) as H2. simpl in H0, H1, H2.
    pose proof (Z.mod_pos_bound p 3 ltac:(lia)) as Hm.
    assert (p mod 3 = 0 \/ p mod 3 = 1 \/ p mod 3 = 2) as [Hc | [Hc | Hc]] by lia;
      window_slots Hc p 3; unfold invalid_repeat3;
      rewrite (lb_lookup st 0 _ ltac:(eassumption)) by lia;
      rewrite (lb_lookup st 1 _ ltac:(eassumption)) by lia;
      rewrite (lb_lookup st 2 _ ltac:(eassumption)) by lia; simpl;
      destruct (Z.eqb_spec a b), (Z.eqb_spec b c), (Z.eqb_spec c a);
      simpl; try reflexivity; try congruence;
      repeat match goal with |- context [?x =? ?y] =>
        destruct (Z.eqb_spec x y); simpl; try reflexivity; try congruence end.
  - destruct w as [|a [|b [|c [|d [|? ?]]]]]; simpl in Hlen; try lia.
    pose proof (Hw 0%nat ltac:(simpl; lia)) as H0.
    pose proof (Hw 1%nat ltac:(simpl; lia)) as H1.
    pose proof (Hw 2%nat ltac:(simpl; lia)) as H2.
    pose proof (Hw 3%nat ltac:(simpl; lia)) as H3. simpl in H0, H1, H2, H3.
    pose proof (Z.mod_pos_bound p 4 ltac:(lia)) as Hm.
    assert (p mod 4 = 0 \/ p mod 4 = 1 \/ p mod 4 = 2 \/ p mod 4 = 3)
      as [Hc | [Hc | [Hc | Hc]]] by lia;
      window_slots Hc p 4; unfold invalid_repeat4;
      rewrite (lb_lookup st 0 _ ltac:(eassumption)) by lia;
      rewrite (lb_lookup st 1 _ ltac:(eassumption)) by lia;
      rewrite (lb_lookup st 2 _ ltac:(eassumption)) by lia;
      rewrite (lb_lookup st 3 _ ltac:(eassumption)) by lia; simpl;
      destruct (Z.eqb_spec a c), (Z.eqb_spec b d);
      simpl; try reflexivity; try congruence;
      repeat match goal with |- context [?x =? ?y] =>
        destruct (Z.eqb_spec x y); simpl; try reflexivity; try congruence end.
Qed.

Lemma validator_agrees_with_spec_witness :
  call_invalid_repeat
    (mkSeqState (mkRing 4 [84; 84; 65; 65]) 8 Invalid_repeat4 "chr1" [0; 0; 0; 0; 0])
  = Some (Z.b2z (degenerate_spec 4 [65; 65; 84; 84])).
Proof.
  apply (validator_agrees_with_spec
           (mkSeqState (mkRing 4 [84; 84; 65; 65]) 8 Invalid_repeat4 "chr1" [0; 0; 0; 0; 0])
           5 [65; 65; 84; 84]).
  - unfold wf_state, wf_ring, period. simpl.
    split; [split; [lia | reflexivity]|]. split; [split; reflexivity|].
    right. right. split; reflexivity.
  - unfold period. simpl. lia.
  - split; [reflexivity|]. intros k Hk.
    destruct k as [|[|[|[|k]]]]; simpl in Hk; try lia; reflexivity.
Defined.

(** ** The period-N scanning loop: one iteration *)

(** The loop of [print_entryN] copies [k] ring slots, starting at the
    positions [j + o], into the unit buffer from index [j] on, and touches
    nothing else. *)
Lemma fill_unit_spec ring o k : forall j ub,
  wf_ring ring -> 0 <= o -> 0 <= j -> j + Z.of_nat k <= Z.of_nat (length ub) ->
  exists ub',
    fill_unit ring o k j ub = Some ub'
    /\ length ub' = length ub
    /\ (forall i, j <= i < j + Z.of_nat k ->
          exists x, r_elements ring !! Z.to_nat ((i + o) mod r_size ring) = Some x
                    /\ ub' !! Z.to_nat i = Some (char_of_int x))
    /\ (forall i : nat, ~ (j <= Z.of_nat i < j + Z.of_nat k) -> ub' !! i = ub !! i).
Proof.
  induction k as [|k IH]; intros j ub Hwf Ho Hj Hlen; simpl.
  - exists ub. split; [reflexivity|]. split; [reflexivity|].
    split; [intros i Hi; lia | reflexivity].
  - rewrite read_ring_nonneg by (assumption || lia).
    destruct (ring_index_nonneg ring (j + o) Hwf ltac:(lia)) as [_ Hb].
    destruct (lookup_lt_is_Some_2 (r_elements ring) (Z.to_nat ((j + o) mod r_size ring))
                ltac:(lia)) as [x Hx].
    rewrite Hx. simpl. rewrite store_Some by lia. simpl.
    destruct (IH (j + 1) (<[Z.to_nat j := char_of_int x]> ub) Hwf Ho ltac:(lia))
      as (ub' & Hf & Hl & Hin & Hout).
    { rewrite length_insert. lia. }
    exists ub'. split; [exact Hf|]. rewrite length_insert in Hl.
    split; [exact Hl|]. split.
    + intros i Hi. destruct (Z.eq_dec i j) as [-> | Hne].
      * exists x. split; [exact Hx|].
        rewrite <- (Nat2Z.id (Z.to_nat j)), Hout by lia.
        rewrite Nat2Z.id. apply list_lookup_insert_eq. lia.
      * apply Hin. lia.
    + intros i Hi. rewrite Hout by lia. apply list_lookup_insert_ne. lia.
Qed.

(** [print_entryN] in a well-formed state, for a run that does not start
    before position 0: it has no undefined access, prints exactly when
    [length <= n], changes the unit buffer only, and the unit it prints is
    the ring read at the positions [p - n .. p - n + period - 1]. *)
Lemma print_entryN_ok st p n :
  wf_state st -> 0 <= n <= p ->
  exists evs st',
    print_entryN st p n = Some (evs, st')
    /\ wf_state st'
    /\ last_bases st' = last_bases st /\ st_length st' = st_length st
    /\ invalid_repeat st' = invalid_repeat st /\ chr st' = chr st
    /\ (n < st_length st -> evs = [] /\ st' = st)
    /\ (st_length st <= n ->
         evs = [EvPrint (Entry (chr st) p n (unit_buffer st'))]
         /\ forall j, 0 <= j < period st ->
              exists x,
                r_elements (last_bases st) !! Z.to_nat ((p - n + j) mod period st) = Some x
                /\ unit_buffer st' !! Z.to_nat j = Some (char_of_int x)).
Proof.
  intros Hwf Hn. pose proof Hwf as (Hring & (Hub & Hnul) & Hv).
  pose proof (wf_state_period st Hwf) as Hr. unfold period in *.
  unfold print_entryN.
  destruct (Z.leb_spec (st_length st) n) as [Hge | Hlt].
  - destruct (Z.eqb_spec (r_size (last_bases st)) 0); [lia|].
    set (o := Z.rem (p - n) (r_size (last_bases st))).
    assert (Ho : o = (p - n) mod r_size (last_bases st))
      by (apply Z.rem_mod_nonneg; lia).
    pose proof (Z.mod_pos_bound (p - n) (r_size (last_bases st)) ltac:(lia)) as Hob.
    destruct (fill_unit_spec (last_bases st) o (Z.to_nat (r_size (last_bases st))) 0
                (unit_buffer st) Hring ltac:(lia) ltac:(lia) ltac:(lia))
      as (ub' & Hf & Hl & Hin & Hout).
    rewrite Hf. simpl. do 2 eexists. split; [reflexivity|].
    split.
    { unfold wf_state, period. simpl. split; [exact Hring|]. split; [|exact Hv].
      rewrite Hl. split; [exact Hub|]. rewrite Hout by lia. exact Hnul. }
    simpl. repeat (split; [reflexivity|]). split; [lia|]. intros _.
    split; [reflexivity|]. intros j Hj.
    destruct (Hin j ltac:(lia)) as (x & Hx & Hu). exists x. split; [|exact Hu].
    rewrite <- Hx. f_equal. f_equal. rewrite Ho.
    replace (p - n + j) with (j + (p - n)) by lia.
    rewrite <- Zplus_mod_idemp_r. reflexivity.
  - do 2 eexists. split; [reflexivity|]. split; [exact Hwf|].
    repeat (split; [reflexivity|]). split; [intros _; split; reflexivity | lia].
Qed.

Lemma set_last_bases_wf st ring :
  wf_state st -> wf_ring ring -> r_size ring = period st ->
  wf_state (set_last_bases st ring).
Proof.
  intros (_ & Hub & Hv) Hring Hsz. unfold wf_state, period in *. simpl.
  rewrite Hsz. split; [exact Hring|]. split; assumption.
Qed.

(** [next_n] in a well-formed state at a position [0 <= p]: it writes [c],
    calls the validator once on the new window and returns [period] minus
    the validator's verdict. *)
Lemma next_n_ok st p c :
  wf_state st -> 0 <= p ->
  exists ring (b : bool),
    write_ring (last_bases st) p c = Some ring
    /\ wf_state (set_last_bases st ring)
    /\ r_size ring = period st
    /\ call_invalid_repeat (set_last_bases st ring) = Some (Z.b2z b)
    /\ next_n st p c
       = Some ([EvValidate (Z.b2z b)], set_last_bases st ring, period st - Z.b2z b).
Proof.
  intros Hwf Hp. pose proof Hwf as (Hring & _).
  pose proof (write_ring_nonneg (last_bases st) p c Hring Hp) as Hw.
  destruct (write_ring_wf _ _ _ _ Hring Hw) as [Hring' Hsz].
  eexists. 
  assert (Hwf' : wf_state (set_last_bases st
            {| r_size := r_size (last_bases st);
               r_elements := <[Z.to_nat (p mod r_size (last_bases st)) := char_of_int c]>
                               (r_elements (last_bases st)) |}))
    by (apply set_last_bases_wf; assumption).
  destruct (call_invalid_repeat_bool _ Hwf') as [b Hb].
  exists b. split; [exact Hw|]. split; [exact Hwf'|]. split; [exact Hsz|].
  split; [exact Hb|]. unfold next_n. rewrite Hw. simpl. rewrite Hb. reflexivity.
Qed.

Lemma scanN_ok_init st : wf_state st -> scanN_ok (LoopN st 0 0).
Proof. intros H. split; simpl; [exact H | lia]. Qed.

Lemma scanN_body_newline s : scanN_body s NEWLINE = Some ([], s, Continue).
Proof. reflexivity. Qed.

Lemma scanN_body_N s :
  scanN_body s BASE_N =
    '(evs, st') ← print_entryN (ln_st s) (ln_p s) (ln_n s);
    Some (evs, LoopN st' (ln_p s + 1) 0, Continue).
Proof. reflexivity. Qed.

Lemma scanN_body_end s c :
  c = EOF \/ c = HEADER_PREFIX ->
  scanN_body s c =
    '(evs, st') ← print_entryN (ln_st s) (ln_p s) (ln_n s);
    Some (evs, LoopN st' (ln_p s) (ln_n s), Break).
Proof. intros [-> | ->]; reflexivity. Qed.

Lemma scanN_body_ordinary s c :
  ordinary c ->
  scanN_body s c =
    let st := ln_st s in
    let p := ln_p s in
    let n := ln_n s in
    let q := r_size (last_bases st) - 1 in
    if n <? q then
      ring ← write_ring (last_bases st) p c;
      Some ([], LoopN (set_last_bases st ring) (p + 1) (n + 1), Continue)
    else if q <? n then
      c0 ← read_ring (last_bases st) p;
      if c0 =? c then Some ([], LoopN st (p + 1) (n + 1), Continue)
      else
        '(evs, st') ← print_entryN st p n;
        '(evs', st'', n') ← next_n st' p c;
        Some (evs ++ evs', LoopN st'' (p + 1) n', Continue)
    else
      '(evs, st', n') ← next_n st p c;
      Some (evs, LoopN st' (p + 1) n', Continue).
Proof.
  intros (H1 & H2 & H3 & H4). unfold scanN_body.
  destruct (Z.eqb_spec c NEWLINE); [contradiction|].
  destruct (Z.eqb_spec c BASE_N); [contradiction|].
  destruct (Z.eqb_spec c EOF); [contradiction|].
  destruct (Z.eqb_spec c HEADER_PREFIX); [contradiction|].
  reflexivity.
Qed.

Lemma ordinary_dec c :
  c = NEWLINE \/ c = BASE_N \/ (c = EOF \/ c = HEADER_PREFIX) \/ ordinary c.
Proof. unfold ordinary. lia. Qed.

Lemma b2n_eq r b : r - Z.b2z b = b2n r b.
Proof. destruct b; simpl; lia. Qed.

(** The comparison phase ([period <= n]) on an ordinary symbol: the slot
    of [p] is read; on a match only the counters move; on a mismatch the
    run is handed to [print_entryN] and [next_n] restarts the candidate. *)
Lemma scanN_body_compare (s : loopN) (c : Z) :
  scanN_ok s -> ordinary c -> period (ln_st s) <= ln_n s ->
  let st := ln_st s in
  let p := ln_p s in
  let n := ln_n s in
  exists c0,
    read_ring (last_bases st) p = Some c0
    /\ r_elements (last_bases st) !! Z.to_nat (p mod period st) = Some c0
    /\ (c0 = c ->
          scanN_body s c = Some ([], LoopN st (p + 1) (n + 1), Continue))
    /\ (c0 <> c ->
          exists evs st1 ring (b : bool),
            print_entryN st p n = Some (evs, st1)
            /\ last_bases st1 = last_bases st
            /\ entries_of evs
               = (if st_length st <=? n
                  then [Entry (chr st) p n (unit_buffer st1)] else [])
            /\ write_ring (last_bases st) p c = Some ring
            /\ r_size ring = period st
            /\ r_elements ring
               = <[Z.to_nat (p mod period st) := char_of_int c]>
                   (r_elements (last_bases st))
            /\ call_invalid_repeat (set_last_bases st1 ring) = Some (Z.b2z b)
            /\ scanN_body s c
               = Some (evs ++ [EvValidate (Z.b2z b)],
                       LoopN (set_last_bases st1 ring) (p + 1)
                         (if b then period st - 1 else period st),
                       Continue)).
Proof.
  intros [Hwf Hn] Hc Hrn st p n. subst st p n.
  pose proof Hwf as (Hring & _).
  pose proof (wf_state_period _ Hwf) as Hr.
  rewrite (scanN_body_ordinary s c Hc). cbv zeta. unfold period in *.
  destruct (Z.ltb_spec (ln_n s) (r_size (last_bases (ln_st s)) - 1)); [lia|].
  destruct (Z.ltb_spec (r_size (last_bases (ln_st s)) - 1) (ln_n s)); [|lia].
  rewrite read_ring_nonneg by (assumption || lia).
  destruct (ring_index_nonneg _ (ln_p s) Hring ltac:(lia)) as [_ Hb].
  destruct (lookup_lt_is_Some_2 (r_elements (last_bases (ln_st s)))
              (Z.to_nat (ln_p s mod r_size (last_bases (ln_st s)))) ltac:(lia))
    as [c0 Hc0].
  exists c0. rewrite Hc0. split; [reflexivity|]. split; [reflexivity|]. simpl.
  split.
  - intros ->. rewrite Z.eqb_refl. reflexivity.
  - intros Hne. destruct (Z.eqb_spec c0 c); [contradiction|].
    destruct (print_entryN_ok _ (ln_p s) (ln_n s) Hwf Hn)
      as (evs & st1 & Hpr & Hwf1 & Hlb & Hlen & Hiv & Hchr & Hlt & Hge).
    destruct (next_n_ok st1 (ln_p s) c Hwf1 ltac:(lia))
      as (ring & b & Hw & Hwf2 & Hsz & Hcall & Hnext).
    exists evs, st1, ring, b. rewrite Hpr. simpl. rewrite Hnext. simpl.
    unfold period in *. rewrite Hlb in *.
    split; [reflexivity|]. split; [reflexivity|]. split.
    { destruct (Z.leb_spec (st_length (ln_st s)) (ln_n s)) as [Hle | Hgt].
      - destruct (Hge Hle) as [-> _]. reflexivity.
      - destruct (Hlt Hgt) as [-> _]. reflexivity. }
    split; [exact Hw|]. split; [exact Hsz|]. split.
    { rewrite write_ring_nonneg in Hw by (assumption || lia).
      inversion Hw. reflexivity. }
    split; [exact Hcall|].
    rewrite b2n_eq. reflexivity.
Qed.

Lemma example_state2_wf : wf_state example_state2.
Proof.
  unfold wf_state, wf_ring, period. simpl.
  split; [split; [lia | reflexivity]|]. split; [split; reflexivity|].
  left. split; reflexivity.
Qed.



(** The boundary ([n = period - 1]) on an ordinary symbol: [next_n]. *)
Lemma scanN_body_boundary (s : loopN) (c : Z) :
  scanN_ok s -> ordinary c -> ln_n s = period (ln_st s) - 1 ->
  exists ring (b : bool),
    write_ring (last_bases (ln_st s)) (ln_p s) c = Some ring
    /\ wf_state (set_last_bases (ln_st s) ring)
    /\ r_size ring = period (ln_st s)
    /\ r_elements ring
       = <[Z.to_nat (ln_p s mod period (ln_st s)) := char_of_int c]>
           (r_elements (last_bases (ln_st s)))
    /\ call_invalid_repeat (set_last_bases (ln_st s) ring) = Some (Z.b2z b)
    /\ scanN_body s c
       = Some ([EvValidate (Z.b2z b)],
               LoopN (set_last_bases (ln_st s) ring) (ln_p s + 1)
                 (if b then period (ln_st s) - 1 else period (ln_st s)),
               Continue).
Proof.
  intros [Hwf Hn] Hc Hq. pose proof Hwf as (Hring & _).
  pose proof (wf_state_period _ Hwf) as Hr.
  rewrite (scanN_body_ordinary s c Hc). cbv zeta. unfold period in *.
  destruct (Z.ltb_spec (ln_n s) (r_size (last_bases (ln_st s)) - 1)); [lia|].
  destruct (Z.ltb_spec (r_size (last_bases (ln_st s)) - 1) (ln_n s)); [lia|].
  destruct (next_n_ok (ln_st s) (ln_p s) c Hwf ltac:(lia))
    as (ring & b & Hw & Hwf2 & Hsz & Hcall & Hnext).
  exists ring, b. rewrite Hnext. simpl. unfold period in *.
  split; [exact Hw|]. split; [exact Hwf2|]. split; [exact Hsz|]. split.
  { rewrite write_ring_nonneg in Hw by (assumption || lia).
    inversion Hw. reflexivity. }
  split; [exact Hcall|]. rewrite b2n_eq. reflexivity.
Qed.

(** The fill phase ([n < period - 1]) on an ordinary symbol: a write. *)
Lemma scanN_body_fill (s : loopN) (c : Z) :
  scanN_ok s -> ordinary c -> ln_n s < period (ln_st s) - 1 ->
  exists ring,
    write_ring (last_bases (ln_st s)) (ln_p s) c = Some ring
    /\ wf_state (set_last_bases (ln_st s) ring)
    /\ r_size ring = period (ln_st s)
    /\ r_elements ring
       = <[Z.to_nat (ln_p s mod period (ln_st s)) := char_of_int c]>
           (r_elements (last_bases (ln_st s)))
    /\ scanN_body s c
       = Some ([], LoopN (set_last_bases (ln_st s) ring) (ln_p s + 1) (ln_n s + 1),
               Continue).
Proof.
  intros [Hwf Hn] Hc Hq. pose proof Hwf as (Hring & _).
  rewrite (scanN_body_ordinary s c Hc). cbv zeta. unfold period in *.
  destruct (Z.ltb_spec (ln_n s) (r_size (last_bases (ln_st s)) - 1)); [|lia].
  pose proof (write_ring_nonneg (last_bases (ln_st s)) (ln_p s) c Hring ltac:(lia)) as Hw.
  destruct (write_ring_wf _ _ _ _ Hring Hw) as [Hring' Hsz].
  rewrite Hw. simpl. eexists. split; [reflexivity|].
  split; [apply set_last_bases_wf; assumption|].
  split; [reflexivity|]. split; reflexivity.
Qed.







(** ** The emission gate *)

Lemma entries_of_app evs1 evs2 :
  entries_of (evs1 ++ evs2) = entries_of evs1 ++ entries_of evs2.
Proof.
  induction evs1 as [|[e|v] evs1 IH]; simpl; [reflexivity| |exact IH].
  rewrite IH. reflexivity.
Qed.

Lemma print_entryN_entries st p n evs st' :
  wf_state st -> 0 <= n <= p -> print_entryN st p n = Some (evs, st') ->
  (st_length st <= n -> entries_of evs = [Entry (chr st) p n (unit_buffer st')])
  /\ (n < st_length st -> entries_of evs = []).
Proof.
  intros Hwf Hn Hpr.
  destruct (print_entryN_ok st p n Hwf Hn)
    as (evs0 & st0 & Hpr0 & _ & _ & _ & _ & _ & Hlt & Hge).
  rewrite Hpr in Hpr0. inversion Hpr0; subst evs0 st0. split.
  - intros H. destruct (Hge H) as [-> _]. reflexivity.
  - intros H. destruct (Hlt H) as [-> _]. reflexivity.
Qed.

(** A step of the period-N machine that completes a run prints what
    [print_entryN] prints for the run [(p, n)], and nothing else. *)
Lemma scanN_body_completes (s : loopN) (c : Z) :
  scanN_ok s -> completes_runN s c ->
  exists evs0 st0 evs s' k,
    print_entryN (ln_st s) (ln_p s) (ln_n s) = Some (evs0, st0)
    /\ scanN_body s c = Some (evs, s', k)
    /\ entries_of evs = entries_of evs0
    /\ unit_buffer (ln_st s') = unit_buffer st0.
Proof.
  intros [Hwf Hn] Hc.
  destruct (print_entryN_ok _ (ln_p s) (ln_n s) Hwf Hn)
    as (evs0 & st0 & Hpr & Hwf0 & _).
  exists evs0, st0.
  destruct Hc as [-> | [Hc | [Hc | (Hc & Hr & Hrd)]]].
  - rewrite scanN_body_N, Hpr. simpl. do 3 eexists.
    split; [reflexivity|]. split; [reflexivity|]. split; reflexivity.
  - rewrite (scanN_body_end s c (or_introl Hc)), Hpr. simpl. do 3 eexists.
    split; [reflexivity|]. split; [reflexivity|]. split; reflexivity.
  - rewrite (scanN_body_end s c (or_intror Hc)), Hpr. simpl. do 3 eexists.
    split; [reflexivity|]. split; [reflexivity|]. split; reflexivity.
  - destruct (scanN_body_compare s c (conj Hwf Hn) Hc Hr)
      as (c0 & Hrd0 & _ & _ & Hmis).
    destruct (Hmis ltac:(congruence))
      as (evs' & st1 & ring & b & Hpr' & _ & _ & _ & _ & _ & _ & ->).
    rewrite Hpr in Hpr'. inversion Hpr'; subst evs' st1.
    do 3 eexists. split; [exact Hpr|]. split; [reflexivity|].
    rewrite entries_of_app. simpl. rewrite app_nil_r. split; reflexivity.
Qed.

(** What the homopolymer machine prints in one step. *)
Lemma scan1_body_entries chr0 len s c :
  fst (fst (scan1_body chr0 len s c))
  = if (c =? NEWLINE) || (c =? l1_last s) then []
    else if (len <=? l1_n s) && negb (l1_last s =? BASE_N)
         then [Entry chr0 (l1_p s) (l1_n s) [l1_last s; NUL]] else [].
Proof.
  unfold scan1_body.
  destruct (c =? NEWLINE); [reflexivity|].
  destruct (c =? l1_last s); [reflexivity|]. simpl.
  destruct ((c =? EOF) || (c =? HEADER_PREFIX)); reflexivity.
Qed.

(** C6.  Period-N machine: every step that completes a run (terminator,
    end of the segment, mismatch in the comparison phase) hands the run
    [(p, n)] to [print_entryN], and exactly one record, for that run, is
    printed when [threshold <= n], none when [n < threshold].
    Homopolymer machine: every step that completes a run of a symbol
    other than the terminator (the incoming symbol differs from the
    repeated one, the end of the segment included) prints exactly one
    record, for that run, when [threshold <= n], none when
    [n < threshold]. *)
Theorem emission_gate :
  (forall (s : loopN) (c : Z),
     scanN_ok s -> completes_runN s c ->
     exists evs s' k,
       scanN_body s c = Some (evs, s', k)
       /\ (st_length (ln_st s) <= ln_n s ->
             entries_of evs
             = [Entry (chr (ln_st s)) (ln_p s) (ln_n s) (unit_buffer (ln_st s'))])
       /\ (ln_n s < st_length (ln_st s) -> entries_of evs = []))
  /\ (forall (chr0 : string) (len : Z) (s : loop1) (c : Z),
        c <> NEWLINE -> c <> l1_last s -> l1_last s <> BASE_N ->
        (len <= l1_n s ->
           fst (fst (scan1_body chr0 len s c))
           = [Entry chr0 (l1_p s) (l1_n s) [l1_last s; NUL]])
        /\ (l1_n s < len -> fst (fst (scan1_body chr0 len s c)) = [])).
Proof.
  split.
  - intros s c Hok Hc.
    destruct (scanN_body_completes s c Hok Hc)
      as (evs0 & st0 & evs & s' & k & Hpr & Hbody & Hev & Hub).
    exists evs, s', k. split; [exact Hbody|]. rewrite Hev, Hub.
    destruct Hok as [Hwf Hn].
    exact (print_entryN_entries _ _ _ _ _ Hwf Hn Hpr).
  - intros chr0 len s c Hnl Hlast HN. rewrite scan1_body_entries.
    destruct (Z.eqb_spec c NEWLINE); [contradiction|].
    destruct (Z.eqb_spec c (l1_last s)); [contradiction|].
    destruct (Z.eqb_spec (l1_last s) BASE_N); [contradiction|]. simpl.
    destruct (Z.leb_spec len (l1_n s)); simpl; split; intros; (reflexivity || lia).
Qed.

(** A run of length exactly the threshold is printed, and a run one
    symbol shorter is not: period 2 and threshold 4, at the end of the
    segment; homopolymers with threshold 3, on a change of symbol. *)
Lemma emission_gate_witness :
  (exists s' k,
     scanN_body (LoopN example_state2 4 4) EOF
     = Some ([EvPrint (Entry "chr1" 4 4 (unit_buffer (ln_st s')))], s', k))
  /\ (exists s' k,
        scanN_body (LoopN example_state2 3 3) EOF = Some ([], s', k))
  /\ fst (fst (scan1_body "chr1" 3 (Loop1 65 3 3) 67)) = [Entry "chr1" 3 3 [65; NUL]]
  /\ fst (fst (scan1_body "chr1" 3 (Loop1 65 2 2) 67)) = [].
Proof.
  destruct emission_gate as [HN H1].
  split; [|split].
  - destruct (HN (LoopN example_state2 4 4) EOF) as (evs & s' & k & Hb & Hge & _).
    + split; [exact example_state2_wf | simpl; lia].
    + right. left. reflexivity.
    + exists s', k. rewrite Hb. specialize (Hge ltac:(simpl; lia)).
      vm_compute in Hb. inversion Hb; subst evs s' k. reflexivity.
  - destruct (HN (LoopN example_state2 3 3) EOF) as (evs & s' & k & Hb & _ & Hlt).
    + split; [exact example_state2_wf | simpl; lia].
    + right. left. reflexivity.
    + exists s', k. rewrite Hb. specialize (Hlt ltac:(simpl; lia)).
      vm_compute in Hb. inversion Hb; subst evs s' k. reflexivity.
  - split.
    + apply (H1 "chr1"%string 3 (Loop1 65 3 3) 67); simpl; unfold NEWLINE, BASE_N; lia.
    + apply (H1 "chr1"%string 3 (Loop1 65 2 2) 67); simpl; unfold NEWLINE, BASE_N; lia.
Defined.

(** ** Configuration errors *)

(** The three tests [read_fasta] starts with: the run ends there, with
    status -1, a message on the standard error, nothing on the standard
    output and the input untouched. *)
Lemma read_fasta_rejects g fp rep len :
  len <= rep \/ 4 < rep \/ fp = None ->
  exists msg,
    read_fasta g fp rep len = Exited (-1) (World "" (msg ++ nl) fp)
    /\ msg <> EmptyString.
Proof.
  intros H. unfold read_fasta.
  destruct (Z.leb_spec len rep).
  { eexists. split; [reflexivity | discriminate]. }
  destruct (Z.ltb_spec 4 rep).
  { eexists. split; [reflexivity | discriminate]. }
  destruct H as [H | [H | ->]]; try lia.
  eexists. split; [reflexivity | discriminate].
Qed.

(** Period 0 passes the three tests; it is rejected by
    [init_seq_state], after the input was read up to the first header,
    before the summary lines are printed and before any chromosome is
    parsed. *)
Lemma read_fasta_rejects_period_0 g f len :
  0 < len ->
  read_fasta g (Some f) 0 len
  = Exited (-1)
      (World "" (("Finding polynuc repeats >=" ++ dec 0 ++ "bp with unit size "
                  ++ dec len ++ "bp" ++ nl)
                 ++ "invalid r (this should never happen)" ++ nl)
         (Some (snd (seek_char f HEADER_PREFIX)))).
Proof.
  intros H. unfold read_fasta.
  destruct (Z.leb_spec len 0); [lia|]. simpl.
  destruct (seek_char f HEADER_PREFIX) as [c f1]. simpl.
  unfold init_seq_state. rewrite store_Some by (rewrite length_alloc; lia).
  reflexivity.
Qed.

(** A negative period below the threshold passes the three tests, and
    [init_seq_state] stores into [unit_buffer[rep]], outside the
    allocation, before it looks at the period. *)
Lemma read_fasta_negative_period g f rep len :
  rep < 0 -> rep < len -> read_fasta g (Some f) rep len = Undefined.
Proof.
  intros Hrep Hlen. unfold read_fasta.
  destruct (Z.leb_spec len rep); [lia|]. destruct (Z.ltb_spec 4 rep); [lia|].
  destruct (seek_char f HEADER_PREFIX) as [c f1].
  destruct (Z.eqb_spec rep 1); [lia|]. cbv beta iota zeta delta [negb].
  unfold init_seq_state, store.
  destruct (Z.leb_spec 0 rep); [lia|]. reflexivity.
Qed.

(** C5 fails on the code for a negative period.  The tests of
    [read_fasta] let period -2 with threshold 0 through ([0 <= -2] and
    [4 < -2] are both false); the input is read up to the first header;
    then [init_seq_state] stores into [unit_buffer[-2]], outside the
    allocation, before it looks at the period: the behaviour is undefined,
    where the claim has a fatal error with a message and a non-zero exit
    status. *)
Theorem negative_period_not_rejected (g : garbage) (f : string) :
  read_fasta g (Some f) (-2) 0 = Undefined.
Proof. apply read_fasta_negative_period; lia. Qed.

(** ** Scenario B: the degeneracy filter *)

Lemma alloc_4 g : exists a b c d, alloc 4 g = [a; b; c; d].
Proof.
  pose proof (length_alloc 4 g) as H.
  destruct (alloc 4 g) as [|a [|b [|c [|d [|? ?]]]]]; try discriminate.
  eauto.
Qed.

Lemma alloc_5 g : exists a b c d e, alloc 5 g = [a; b; c; d; e].
Proof.
  pose proof (length_alloc 5 g) as H.
  destruct (alloc 5 g) as [|a [|b [|c [|d [|e [|? ?]]]]]]; try discriminate.
  eauto 6.
Qed.

(** C8.  With period 4 and threshold 8, whatever the fresh allocations
    hold: the segment [ATATATAT] prints no record, the segment
    [AATTAATTAATT] prints exactly one, for the run that ends at 12 with
    length 12 and unit [AATT]; the validator rejects the window [ATAT]
    and accepts [AATT]; and the whole program prints, for a file with these
    two segments, the two summary lines and that one record. *)
Theorem degeneracy_filter_scenario (chr0 : string) (g1 g2 : list Z) :
  exists st,
    init_seq_state chr0 4 8 g1 g2 = InitOk st
    /\ (exists evs st', scan_seqN "ATATATAT" st = Some (evs, st', EmptyString)
                        /\ entries_of evs = [])
    /\ (exists evs st', scan_seqN "AATTAATTAATT" st = Some (evs, st', EmptyString)
                        /\ entries_of evs = [Entry chr0 12 12 [65; 65; 84; 84; 0]])
    /\ degenerate_spec 4 [65; 84; 65; 84] = true
    /\ degenerate_spec 4 [65; 65; 84; 84] = false
    /\ call_invalid_repeat (set_last_bases st (mkRing 4 [65; 84; 65; 84])) = Some 1
    /\ call_invalid_repeat (set_last_bases st (mkRing 4 [65; 65; 84; 84])) = Some 0
    /\ read_fasta (Garbage chr0 g1 g2)
         (Some (">chr1" ++ nl ++ "ATATATAT" ++ nl ++ ">chr2" ++ nl
                ++ "AATTAATTAATT" ++ nl)%string) 4 8
       = Returned 0
           (World ("#repeat_length: 4" ++ nl ++ "#total_length: 8" ++ nl
                   ++ "chr2" ++ tab ++ "0" ++ tab ++ "12" ++ tab ++ "unit=AATT" ++ nl)
              ("Finding polynuc repeats >=4bp with unit size 8bp" ++ nl
               ++ "Parsing chromosome chr1" ++ nl
               ++ "Parsing chromosome chr2" ++ nl)
              (Some EmptyString)).
Proof.
  unfold read_fasta, init_seq_state, init_ring. simpl g_elements. simpl g_unit_buffer.
  destruct (alloc_4 g1) as (a & b & c & d & ->).
  change (4 + 1) with 5.
  destruct (alloc_5 g2) as (a' & b' & c' & d' & e' & ->).
  eexists. split; [reflexivity|].
  split; [do 2 eexists; split; vm_compute; reflexivity|].
  split; [do 2 eexists; split; vm_compute; reflexivity|].
  repeat (split; [reflexivity|]).
  vm_compute. reflexivity.
Qed.

(** ** The period-N scanning loop: the buffer holds the current run *)

Lemma same_config_refl st : same_config st st.
Proof. repeat split. Qed.

Lemma entry_fresh_app r h h' e : entry_fresh r h e -> entry_fresh r (h ++ h') e.
Proof.
  intros (H1 & H2 & H3 & H4 & H5 & H6 & H7). unfold entry_fresh.
  rewrite length_app. split; [exact H1|]. split; [lia|]. split; [exact H3|].
  split; [|split; [|split; assumption]].
  - intros i Hi. destruct (H4 i Hi) as (x & Hx & Ho). exists x.
    split; [|exact Ho]. apply lookup_app_l_Some. exact Hx.
  - intros j Hj. destruct (H5 j Hj) as (x & Hx & Hu). exists x.
    split; [|exact Hu]. apply lookup_app_l_Some. exact Hx.
Qed.

Lemma push_cases h c :
  push h c = h /\ (c = NEWLINE \/ c = EOF \/ c = HEADER_PREFIX)
  \/ push h c = h ++ [c] /\ c <> NEWLINE /\ c <> EOF /\ c <> HEADER_PREFIX.
Proof.
  unfold push.
  destruct (Z.eqb_spec c NEWLINE); [left; tauto|].
  destruct (Z.eqb_spec c EOF); [left; tauto|].
  destruct (Z.eqb_spec c HEADER_PREFIX); [left; tauto|].
  right. simpl. tauto.
Qed.

Lemma entry_fresh_push r h c e : entry_fresh r h e -> entry_fresh r (push h c) e.
Proof.
  intros H. destruct (push_cases h c) as [[-> _] | [-> _]]; [exact H|].
  apply entry_fresh_app. exact H.
Qed.

Lemma mod_near_neq i d r : 0 < d < r -> (i + d) mod r <> i mod r.
Proof.
  intros Hd Heq.
  assert (H : d mod r = 0).
  { replace d with ((i + d) - i) at 1 by lia.
    rewrite Zminus_mod, Heq, Z.sub_diag. apply Z.mod_0_l. lia. }
  rewrite Z.mod_small in H by lia. lia.
Qed.

(** The unit buffer plays no part in freshness. *)
Lemma fresh_same_ring h st st' p n :
  last_bases st' = last_bases st ->
  fresh h (LoopN st p n) -> fresh h (LoopN st' p n).
Proof.
  intros Hlb [Hp Hf]. split; [exact Hp|]. simpl in *. unfold period in *.
  rewrite Hlb. exact Hf.
Qed.

(** A run that [print_entryN] prints is fresh. *)
Lemma print_entryN_fresh h s evs st' :
  scanN_ok s -> period (ln_st s) < st_length (ln_st s) -> fresh h s ->
  print_entryN (ln_st s) (ln_p s) (ln_n s) = Some (evs, st') ->
  forall e, In e (entries_of evs) ->
    entry_fresh (period (ln_st s)) h e
    /\ e_chr e = chr (ln_st s) /\ e_p e = ln_p s /\ e_n e = ln_n s
    /\ st_length (ln_st s) <= e_n e.
Proof.
  intros [Hwf Hn] Hlen [Hp Hf] Hpr e He.
  destruct (print_entryN_ok _ (ln_p s) (ln_n s) Hwf Hn)
    as (evs0 & st0 & Hpr0 & Hwf0 & Hlb & _ & _ & _ & Hlt & Hge).
  rewrite Hpr in Hpr0. inversion Hpr0; subst evs0 st0.
  destruct (Z_lt_ge_dec (ln_n s) (st_length (ln_st s))) as [Hsmall | Hbig].
  { destruct (Hlt Hsmall) as [-> _]. destruct He. }
  destruct (Hge ltac:(lia)) as [-> Hunit]. simpl in He.
  destruct He as [<- | []]. simpl.
  split; [|repeat split; lia].
  pose proof Hwf0 as (_ & (Hul & Hnul) & _).
  assert (Hper : period st' = period (ln_st s)) by (unfold period; rewrite Hlb; reflexivity).
  rewrite Hper in *.
  unfold entry_fresh. simpl.
  split; [lia|]. split; [lia|]. split; [lia|]. split.
  { intros i Hi. destruct (Hf i Hi) as (x & Hx & _ & Ho & _). eauto. }
  split; [|split; assumption].
  intros j Hj. destruct (Hf (ln_p s - ln_n s + j) ltac:(lia)) as (x & Hx & _ & _ & Hs).
  destruct (Hunit j Hj) as (y & Hy & Hu). rewrite Hs in Hy. inversion Hy; subst y.
  exists x. split; [exact Hx|]. rewrite Hu, char_of_int_idemp. reflexivity.
Qed.

(** Writing the incoming symbol at [p] keeps the ring fresh for any run
    that ends with it and is no longer than the period. *)
Lemma fresh_write h st p n c ring n' :
  wf_state st -> fresh h (LoopN st p n) -> 0 <= n <= p ->
  is_byte c -> ordinary c ->
  write_ring (last_bases st) p c = Some ring ->
  0 <= n' <= n + 1 -> n' <= period st ->
  fresh (h ++ [c]) (LoopN (set_last_bases st ring) (p + 1) n').
Proof.
  intros Hwf [Hp Hf] Hn Hb Ho Hw Hn' Hr. simpl in *.
  pose proof Hwf as (Hring & _).
  rewrite write_ring_nonneg in Hw by (assumption || lia).
  inversion Hw; subst ring; clear Hw.
  destruct (ring_index_nonneg _ p Hring ltac:(lia)) as [_ Hpb].
  split; simpl.
  { rewrite length_app. simpl. lia. }
  unfold period in *. simpl. intros i Hi.
  destruct (Z.eq_dec i p) as [-> | Hne].
  - exists c. split.
    { rewrite Hp, Nat2Z.id. apply list_lookup_middle. reflexivity. }
    split; [exact Hb|]. split; [exact Ho|].
    apply list_lookup_insert_eq. lia.
  - destruct (Hf i ltac:(lia)) as (x & Hx & Hxb & Hxo & Hs).
    exists x. split; [apply lookup_app_l_Some; exact Hx|].
    split; [exact Hxb|]. split; [exact Hxo|].
    rewrite list_lookup_insert_ne; [exact Hs|].
    pose proof (mod_near_neq i (p - i) (r_size (last_bases st)) ltac:(lia)) as Hm.
    replace (i + (p - i)) with p in Hm by lia.
    pose proof (Z.mod_pos_bound i (r_size (last_bases st)) ltac:(lia)).
    lia.
Qed.

(** A symbol equal to the slot read extends the fresh run. *)
Lemma fresh_match h st p n c :
  wf_state st -> fresh h (LoopN st p n) -> 0 <= n <= p ->
  is_byte c -> ordinary c -> period st <= n ->
  read_ring (last_bases st) p = Some c ->
  fresh (h ++ [c]) (LoopN st (p + 1) (n + 1)).
Proof.
  intros Hwf [Hp Hf] Hn Hb Ho Hr Hrd. simpl in *.
  pose proof Hwf as (Hring & _). pose proof (wf_state_period _ Hwf) as Hper.
  rewrite read_ring_nonneg in Hrd by (assumption || lia).
  split; simpl.
  { rewrite length_app. simpl. lia. }
  intros i Hi. destruct (Z.eq_dec i p) as [-> | Hne].
  - exists c. split.
    { rewrite Hp, Nat2Z.id. apply list_lookup_middle. reflexivity. }
    split; [exact Hb|]. split; [exact Ho|].
    destruct (Hf (p - period st) ltac:(lia)) as (x & Hx & Hxb & _ & Hs).
    replace (p - period st) with (p + (-1) * period st) in Hs by lia.
    rewrite Z_mod_plus_full in Hs. unfold period in *.
    rewrite Hrd in Hs. assert (Hc : char_of_int x = c) by congruence.
    destruct (char_of_int_eq_byte x c Hxb Hb Hc) as [_ ->].
    exact Hrd.
  - destruct (Hf i ltac:(lia)) as (x & Hx & Hxb & Hxo & Hs).
    exists x. split; [apply lookup_app_l_Some; exact Hx|].
    split; [exact Hxb|]. split; assumption.
Qed.

Lemma push_N h : push h BASE_N = h ++ [BASE_N].
Proof. reflexivity. Qed.

Lemma push_ordinary h c : ordinary c -> push h c = h ++ [c].
Proof.
  intros (H1 & _ & H3 & H4).
  destruct (push_cases h c) as [[_ H] | [-> _]]; [|reflexivity].
  destruct H as [H | [H | H]]; contradiction.
Qed.

Lemma push_end h c : c = EOF \/ c = HEADER_PREFIX -> push h c = h.
Proof. intros [-> | ->]; reflexivity. Qed.

Lemma same_config_ring st st1 ring :
  same_config st st1 -> r_size ring = period st1 ->
  same_config st (set_last_bases st1 ring).
Proof.
  intros (H1 & H2 & H3 & H4) Hsz. unfold same_config, period in *. simpl.
  repeat split; congruence.
Qed.

(** One iteration keeps the machine in its states, keeps the ring fresh
    for the run, and prints only fresh runs. *)
Lemma scanN_body_fresh h s c :
  scanN_ok s -> period (ln_st s) < st_length (ln_st s) -> fresh h s ->
  c = EOF \/ is_byte c ->
  exists evs s' k,
    scanN_body s c = Some (evs, s', k)
    /\ scanN_ok s' /\ same_config (ln_st s) (ln_st s')
    /\ fresh (push h c) s'
    /\ (forall e, In e (entries_of evs) ->
          entry_fresh (period (ln_st s)) h e
          /\ e_chr e = chr (ln_st s) /\ st_length (ln_st s) <= e_n e)
    /\ (k = Break <-> c = EOF \/ c = HEADER_PREFIX).
Proof.
  intros Hok Hlen Hfresh Hc. pose proof Hok as [Hwf Hn].
  pose proof (wf_state_period _ Hwf) as Hper.
  destruct (print_entryN_ok _ (ln_p s) (ln_n s) Hwf Hn)
    as (evs0 & st1 & Hpr & Hwf1 & Hlb & Hl1 & Hiv1 & Hchr1 & _).
  assert (Hcfg1 : same_config (ln_st s) st1).
  { unfold same_config, period. rewrite Hlb. repeat split; assumption. }
  assert (Hent : forall e, In e (entries_of evs0) ->
            entry_fresh (period (ln_st s)) h e
            /\ e_chr e = chr (ln_st s) /\ st_length (ln_st s) <= e_n e).
  { intros e He.
    destruct (print_entryN_fresh h s evs0 st1 Hok Hlen Hfresh Hpr e He)
      as (H1 & H2 & _ & _ & H3). tauto. }
  assert (Hfresh1 : fresh h (LoopN st1 (ln_p s) (ln_n s))).
  { apply (fresh_same_ring h (ln_st s)); [exact Hlb | exact Hfresh]. }
  destruct (ordinary_dec c) as [-> | [-> | [Hend | Hord]]].
  - (* newline *)
    rewrite scanN_body_newline. exists [], s, Continue.
    split; [reflexivity|]. split; [exact Hok|]. split; [apply same_config_refl|].
    split; [exact Hfresh|]. split; [intros e []|].
    split; [discriminate | intros [H | H]; discriminate].
  - (* terminator *)
    rewrite scanN_body_N, Hpr. simpl. do 3 eexists. split; [reflexivity|].
    split; [split; simpl; [exact Hwf1 | lia]|]. split; [exact Hcfg1|].
    split.
    { rewrite push_N. destruct Hfresh as [Hp _]. split; simpl.
      - rewrite length_app. simpl. lia.
      - intros i Hi. lia. }
    split; [exact Hent|].
    split; [discriminate | intros [H | H]; discriminate].
  - (* end of the segment *)
    rewrite (scanN_body_end s c Hend), Hpr. simpl. do 3 eexists.
    split; [reflexivity|].
    split; [split; simpl; [exact Hwf1 | lia]|]. split; [exact Hcfg1|].
    split; [rewrite (push_end h c Hend); exact Hfresh1|].
    split; [exact Hent|]. split; [intros _; exact Hend | reflexivity].
  - (* ordinary symbol *)
    assert (Hb : is_byte c).
    { destruct Hc as [-> | Hc]; [|exact Hc]. destruct Hord as (_ & _ & H & _).
      contradiction. }
    assert (Hbrk : forall k, k = Continue -> (k = Break <-> c = EOF \/ c = HEADER_PREFIX)).
    { intros k ->. destruct Hord as (_ & _ & H3 & H4).
      split; [discriminate | intros [H | H]; contradiction]. }
    rewrite (push_ordinary h c Hord).
    destruct (Z_lt_ge_dec (ln_n s) (period (ln_st s) - 1)) as [Hfill | Hnf].
    + destruct (scanN_body_fill s c Hok Hord Hfill)
        as (ring & Hw & Hwf2 & Hsz & _ & ->).
      do 3 eexists. split; [reflexivity|].
      split; [split; simpl; [exact Hwf2 | lia]|].
      split; [apply same_config_ring; [apply same_config_refl | exact Hsz]|].
      split.
      { apply (fresh_write h (ln_st s) (ln_p s) (ln_n s)); try assumption; lia. }
      split; [intros e []|]. apply Hbrk. reflexivity.
    + destruct (Z.eq_dec (ln_n s) (period (ln_st s) - 1)) as [Hq | Hnq].
      * destruct (scanN_body_boundary s c Hok Hord Hq)
          as (ring & b & Hw & Hwf2 & Hsz & _ & _ & ->).
        do 3 eexists. split; [reflexivity|].
        split; [split; simpl; [exact Hwf2 | destruct b; lia]|].
        split; [apply same_config_ring; [apply same_config_refl | exact Hsz]|].
        split.
        { apply (fresh_write h (ln_st s) (ln_p s) (ln_n s)); try assumption;
            destruct b; lia. }
        split; [intros e []|]. apply Hbrk. reflexivity.
      * destruct (scanN_body_compare s c Hok Hord ltac:(lia))
          as (c0 & Hrd & _ & Hmatch & Hmis).
        destruct (Z.eq_dec c0 c) as [-> | Hne].
        -- rewrite (Hmatch eq_refl). do 3 eexists. split; [reflexivity|].
           split; [split; simpl; [exact Hwf | lia]|].
           split; [apply same_config_refl|].
           split.
           { apply fresh_match; try assumption; lia. }
           split; [intros e []|]. apply Hbrk. reflexivity.
        -- destruct (Hmis Hne)
             as (evs & st1' & ring & b & Hpr' & _ & _ & Hw & Hsz & _ & _ & ->).
           rewrite Hpr in Hpr'. inversion Hpr'; subst evs st1'.
           do 3 eexists. split; [reflexivity|].
           assert (Hring' : wf_ring ring).
           { pose proof Hwf as (Hring & _).
             exact (proj1 (write_ring_wf _ _ _ _ Hring Hw)). }
           split.
           { split; simpl; [|destruct b; lia].
             apply set_last_bases_wf; [exact Hwf1 | exact Hring' |].
             destruct Hcfg1 as (-> & _). exact Hsz. }
           split.
           { apply same_config_ring; [exact Hcfg1|].
             destruct Hcfg1 as (-> & _). exact Hsz. }
           split.
           { apply (fresh_write h st1 (ln_p s) (ln_n s)); try assumption; try lia.
             - rewrite Hlb. exact Hw.
             - destruct b; lia.
             - destruct Hcfg1 as (-> & _). destruct b; lia. }
           split; [|apply Hbrk; reflexivity].
           intros e He. rewrite entries_of_app in He. simpl in He.
           rewrite app_nil_r in He. exact (Hent e He).
Qed.

(** ** The period-N scanning loop: every point of a scan *)

Lemma fgetc_values_ok fp : Forall fgetc_value (fgetc_values fp).
Proof.
  unfold fgetc_values. apply Forall_app. split.
  - induction fp as [|a fp IH]; simpl; constructor; [|exact IH].
    right. apply int_of_ascii_range.
  - constructor; [left; reflexivity | constructor].
Qed.

Lemma symbols_push c cs :
  c <> EOF -> c <> HEADER_PREFIX -> forall h, h ++ symbols (c :: cs) = push h c ++ symbols cs.
Proof.
  intros H1 H2 h. unfold push. simpl.
  destruct (Z.eqb_spec c EOF); [contradiction|].
  destruct (Z.eqb_spec c HEADER_PREFIX); [contradiction|]. simpl.
  destruct (Z.eqb_spec c NEWLINE); simpl; [reflexivity|].
  rewrite <- app_assoc. reflexivity.
Qed.

Lemma symbols_end c cs : c = EOF \/ c = HEADER_PREFIX -> symbols (c :: cs) = [].
Proof. intros [-> | ->]; reflexivity. Qed.

Lemma same_config_trans st1 st2 st3 :
  same_config st1 st2 -> same_config st2 st3 -> same_config st1 st3.
Proof.
  intros (H1 & H2 & H3 & H4) (H1' & H2' & H3' & H4').
  unfold same_config. repeat split; congruence.
Qed.

(** From a fresh state the loop runs without undefined behaviour over
    any values of [fgetc]; it ends in a state of the machine whose ring is
    fresh, and the runs it printed are fresh. *)
Lemma scanN_run_fresh cs : forall h s,
  scanN_ok s -> period (ln_st s) < st_length (ln_st s) -> fresh h s ->
  Forall fgetc_value cs ->
  exists evs s' k,
    scanN_run s cs = Some (evs, s', k)
    /\ scanN_ok s' /\ same_config (ln_st s) (ln_st s')
    /\ fresh (h ++ symbols cs) s'
    /\ (forall e, In e (entries_of evs) ->
          entry_fresh (period (ln_st s)) (h ++ symbols cs) e
          /\ e_chr e = chr (ln_st s) /\ st_length (ln_st s) <= e_n e).
Proof.
  induction cs as [|c cs IH]; intros h s Hok Hlen Hfresh Hcs.
  - exists [], s, Continue. simpl. rewrite app_nil_r.
    split; [reflexivity|]. split; [exact Hok|]. split; [apply same_config_refl|].
    split; [exact Hfresh | intros e []].
  - inversion Hcs as [|c' cs' Hc Hcs']; subst c' cs'.
    destruct (scanN_body_fresh h s c Hok Hlen Hfresh Hc)
      as (evs & s1 & k & Hbody & Hok1 & Hcfg1 & Hfresh1 & Hent1 & Hbrk).
    remember (symbols (c :: cs)) as sy eqn:Hsy.
    simpl. rewrite Hbody. simpl. subst sy. destruct k.
    + assert (Hne : c <> EOF /\ c <> HEADER_PREFIX).
      { split; intros ->; assert (Continue = Break) by (apply Hbrk; tauto);
          discriminate. }
      destruct Hne as [Hne1 Hne2].
      pose proof Hcfg1 as (Hper1 & Hlen1 & _ & Hchr1).
      destruct (IH (push h c) s1 Hok1 ltac:(rewrite Hper1, Hlen1; exact Hlen) Hfresh1 Hcs')
        as (evs' & s2 & k' & Hrun & Hok2 & Hcfg2 & Hfresh2 & Hent2).
      rewrite Hrun. simpl. do 3 eexists. split; [reflexivity|].
      split; [exact Hok2|]. split; [exact (same_config_trans _ _ _ Hcfg1 Hcfg2)|].
      pose proof (symbols_push c cs Hne1 Hne2 h) as Hsym. simpl in Hsym.
      rewrite Hsym.
      split; [exact Hfresh2|].
      intros e He. rewrite entries_of_app in He. apply in_app_or in He as [He | He].
      * destruct (Hent1 e He) as (H1 & H2 & H3).
        split; [|tauto]. apply entry_fresh_app, entry_fresh_push. exact H1.
      * destruct (Hent2 e He) as (H1 & H2 & H3).
        rewrite Hper1, Hchr1, Hlen1 in *. tauto.
    + assert (Hend : c = EOF \/ c = HEADER_PREFIX) by (apply Hbrk; reflexivity).
      do 3 eexists. split; [reflexivity|]. split; [exact Hok1|].
      split; [exact Hcfg1|].
      rewrite (symbols_end c cs Hend), app_nil_r.
      rewrite (push_end h c Hend) in Hfresh1. split; [exact Hfresh1 | exact Hent1].
Qed.

(** [scan_seqN] is such a run, on the values [fgetc] returns on the file,
    and it ends by a break. *)
Lemma scanN_loop_run fp : forall s evs st' rest,
  scanN_loop s fp = Some (evs, st', rest) ->
  exists s', scanN_run s (fgetc_values fp) = Some (evs, s', Break) /\ st' = ln_st s'.
Proof.
  induction fp as [|a fp IH]; intros s evs st' rest H; simpl in H.
  - unfold fgetc_values. simpl. rewrite (scanN_body_end s EOF (or_introl eq_refl)) in *.
    destruct (print_entryN (ln_st s) (ln_p s) (ln_n s)) as [[evs0 st0]|]; simpl in *;
      [|discriminate].
    inversion H; subst. eexists. split; reflexivity.
  - unfold fgetc_values. simpl.
    destruct (scanN_body s (int_of_ascii a)) as [[[evs1 s1] k]|]; simpl in *;
      [|discriminate].
    destruct k.
    + destruct (scanN_loop s1 fp) as [[[evs2 st2] rest2]|] eqn:Hloop; simpl in H;
        [|discriminate].
      inversion H; subst. destruct (IH _ _ _ _ Hloop) as (s' & Hrun & ->).
      unfold fgetc_values in Hrun. rewrite Hrun. simpl. eexists. split; reflexivity.
    + inversion H; subst. eexists. split; reflexivity.
Qed.

Lemma scanN_run_loop fp : forall s evs s' k,
  scanN_run s (fgetc_values fp) = Some (evs, s', k) ->
  exists rest, scanN_loop s fp = Some (evs, ln_st s', rest).
Proof.
  induction fp as [|a fp IH]; intros s evs s' k H; unfold fgetc_values in H; simpl in H.
  - simpl. rewrite (scanN_body_end s EOF (or_introl eq_refl)) in *.
    destruct (print_entryN (ln_st s) (ln_p s) (ln_n s)) as [[evs0 st0]|]; simpl in *;
      [|discriminate].
    inversion H; subst. eexists. reflexivity.
  - simpl. destruct (scanN_body s (int_of_ascii a)) as [[[evs1 s1] k1]|]; simpl in *;
      [|discriminate].
    destruct k1.
    + destruct (scanN_run s1 (map int_of_ascii (list_ascii_of_string fp) ++ [EOF]))
        as [[[evs2 s2] k2]|] eqn:Hrun; simpl in H; [|discriminate].
      inversion H; subst. destruct (IH _ _ _ _ Hrun) as (rest & ->).
      simpl. eexists. reflexivity.
    + inversion H; subst. eexists. reflexivity.
Qed.

Lemma fresh_init h st : h = [] -> fresh h (LoopN st 0 0).
Proof. intros ->. split; simpl; [reflexivity | intros i Hi; lia]. Qed.

(** [scan_seqN] returns, whatever the file and whatever the ring holds
    at the start, leaves a well-formed state with the same
    configuration, and prints fresh runs only. *)
Lemma scan_seqN_fresh fp st :
  wf_state st -> period st < st_length st ->
  exists evs st' rest,
    scan_seqN fp st = Some (evs, st', rest)
    /\ wf_state st' /\ same_config st st'
    /\ (forall e, In e (entries_of evs) ->
          entry_fresh (period st) (symbols (fgetc_values fp)) e
          /\ e_chr e = chr st /\ st_length st <= e_n e).
Proof.
  intros Hwf Hlen.
  destruct (scanN_run_fresh (fgetc_values fp) [] (LoopN st 0 0)
              (scanN_ok_init st Hwf) Hlen (fresh_init [] st eq_refl) (fgetc_values_ok fp))
    as (evs & s' & k & Hrun & Hok & Hcfg & _ & Hent).
  destruct (scanN_run_loop fp _ _ _ _ Hrun) as (rest & Hloop).
  exists evs, (ln_st s'), rest. split; [exact Hloop|].
  split; [exact (proj1 Hok)|]. split; [exact Hcfg | exact Hent].
Qed.

(** C10.  Start [scan_seqN] in any well-formed state whose threshold
    exceeds its period (as [read_fasta] ensures), whatever the ring
    holds, from uninitialised memory or from the previous segment.  At
    every point of the scan, that is after any number of iterations on the
    values [fgetc] returns, with [p] symbols consumed and run length [n]:
    each of the last [min n period] positions holds an ordinary symbol,
    and the ring slot of that position modulo [period] holds exactly that
    symbol (as the [char] it is stored in, which is the symbol itself for
    an ASCII symbol); hence in the comparison phase the slot read for
    position [p] holds the symbol of position [p - period], a symbol of
    the current run; and every run printed so far lies in the segment,
    consists of ordinary symbols only (no terminator in it), is longer
    than the period, and its unit is made of the symbols at the first
    [period] positions of that run.  The same holds for all that a
    complete [scan_seqN] prints, and [scan_seqN] always returns. *)
Theorem buffer_freshness (st : SeqState) :
  wf_state st -> period st < st_length st ->
  (forall cs, Forall fgetc_value cs ->
     exists evs s k,
       scanN_run (LoopN st 0 0) cs = Some (evs, s, k)
       /\ ln_p s = Z.of_nat (length (symbols cs))
       /\ 0 <= ln_n s <= ln_p s
       /\ (forall i, ln_p s - Z.min (ln_n s) (period st) <= i < ln_p s ->
             exists x,
               symbols cs !! Z.to_nat i = Some x /\ ordinary x
               /\ r_elements (last_bases (ln_st s)) !! Z.to_nat (i mod period st)
                  = Some (char_of_int x)
               /\ (x < 128 -> char_of_int x = x))
       /\ (period st <= ln_n s ->
             exists x,
               symbols cs !! Z.to_nat (ln_p s - period st) = Some x /\ ordinary x
               /\ read_ring (last_bases (ln_st s)) (ln_p s) = Some (char_of_int x))
       /\ (forall e, In e (entries_of evs) ->
             entry_fresh (period st) (symbols cs) e))
  /\ (forall fp,
        exists evs st' rest,
          scan_seqN fp st = Some (evs, st', rest)
          /\ forall e, In e (entries_of evs) ->
               entry_fresh (period st) (symbols (fgetc_values fp)) e).
Proof.
  intros Hwf Hlen. split.
  - intros cs Hcs.
    destruct (scanN_run_fresh cs [] (LoopN st 0 0)
                (scanN_ok_init st Hwf) Hlen (fresh_init [] st eq_refl) Hcs)
      as (evs & s & k & Hrun & [Hwf' Hn] & (Hper & _) & [Hp Hf] & Hent).
    simpl in *. exists evs, s, k. split; [exact Hrun|]. split; [exact Hp|].
    split; [exact Hn|]. rewrite Hper in Hf.
    pose proof (wf_state_period _ Hwf) as Hr.
    split.
    { intros i Hi. destruct (Hf i ltac:(lia)) as (x & Hx & Hb & Ho & Hs).
      exists x. split; [exact Hx|]. split; [exact Ho|]. split; [exact Hs|].
      intros Hlt. apply char_of_int_id. unfold is_byte in Hb. lia. }
    split.
    { intros Hge. destruct (Hf (ln_p s - period st) ltac:(lia)) as (x & Hx & _ & Ho & Hs).
      exists x. split; [exact Hx|]. split; [exact Ho|].
      pose proof Hwf' as (Hring & _).
      rewrite read_ring_nonneg by (assumption || lia).
      unfold period in Hper. rewrite Hper. fold (period st). rewrite <- Hs.
      f_equal. f_equal.
      replace (ln_p s - period st) with (ln_p s + (-1) * period st) by lia.
      rewrite Z_mod_plus_full. reflexivity. }
    intros e He. exact (proj1 (Hent e He)).
  - intros fp. destruct (scan_seqN_fresh fp st Hwf Hlen)
      as (evs & st' & rest & Hscan & _ & _ & Hent).
    exists evs, st', rest. split; [exact Hscan|].
    intros e He. exact (proj1 (Hent e He)).
Qed.

Lemma buffer_freshness_witness :
  exists evs st' rest,
    scan_seqN "ATATATG" example_state2 = Some (evs, st', rest)
    /\ forall e, In e (entries_of evs) ->
         entry_fresh (period example_state2) (symbols (fgetc_values "ATATATG")) e.
Proof.
  destruct (buffer_freshness example_state2) as [_ H].
  - exact example_state2_wf.
  - unfold period. simpl. lia.
  - exact (H "ATATATG"%string).
Defined.

(** ** The homopolymer scanning loop *)

Lemma homopolymer_run_app hh t e :
  homopolymer_run hh e -> e_p e < Z.of_nat (length hh) -> homopolymer_run (hh ++ t) e.
Proof.
  intros (b & Hu & HN & Hn1 & H0 & Hp & Hall & Hleft & Hright) Hlt.
  exists b. split; [exact Hu|]. split; [exact HN|]. split; [exact Hn1|].
  split; [exact H0|].
  rewrite length_app. split; [lia|]. split; [|split].
  - intros i Hi. apply lookup_app_l_Some. apply Hall. exact Hi.
  - intros H. destruct (Hleft H) as (y & Hy & Hne). exists y.
    split; [|exact Hne]. apply lookup_app_l_Some. exact Hy.
  - intros z Hz. apply Hright. rewrite lookup_app_l in Hz by lia. exact Hz.
Qed.

Lemma fresh1_init : fresh1 [] (Loop1 BASE_N 0 1).
Proof.
  unfold fresh1, BASE_N, HEADER_PREFIX. simpl.
  split; [reflexivity|]. split; [lia|]. split; [lia|].
  split; [intros i x H; rewrite lookup_nil in H; discriminate|].
  split; [reflexivity|]. split; [lia | intros i H1 H2; lia].
Qed.

Lemma lookup_snoc_last (h : list Z) c p :
  p = Z.of_nat (length h) -> (h ++ [c]) !! Z.to_nat p = Some c.
Proof. intros ->. rewrite Nat2Z.id. apply list_lookup_middle. reflexivity. Qed.

Lemma lookup_snoc_old (h : list Z) c i x :
  h !! i = Some x -> (h ++ [c]) !! i = Some x.
Proof. apply lookup_app_l_Some. Qed.

Lemma is_byte_snoc (h : list Z) c :
  (forall (i : nat) x, h !! i = Some x -> is_byte x) -> is_byte c ->
  forall (i : nat) x, (h ++ [c]) !! i = Some x -> is_byte x.
Proof.
  intros Hh Hc i x H. apply lookup_app_Some in H as [H | [_ H]].
  - exact (Hh i x H).
  - destruct (i - length h)%nat; simpl in H; [|discriminate].
    inversion H; subst. exact Hc.
Qed.

(** A symbol equal to [last] extends the run. *)
Lemma fresh1_match h s c :
  fresh1 h s -> is_byte c -> c = l1_last s ->
  fresh1 (h ++ [c]) (Loop1 (l1_last s) (l1_p s + 1) (l1_n s + 1)).
Proof.
  intros (Hp & Hn & Hl & Hb & Hsent & Hfirst & Hrest) Hc Heq. cbv zeta in *.
  unfold fresh1. simpl.
  split; [rewrite length_app; simpl; lia|]. split; [lia|]. split; [exact Hl|].
  split; [apply is_byte_snoc; assumption|].
  split; [intros H; apply Hsent; lia|]. split.
  - intros H. destruct (Hfirst ltac:(lia)) as (x & Hx & Hcx & Hleft).
    replace (l1_p s + 1 - (l1_n s + 1)) with (l1_p s - l1_n s) by lia.
    exists x. split; [apply lookup_snoc_old; exact Hx|]. split; [exact Hcx|].
    intros H1. destruct (Hleft H1) as (y & Hy & Hne). exists y.
    split; [apply lookup_snoc_old; exact Hy | exact Hne].
  - intros i Hi0 Hi. destruct (Z.eq_dec i (l1_p s)) as [-> | Hne].
    + rewrite (lookup_snoc_last h c _ Hp). congruence.
    + apply lookup_snoc_old. apply Hrest; lia.
Qed.

(** The latest symbol, as a [char], is [last]. *)
Lemma fresh1_latest h s :
  fresh1 h s -> 1 <= l1_p s ->
  exists y, h !! Z.to_nat (l1_p s - 1) = Some y /\ is_byte y /\ char_of_int y = l1_last s.
Proof.
  intros (Hp & Hn & Hl & Hb & Hsent & Hfirst & Hrest) H1. cbv zeta in *.
  destruct (Z.eq_dec (l1_n s) 1) as [Hn1 | Hn1].
  - destruct (Hfirst ltac:(lia)) as (x & Hx & Hcx & _). rewrite Hn1 in Hx.
    exists x. split; [exact Hx|]. split; [exact (Hb _ _ Hx) | exact Hcx].
  - pose proof (Hrest (l1_p s - 1) ltac:(lia) ltac:(lia)) as Hx.
    exists (l1_last s). split; [exact Hx|]. split; [exact (Hb _ _ Hx)|].
    apply char_of_int_id. exact (proj1 Hl).
Qed.

(** A symbol that differs from [last] starts a run of length 1. *)
Lemma fresh1_change h s c :
  fresh1 h s -> is_byte c -> c <> l1_last s -> c <> HEADER_PREFIX ->
  fresh1 (h ++ [c]) (Loop1 (char_of_int c) (l1_p s + 1) 1).
Proof.
  intros Hf Hc Hne Hnh. pose proof Hf as (Hp & Hn & Hl & Hb & Hsent & Hfirst & Hrest).
  cbv zeta in *. unfold fresh1. simpl.
  split; [rewrite length_app; simpl; lia|]. split; [lia|].
  split.
  { split; [apply char_of_int_range|]. intros H. apply Hnh.
    apply (char_of_int_eq_byte c HEADER_PREFIX Hc); [unfold HEADER_PREFIX; lia | exact H]. }
  split; [apply is_byte_snoc; assumption|].
  split; [intros H; lia|]. split; [|intros i H1 H2; lia].
  intros _. replace (l1_p s + 1 - 1) with (l1_p s) by lia.
  exists c. split; [apply lookup_snoc_last; exact Hp|]. split; [reflexivity|].
  intros H1. destruct (fresh1_latest h s Hf H1) as (y & Hy & _ & Hcy).
  exists y. split; [apply lookup_snoc_old; exact Hy|]. congruence.
Qed.

(** The run that a step prints is a maximal homopolymer run of the
    symbols consumed, the incoming one included. *)
Lemma fresh1_entry chr0 len h s c hh :
  2 <= len -> fresh1 h s -> c <> l1_last s ->
  len <= l1_n s -> l1_last s <> BASE_N ->
  (hh = h \/ hh = h ++ [c]) ->
  homopolymer_run hh (Entry chr0 (l1_p s) (l1_n s) [l1_last s; NUL]).
Proof.
  intros Hlen (Hp & Hn & Hl & Hb & Hsent & Hfirst & Hrest) Hne Hge HN Hhh.
  cbv zeta in *.
  assert (Hnp : l1_n s <= l1_p s).
  { destruct (Z_le_gt_dec (l1_n s) (l1_p s)); [assumption|].
    exfalso. apply HN, Hsent. lia. }
  destruct (Hfirst Hnp) as (x & Hx & Hcx & Hleft).
  pose proof (Hrest (l1_p s - l1_n s + 1) ltac:(lia) ltac:(lia)) as Hsecond.
  pose proof (Hb _ _ Hsecond) as Hlb.
  destruct (char_of_int_eq_byte x (l1_last s) (Hb _ _ Hx) Hlb Hcx) as [Hxl _].
  subst x.
  assert (Hold : forall i v, h !! i = Some v -> hh !! i = Some v).
  { intros i v H. destruct Hhh as [-> | ->]; [exact H | apply lookup_snoc_old; exact H]. }
  exists (l1_last s). simpl.
  split; [reflexivity|]. split; [exact HN|]. split; [lia|]. split; [lia|]. split.
  { destruct Hhh as [-> | ->]; [lia | rewrite length_app; simpl; lia]. }
  split; [|split].
  - intros i Hi. apply Hold.
    destruct (Z.eq_dec i (l1_p s - l1_n s)) as [-> | Hi'];
      [exact Hx | apply Hrest; lia].
  - intros H1. destruct (Hleft H1) as (y & Hy & Hyne). exists y.
    split; [apply Hold; exact Hy|]. intros ->. apply Hyne.
    symmetry. apply char_of_int_id. exact (proj1 Hl).
  - intros z Hz. destruct Hhh as [-> | ->].
    + rewrite lookup_ge_None_2 in Hz by lia. discriminate.
    + rewrite (lookup_snoc_last h c _ Hp) in Hz. congruence.
Qed.

Lemma scan1_entries_emit es r :
  scan1_entries (scan1_emit es r) = es ++ scan1_entries r.
Proof. destruct r; reflexivity. Qed.

(** Everything [scan_seq1] prints, from a state that fits the symbols
    consumed, is a maximal homopolymer run of the segment. *)
Lemma scan1_loop_fresh chr0 len fp :
  2 <= len ->
  forall h s, fresh1 h s ->
  forall e, In e (scan1_entries (scan1_loop chr0 len s fp)) ->
    homopolymer_run (h ++ symbols (fgetc_values fp)) e
    /\ e_chr e = chr0 /\ len <= e_n e.
Proof.
  intros Hlen. induction fp as [|a fp IH]; intros h s Hf e He.
  - (* end of the file *)
    unfold fgetc_values in *. simpl in *. rewrite app_nil_r.
    unfold scan1_body in He. change (EOF =? NEWLINE) with false in He. cbv iota in He.
    destruct (Z.eqb_spec EOF (l1_last s)) as [Heq | Hne]; [destruct He|].
    rewrite Z.eqb_refl in He. simpl in He.
    destruct (Z.leb_spec len (l1_n s)) as [Hge | Hlt]; [|destruct He].
    destruct (Z.eqb_spec (l1_last s) BASE_N) as [HN | HN]; [destruct He|].
    simpl in He. destruct He as [<- | []]. simpl.
    split; [|split; [reflexivity | exact Hge]].
    apply (fresh1_entry chr0 len h s EOF); try assumption. left. reflexivity.
  - (* a character of the file *)
    pose proof (int_of_ascii_range a) as Hb.
    set (c := int_of_ascii a) in *.
    assert (Hvals : fgetc_values (String a fp) = c :: fgetc_values fp) by reflexivity.
    rewrite Hvals. simpl scan1_loop in He. fold c in He.
    unfold scan1_body in He.
    destruct (Z.eqb_spec c NEWLINE) as [Hnl | Hnl].
    { rewrite scan1_entries_emit in He. simpl in He.
      replace (symbols (c :: fgetc_values fp)) with (symbols (fgetc_values fp)).
      - exact (IH h s Hf e He).
      - simpl. rewrite Hnl. reflexivity. }
    assert (Heof : c <> EOF) by (unfold EOF; lia).
    destruct (Z.eqb_spec c (l1_last s)) as [Hm | Hm].
    { rewrite scan1_entries_emit in He. simpl in He.
      assert (Hnh : c <> HEADER_PREFIX).
      { destruct Hf as (_ & _ & (_ & H) & _). cbv zeta in H. congruence. }
      replace (h ++ symbols (c :: fgetc_values fp))
        with ((h ++ [c]) ++ symbols (fgetc_values fp)).
      - apply (IH (h ++ [c]) _ (fresh1_match h s c Hf Hb Hm) e He).
      - rewrite <- app_assoc. simpl.
        destruct (Z.eqb_spec c EOF); [contradiction|].
        destruct (Z.eqb_spec c HEADER_PREFIX); [contradiction|].
        destruct (Z.eqb_spec c NEWLINE); [contradiction|]. reflexivity. }
    cbv zeta in He.
    assert (Hgate : forall e0 hh,
              In e0 (if (len <=? l1_n s) && negb (l1_last s =? BASE_N)
                     then [Entry chr0 (l1_p s) (l1_n s) [l1_last s; NUL]] else []) ->
              hh = h \/ hh = h ++ [c] ->
              homopolymer_run hh e0 /\ e_chr e0 = chr0 /\ len <= e_n e0
              /\ e_p e0 = l1_p s).
    { intros e0 hh He0 Hhh.
      destruct (Z.leb_spec len (l1_n s)) as [Hge | Hlt]; [|destruct He0].
      destruct (Z.eqb_spec (l1_last s) BASE_N) as [HN | HN]; [destruct He0|].
      simpl in He0. destruct He0 as [<- | []]. simpl.
      split; [|repeat split; assumption].
      apply (fresh1_entry chr0 len h s c); assumption. }
    destruct (Z.eqb_spec c EOF); [contradiction|].
    destruct (Z.eqb_spec c HEADER_PREFIX) as [Hh | Hh]; simpl in He.
    + replace (symbols (c :: fgetc_values fp)) with (@nil Z)
        by (simpl; rewrite Hh; reflexivity).
      rewrite app_nil_r. destruct (Hgate e h He (or_introl eq_refl)) as (H1 & H2 & H3 & _).
      tauto.
    + rewrite scan1_entries_emit in He.
      assert (Hsym : h ++ symbols (c :: fgetc_values fp)
                     = (h ++ [c]) ++ symbols (fgetc_values fp)).
      { rewrite <- app_assoc. simpl.
        destruct (Z.eqb_spec c EOF); [contradiction|].
        destruct (Z.eqb_spec c HEADER_PREFIX); [contradiction|].
        destruct (Z.eqb_spec c NEWLINE); [contradiction|]. reflexivity. }
      rewrite Hsym. apply in_app_or in He as [He | He].
      * destruct (Hgate e (h ++ [c]) He (or_intror eq_refl)) as (H1 & H2 & H3 & H4).
        split; [|tauto]. apply homopolymer_run_app; [exact H1|].
        destruct Hf as (Hp & _). cbv zeta in Hp.
        rewrite H4, length_app. simpl. lia.
      * exact (IH (h ++ [c]) _ (fresh1_change h s c Hf Hb Hm Hh) e He).
Qed.

(** C7.  Every record the homopolymer machine prints for a segment, with
    a threshold of at least 2 (as [read_fasta] ensures for period 1),
    also when the machine does not return: the unit is a single symbol
    [b] that is not the terminator; the run of [n] symbols that ends at
    [p] lies in the segment and holds [b] at every position; the symbol
    just before the run, when the run does not start the segment, and the
    symbol just after it, when the run does not end the segment, differ
    from [b]; and [n] is at least the threshold. *)
Theorem homopolymer_postcondition (chr0 : string) (len : Z) (fp : string) (e : entry) :
  2 <= len ->
  In e (scan1_entries (scan_seq1 fp chr0 len)) ->
  let hh := symbols (fgetc_values fp) in
  len <= e_n e
  /\ exists b,
       e_unit e = [b; NUL] /\ b <> BASE_N
       /\ 0 <= e_p e - e_n e /\ e_p e <= Z.of_nat (length hh)
       /\ (forall i, e_p e - e_n e <= i < e_p e -> hh !! Z.to_nat i = Some b)
       /\ (1 <= e_p e - e_n e ->
             exists y, hh !! Z.to_nat (e_p e - e_n e - 1) = Some y /\ y <> b)
       /\ (forall z, hh !! Z.to_nat (e_p e) = Some z -> z <> b).
Proof.
  intros Hlen He hh.
  destruct (scan1_loop_fresh chr0 len fp Hlen [] _ fresh1_init e He)
    as ((b & Hu & HN & _ & H0 & Hp & Hall & Hleft & Hright) & _ & Hge).
  split; [exact Hge|]. exists b. simpl in *. repeat (split; [assumption|]).
  exact Hright.
Qed.

Lemma homopolymer_postcondition_witness :
  let e := Entry "chr1" 5 4 [65; NUL] in
  scan_seq1 "TAAAANAAA" "chr1" 4 = Scan1Returns [e] EmptyString
  /\ exists b,
       e_unit e = [b; NUL] /\ b <> BASE_N
       /\ (forall i, 1 <= i < 5 ->
             symbols (fgetc_values "TAAAANAAA") !! Z.to_nat i = Some b).
Proof.
  intros e. split; [reflexivity|].
  destruct (homopolymer_postcondition "chr1" 4 "TAAAANAAA" e) as (_ & b & Hu & HN & _ & _ & Hall & _).
  - lia.
  - left. reflexivity.
  - exists b. split; [exact Hu|]. split; [exact HN|]. exact Hall.
Defined.

(** ** The FASTA parser and the output *)

Lemma append_assoc (s1 s2 s3 : string) :
  ((s1 ++ s2) ++ s3 = s1 ++ (s2 ++ s3))%string.
Proof. induction s1 as [|a s1 IH]; simpl; [reflexivity | rewrite IH; reflexivity]. Qed.



Lemma set_chr_wf st s : wf_state st -> wf_state (set_chr st s).
Proof. intros H. exact H. Qed.

(** [fscanf] with [%31s] returns 1 or [EOF], so [parse_header] never
    takes its error exit. *)
Lemma parse_header_returns fp chr0 :
  exists c chr' fp', parse_header fp chr0 = HeaderReturns c chr' fp'.
Proof.
  unfold parse_header, fscanf_s31.
  destruct (skip_space fp) as [|a fp1].
  - simpl. eexists _, _, _. reflexivity.
  - destruct (read_word 31 (String a fp1)) as [w rest]. simpl.
    destruct (seek_char rest NEWLINE) as [c' fp'']. eexists _, _, _. reflexivity.
Qed.

(** What a returning run of the chromosome loop adds to the standard
    output: the lines of the calls of [print_entry], each for a run no
    shorter than the threshold. *)
Lemma seek_char_cons a fp t :
  seek_char (String a fp) t
  = if char_of_int t =? int_of_ascii a then (int_of_ascii a, fp) else seek_char fp t.
Proof. reflexivity. Qed.





Lemma init_scanner_ok chr0 rep len g1 g2 st :
  rep < len -> init_seq_state chr0 rep len g1 g2 = InitOk st ->
  scanner_ok (Some st) len.
Proof.
  intros Hlen H. destruct (init_seq_state_wf _ _ _ _ _ _ H) as (Hwf & Hper & Hl & _).
  simpl. rewrite Hper, Hl. split; [exact Hwf | split; [exact Hlen | reflexivity]].
Qed.


Lemma example_run :
  read_fasta example_garbage (Some example_file) 1 3 = Returned 0 example_world.
Proof. vm_compute. reflexivity. Qed.



(** The start position of a long run: [print_entry] takes the run length
    as a [char], so for a run of 200 symbols that ends at 200 it prints
    the start 256 where the run starts at 0. *)
Lemma long_run_start_wraps :
  exists evs st',
    scan_seqN (repeat_string 100 "AT") example_state2 = Some (evs, st', EmptyString)
    /\ entries_of evs = [Entry "chr1" 200 200 [65; 84; 0]]
    /\ print_entry (Entry "chr1" 200 200 [65; 84; 0])
     = ("chr1" ++ tab ++ "256" ++ tab ++ "200" ++ tab ++ "unit=AT" ++ nl)%string.
Proof. do 2 eexists. split; [|split]; vm_compute; reflexivity. Qed.

(** ** Termination of the chromosome loop *)

Lemma seek_char_length fp t c fp' :
  seek_char fp t = (c, fp') ->
  (String.length fp' <= String.length fp)%nat
  /\ (c <> EOF -> (String.length fp' < String.length fp)%nat).
Proof.
  revert c fp'. induction fp as [|a fp IH]; intros c fp' H; simpl in H.
  - inversion H; subst. split; [lia | intros Hc; contradiction].
  - destruct (char_of_int t =? int_of_ascii a).
    + inversion H; subst. simpl. split; intros; lia.
    + destruct (IH _ _ H) as [H1 H2]. simpl. split; [lia|].
      intros Hc. specialize (H2 Hc). lia.
Qed.

Lemma skip_space_length fp : (String.length (skip_space fp) <= String.length fp)%nat.
Proof.
  induction fp as [|a fp IH]; simpl; [lia|].
  destruct (isspace a); simpl; lia.
Qed.

Lemma read_word_length k : forall fp w rest,
  read_word k fp = (w, rest) -> (String.length rest <= String.length fp)%nat.
Proof.
  induction k as [|k IH]; intros fp w rest H; simpl in H.
  - inversion H; subst. lia.
  - destruct fp as [|a fp]; [inversion H; subst; lia|].
    destruct (isspace a); [inversion H; subst; lia|].
    destruct (read_word k fp) as [w' rest'] eqn:Hrw. inversion H; subst.
    specialize (IH _ _ _ Hrw). simpl. lia.
Qed.

Lemma parse_header_length fp chr0 c chr' fp' :
  parse_header fp chr0 = HeaderReturns c chr' fp' ->
  c <> EOF -> (String.length fp' < String.length fp)%nat.
Proof.
  unfold parse_header, fscanf_s31. intros H Hc.
  pose proof (skip_space_length fp) as Hs.
  destruct (skip_space fp) as [|a fp1].
  - simpl in H. inversion H; subst. contradiction.
  - destruct (read_word 31 (String a fp1)) as [w rest] eqn:Hrw. simpl in H.
    destruct (seek_char rest NEWLINE) as [c' fp''] eqn:Hsk. inversion H; subst.
    pose proof (read_word_length _ _ _ _ Hrw) as Hr.
    destruct (seek_char_length _ _ _ _ Hsk) as [_ Hlt]. specialize (Hlt Hc). lia.
Qed.

Lemma scanN_loop_length fp : forall s evs st' rest,
  scanN_loop s fp = Some (evs, st', rest) ->
  (String.length rest <= String.length fp)%nat.
Proof.
  induction fp as [|a fp IH]; intros s evs st' rest H; simpl in H.
  - destruct (scanN_body s EOF) as [[[evs0 s0] k]|]; simpl in H; [|discriminate].
    inversion H; subst. lia.
  - destruct (scanN_body s (int_of_ascii a)) as [[[evs0 s0] k]|]; simpl in H;
      [|discriminate].
    destruct k.
    + destruct (scanN_loop s0 fp) as [[[evs1 st1] rest1]|] eqn:Hl; simpl in H;
        [|discriminate].
      inversion H; subst. specialize (IH _ _ _ _ Hl). simpl. lia.
    + inversion H; subst. simpl. lia.
Qed.

Lemma scan1_loop_length chr0 len fp : forall s es rest,
  scan1_loop chr0 len s fp = Scan1Returns es rest ->
  (String.length rest <= String.length fp)%nat.
Proof.
  induction fp as [|a fp IH]; intros s es rest H; simpl in H.
  - destruct (scan1_body chr0 len s EOF) as [[es0 s0] k]. destruct k; [discriminate|].
    inversion H; subst. lia.
  - destruct (scan1_body chr0 len s (int_of_ascii a)) as [[es0 s0] k]. destruct k.
    + destruct (scan1_loop chr0 len s0 fp) as [es1 rest1|es1] eqn:Hl; simpl in H;
        [|discriminate].
      inversion H; subst. specialize (IH _ _ _ Hl). simpl. lia.
    + inversion H; subst. simpl. lia.
Qed.

(** The fuel is enough: with more fuel than characters left, the
    chromosome loop returns 0, unless [scan_seq1] hangs. *)
Lemma parse_chromosomes_fuel fuel : forall st len chr0 out err fp,
  scanner_ok st len -> (String.length fp < fuel)%nat ->
  (exists w, parse_chromosomes fuel st len chr0 out err fp = Returned 0 w)
  \/ st = None /\ parse_chromosomes fuel st len chr0 out err fp = Hangs.
Proof.
  induction fuel as [|fuel IH]; intros st len chr0 out err fp Hok Hfuel; [lia|].
  simpl. destruct (parse_header_returns fp chr0) as (c & chr' & fp' & Hph).
  rewrite Hph. destruct (Z.eqb_spec c EOF) as [Hc | Hc]; [left; eexists; reflexivity|].
  pose proof (parse_header_length _ _ _ _ _ Hph Hc) as Hlt.
  destruct st as [st0|].
  - destruct Hok as (Hwf & Hlen & Hthr).
    destruct (scan_seqN_fresh fp' (set_chr st0 chr') (set_chr_wf st0 chr' Hwf) Hlen)
      as (evs & st' & rest & Hscan & Hwf' & (Hper & Hl & _) & _).
    rewrite Hscan.
    assert (Hok' : scanner_ok (Some st') len).
    { simpl in *. unfold period in *. simpl in *. split; [exact Hwf'|]. lia. }
    pose proof (scanN_loop_length _ _ _ _ _ Hscan) as Hr.
    destruct (IH (Some st') len chr' (out ++ print_entries (entries_of evs))%string
                (err ++ "Parsing chromosome " ++ c_string (chars_of chr') ++ nl)%string
                rest Hok' ltac:(lia)) as [Hret | [Hcontra _]].
    + left. exact Hret.
    + discriminate.
  - destruct (scan_seq1 fp' chr' len) as [es fp''|es] eqn:Hscan;
      [|right; split; reflexivity].
    pose proof (scan1_loop_length _ _ _ _ _ _ Hscan) as Hr.
    apply IH; [exact Hok | lia].
Qed.

(** For a valid configuration and a readable file, [read_fasta] has no
    undefined behaviour, does not run out of fuel and takes no error
    exit: it returns 0, unless [scan_seq1] hangs. *)
Lemma read_fasta_fuel g f rep len :
  1 <= rep <= 4 -> rep < len ->
  (exists w, read_fasta g (Some f) rep len = Returned 0 w)
  \/ rep = 1 /\ read_fasta g (Some f) rep len = Hangs.
Proof.
  intros Hrep Hlen. unfold read_fasta.
  destruct (Z.leb_spec len rep); [lia|]. destruct (Z.ltb_spec 4 rep); [lia|].
  destruct (seek_char f HEADER_PREFIX) as [c0 f1].
  destruct (Z.eqb_spec rep 1) as [-> | Hne]; cbv beta iota zeta delta [negb].
  - destruct (parse_chromosomes_fuel (S (String.length f1)) None len (g_chr g)
                ("#repeat_length: " ++ dec 1 ++ nl ++ "#total_length: " ++ dec len ++ nl)
                ("Finding homopolymers >=" ++ dec len ++ "bp" ++ nl) f1
                ltac:(simpl; lia) ltac:(lia)) as [Hret | [_ Hh]].
    + left. exact Hret.
    + right. split; [reflexivity | exact Hh].
  - destruct (init_seq_state_ok (g_chr g) rep len (g_elements g) (g_unit_buffer g)
                ltac:(lia)) as [st Hinit].
    rewrite Hinit.
    destruct (parse_chromosomes_fuel (S (String.length f1)) (Some st) len (g_chr g)
                ("#repeat_length: " ++ dec rep ++ nl ++ "#total_length: " ++ dec len ++ nl)
                ("Finding polynuc repeats >=" ++ dec rep ++ "bp with unit size "
                 ++ dec len ++ "bp" ++ nl) f1
                (init_scanner_ok (g_chr g) rep len _ _ st Hlen Hinit) ltac:(lia))
      as [Hret | [Hcontra _]].
    + left. exact Hret.
    + discriminate.
Qed.

(** ** When the homopolymer loop does not return *)

(** An iteration that continues on [EOF] leaves a state on which the next
    iteration continues on [EOF] too, and prints nothing: the loop goes on
    for ever. *)
Lemma scan1_body_EOF_continue chr0 len s es s' :
  scan1_body chr0 len s EOF = (es, s', Continue) ->
  es = [] /\ l1_last s' = l1_last s
  /\ scan1_body chr0 len s' EOF
     = ([], Loop1 (l1_last s') (l1_p s' + 1) (l1_n s' + 1), Continue).
Proof.
  unfold scan1_body. change (EOF =? NEWLINE) with false. cbv iota.
  destruct (Z.eqb_spec EOF (l1_last s)) as [Heq | Hne].
  - intros H. inversion H; subst. simpl. rewrite <- Heq.
    split; [reflexivity|]. split; reflexivity.
  - simpl. discriminate.
Qed.

(** That happens only after the byte 255, which a signed [char] holds as
    -1, the value of [EOF]: on a file without it [scan_seq1] returns. *)
Lemma scan1_loop_returns chr0 len fp :
  (forall a, In a (list_ascii_of_string fp) -> int_of_ascii a <> 255) ->
  forall s, l1_last s <> EOF ->
  exists es rest, scan1_loop chr0 len s fp = Scan1Returns es rest.
Proof.
  induction fp as [|a fp IH]; intros Hfp s Hlast.
  - simpl. unfold scan1_body. change (EOF =? NEWLINE) with false. cbv iota.
    destruct (Z.eqb_spec EOF (l1_last s)); [congruence|].
    simpl. eexists _, _. reflexivity.
  - assert (Hrest : forall b, In b (list_ascii_of_string fp) -> int_of_ascii b <> 255).
    { intros b Hb. apply Hfp. right. exact Hb. }
    assert (Ha : int_of_ascii a <> 255) by (apply Hfp; left; reflexivity).
    pose proof (int_of_ascii_range a) as Hb.
    simpl. unfold scan1_body.
    destruct (int_of_ascii a =? NEWLINE).
    { destruct (IH Hrest s Hlast) as (es & rest & ->). simpl. eexists _, _. reflexivity. }
    destruct (int_of_ascii a =? l1_last s).
    { destruct (IH Hrest (Loop1 (l1_last s) (l1_p s + 1) (l1_n s + 1)) Hlast)
        as (es & rest & ->). simpl. eexists _, _. reflexivity. }
    cbv zeta.
    destruct ((int_of_ascii a =? EOF) || (int_of_ascii a =? HEADER_PREFIX)).
    { eexists _, _. reflexivity. }
    destruct (IH Hrest (Loop1 (char_of_int (int_of_ascii a)) (l1_p s + 1) 1))
      as (es & rest & ->).
    { simpl. unfold char_of_int, EOF. intros H.
      destruct (Z_lt_ge_dec (int_of_ascii a) 128).
      - rewrite Z.mod_small in H by lia. lia.
      - replace (int_of_ascii a + 128) with (int_of_ascii a - 128 + 1 * 256) in H by lia.
        rewrite Z_mod_plus_full, Z.mod_small in H by lia. lia. }
    simpl. eexists _, _. reflexivity.
Qed.

Lemma scan_seq1_hangs_after_255 :
  scan_seq1 (String (ascii_of_nat 255) EmptyString) "chr1" 3 = Scan1Hangs [].
Proof. reflexivity. Qed.

(** ** The loops, as written with [fgetc] *)

(** The recursive functions follow the file character by character; these
    equations give them back as the [while (1)] loops of the source, each
    iteration starting with [c = fgetc(fp)]. *)
Lemma seek_char_fgetc fp t :
  seek_char fp t
  = let '(c, fp') := fgetc fp in
    if negb (EOF =? c) && negb (char_of_int t =? c) then seek_char fp' t else (c, fp').
Proof.
  destruct fp as [|a fp]; [reflexivity|]. cbn [seek_char fgetc].
  pose proof (int_of_ascii_range a) as Hb.
  destruct (Z.eqb_spec EOF (int_of_ascii a)); [unfold EOF in *; lia|].
  destruct (char_of_int t =? int_of_ascii a); reflexivity.
Qed.

Lemma scanN_loop_fgetc s fp :
  scanN_loop s fp
  = let '(c, fp') := fgetc fp in
    '(evs, s', k) ← scanN_body s c;
    match k with
    | Break => Some (evs, ln_st s', fp')
    | Continue =>
        '(evs', st', rest) ← scanN_loop s' fp';
        Some (evs ++ evs', st', rest)
    end.
Proof.
  destruct fp as [|a fp]; [|reflexivity]. simpl.
  rewrite (scanN_body_end s EOF (or_introl eq_refl)).
  destruct (print_entryN (ln_st s) (ln_p s) (ln_n s)) as [[evs st']|]; reflexivity.
Qed.

Lemma scan1_loop_fgetc chr0 len s fp :
  scan1_loop chr0 len s fp
  = let '(c, fp') := fgetc fp in
    let '(es, s', k) := scan1_body chr0 len s c in
    match k with
    | Break => Scan1Returns es fp'
    | Continue => scan1_emit es (scan1_loop chr0 len s' fp')
    end.
Proof.
  destruct fp as [|a fp]; [|reflexivity]. simpl.
  destruct (scan1_body chr0 len s EOF) as [[es s'] k] eqn:Hbody.
  destruct k; [|reflexivity].
  destruct (scan1_body_EOF_continue _ _ _ _ _ Hbody) as (-> & _ & ->).
  reflexivity.
Qed.

(** ** Files without the byte 255 *)

Lemma seek_char_chars fp t c fp' a :
  seek_char fp t = (c, fp') ->
  In a (list_ascii_of_string fp') -> In a (list_ascii_of_string fp).
Proof.
  revert c fp'. induction fp as [|b fp IH]; intros c fp' H Ha; simpl in H.
  - inversion H; subst. exact Ha.
  - destruct (char_of_int t =? int_of_ascii b).
    + inversion H; subst. right. exact Ha.
    + right. exact (IH _ _ H Ha).
Qed.

Lemma skip_space_chars fp a :
  In a (list_ascii_of_string (skip_space fp)) -> In a (list_ascii_of_string fp).
Proof.
  induction fp as [|b fp IH]; simpl; [tauto|].
  destruct (isspace b); [intros H; right; exact (IH H) | tauto].
Qed.

Lemma read_word_chars k : forall fp w rest a,
  read_word k fp = (w, rest) ->
  In a (list_ascii_of_string rest) -> In a (list_ascii_of_string fp).
Proof.
  induction k as [|k IH]; intros fp w rest a H Ha; simpl in H.
  - inversion H; subst. exact Ha.
  - destruct fp as [|b fp]; [inversion H; subst; exact Ha|].
    destruct (isspace b); [inversion H; subst; exact Ha|].
    destruct (read_word k fp) as [w' rest'] eqn:Hrw. inversion H; subst.
    right. exact (IH _ _ _ _ Hrw Ha).
Qed.

Lemma parse_header_chars fp chr0 c chr' fp' a :
  parse_header fp chr0 = HeaderReturns c chr' fp' ->
  In a (list_ascii_of_string fp') -> In a (list_ascii_of_string fp).
Proof.
  unfold parse_header, fscanf_s31. intros H Ha.
  destruct (skip_space fp) as [|b fp1] eqn:Hsk.
  - simpl in H. inversion H; subst. destruct Ha.
  - destruct (read_word 31 (String b fp1)) as [w rest] eqn:Hrw. simpl in H.
    destruct (seek_char rest NEWLINE) as [c' fp''] eqn:Hseek. inversion H; subst.
    apply skip_space_chars. rewrite Hsk.
    apply (read_word_chars _ _ _ _ _ Hrw).
    exact (seek_char_chars _ _ _ _ _ Hseek Ha).
Qed.

Lemma scan1_loop_chars chr0 len fp : forall s es rest a,
  scan1_loop chr0 len s fp = Scan1Returns es rest ->
  In a (list_ascii_of_string rest) -> In a (list_ascii_of_string fp).
Proof.
  induction fp as [|b fp IH]; intros s es rest a H Ha; simpl in H.
  - destruct (scan1_body chr0 len s EOF) as [[es0 s0] k]. destruct k; [discriminate|].
    inversion H; subst. exact Ha.
  - destruct (scan1_body chr0 len s (int_of_ascii b)) as [[es0 s0] k]. destruct k.
    + destruct (scan1_loop chr0 len s0 fp) as [es1 rest1|es1] eqn:Hl; simpl in H;
        [|discriminate].
      inversion H; subst. right. exact (IH _ _ _ _ Hl Ha).
    + inversion H; subst. right. exact Ha.
Qed.

(** On a file without the byte 255 the homopolymer scan of every
    chromosome returns, and so does the chromosome loop. *)
Lemma parse_chromosomes_returns fuel : forall len chr0 out err fp,
  2 <= len -> (String.length fp < fuel)%nat ->
  (forall a, In a (list_ascii_of_string fp) -> int_of_ascii a <> 255) ->
  exists w, parse_chromosomes fuel None len chr0 out err fp = Returned 0 w.
Proof.
  induction fuel as [|fuel IH]; intros len chr0 out err fp Hlen Hfuel Hfp; [lia|].
  simpl. destruct (parse_header_returns fp chr0) as (c & chr' & fp' & Hph).
  rewrite Hph. destruct (Z.eqb_spec c EOF) as [Hc | Hc]; [eexists; reflexivity|].
  pose proof (parse_header_length _ _ _ _ _ Hph Hc) as Hlt.
  assert (Hfp' : forall a, In a (list_ascii_of_string fp') -> int_of_ascii a <> 255).
  { intros a Ha. apply Hfp. exact (parse_header_chars _ _ _ _ _ _ Hph Ha). }
  destruct (scan1_loop_returns chr' len fp' Hfp' (Loop1 BASE_N 0 1)) as (es & rest & Hscan).
  { simpl. unfold BASE_N, EOF. lia. }
  unfold scan_seq1. rewrite Hscan.
  pose proof (scan1_loop_length _ _ _ _ _ _ Hscan) as Hr.
  apply IH; [exact Hlen | lia |].
  intros a Ha. apply Hfp'. exact (scan1_loop_chars _ _ _ _ _ _ _ Hscan Ha).
Qed.

(** For a valid configuration and a readable file, without the byte 255
    when the period is 1, [read_fasta] returns 0. *)
Lemma read_fasta_returns g f rep len :
  1 <= rep <= 4 -> rep < len ->
  (rep = 1 -> forall a, In a (list_ascii_of_string f) -> int_of_ascii a <> 255) ->
  exists w, read_fasta g (Some f) rep len = Returned 0 w.
Proof.
  intros Hrep Hlen Hf.
  destruct (read_fasta_fuel g f rep len Hrep Hlen) as [Hret | [-> Hhang]];
    [exact Hret|].
  exfalso. unfold read_fasta in Hhang.
  destruct (Z.leb_spec len 1); [lia|].
  change (4 <? 1) with false in Hhang. change (1 =? 1) with true in Hhang.
  destruct (seek_char f HEADER_PREFIX) as [c0 f1] eqn:Hseek.
  destruct (parse_chromosomes_returns (S (String.length f1)) len (g_chr g)
              ("#repeat_length: " ++ dec 1 ++ nl ++ "#total_length: " ++ dec len ++ nl)
              ("Finding homopolymers >=" ++ dec len ++ "bp" ++ nl) f1
              ltac:(lia) ltac:(lia)) as [w Hw].
  { intros a Ha. apply (Hf eq_refl). exact (seek_char_chars _ _ _ _ _ Hseek Ha). }
  cbv beta iota zeta delta [negb] in Hhang. congruence.
Qed.

(** * Further properties of the code *)

(** ** Construction and configuration *)

(** X1.  [init_seq_state] by period: for 2, 3 and 4 it returns a
    well-formed state with that period, the given threshold and label and
    the validator of the period; for 0, 1 and every period above 4 it
    writes its message and exits with status -1; for a negative period it
    stores outside the unit buffer first. *)
Theorem init_seq_state_by_period (chr0 : string) (rep len : Z) (g1 g2 : list Z) :
  (2 <= rep <= 4 ->
     exists st,
       init_seq_state chr0 rep len g1 g2 = InitOk st
       /\ wf_state st /\ period st = rep /\ st_length st = len /\ chr st = chr0)
  /\ (0 <= rep < 2 \/ 4 < rep ->
        init_seq_state chr0 rep len g1 g2
        = InitExit (-1) ("invalid r (this should never happen)" ++ nl))
  /\ (rep < 0 -> init_seq_state chr0 rep len g1 g2 = InitUndefined).
Proof.
  split; [|split].
  - intros H. destruct (init_seq_state_ok chr0 rep len g1 g2 H) as [st Hst].
    exists st. split; [exact Hst|]. exact (init_seq_state_wf _ _ _ _ _ _ Hst).
  - intros H. unfold init_seq_state.
    rewrite store_Some by (rewrite length_alloc; lia).
    destruct (Z.eqb_spec rep 2); [lia|]. destruct (Z.eqb_spec rep 3); [lia|].
    destruct (Z.eqb_spec rep 4); [lia|]. reflexivity.
  - intros H. unfold init_seq_state, store.
    destruct (Z.leb_spec 0 rep); [lia | reflexivity].
Qed.

Lemma init_seq_state_by_period_witness :
  (exists st, init_seq_state "chr1" 3 5 [] [] = InitOk st /\ period st = 3)
  /\ init_seq_state "chr1" 1 5 [] []
     = InitExit (-1) ("invalid r (this should never happen)" ++ nl)
  /\ init_seq_state "chr1" (-3) 5 [] [] = InitUndefined.
Proof.
  destruct (init_seq_state_by_period "chr1" 3 5 [] []) as (H3 & _ & _).
  destruct (init_seq_state_by_period "chr1" 1 5 [] []) as (_ & H1 & _).
  destruct (init_seq_state_by_period "chr1" (-3) 5 [] []) as (_ & _ & Hn).
  split; [|split].
  - destruct (H3 ltac:(lia)) as (st & Hst & _ & Hp & _). exists st. split; assumption.
  - apply H1. lia.
  - apply Hn. lia.
Defined.

(** X2.  The three tests [read_fasta] starts with, in their order: a
    threshold not above the period first, then a period above 4, then a
    file that could not be opened.  Each ends the run with status -1 and
    its own message on the standard error, with nothing on the standard
    output and without a character read from the file. *)
Theorem read_fasta_first_tests (g : garbage) (fp : option string) (rep len : Z) :
  (len <= rep ->
     read_fasta g fp rep len
     = Exited (-1) (World "" ("Repeat length must be less than total length" ++ nl) fp))
  /\ (rep < len -> 4 < rep ->
        read_fasta g fp rep len
        = Exited (-1) (World "" ("Repeat length must be in [1,4]" ++ nl) fp))
  /\ (rep < len -> rep <= 4 -> fp = None ->
        read_fasta g fp rep len
        = Exited (-1) (World "" ("Error in opening file" ++ nl) None)).
Proof.
  unfold read_fasta. split; [|split].
  - intros H. destruct (Z.leb_spec len rep); [reflexivity | lia].
  - intros H1 H2. destruct (Z.leb_spec len rep); [lia|].
    destruct (Z.ltb_spec 4 rep); [reflexivity | lia].
  - intros H1 H2 ->. destruct (Z.leb_spec len rep); [lia|].
    destruct (Z.ltb_spec 4 rep); [lia | reflexivity].
Qed.

Lemma read_fasta_first_tests_witness :
  read_fasta example_garbage (Some example_file) 3 3
  = Exited (-1) (World "" ("Repeat length must be less than total length" ++ nl)
                   (Some example_file))
  /\ read_fasta example_garbage (Some example_file) 7 9
     = Exited (-1) (World "" ("Repeat length must be in [1,4]" ++ nl) (Some example_file))
  /\ read_fasta example_garbage None 2 9
     = Exited (-1) (World "" ("Error in opening file" ++ nl) None).
Proof.
  split; [|split].
  - apply (read_fasta_first_tests example_garbage (Some example_file) 3 3). lia.
  - apply (read_fasta_first_tests example_garbage (Some example_file) 7 9); lia.
  - apply (read_fasta_first_tests example_garbage None 2 9); (lia || reflexivity).
Defined.

(** X3.  Period 0 with a positive threshold passes the three tests.  The
    file is then read up to its first header mark, the banner is written to
    the standard error, and [init_seq_state] ends the run with status -1
    and the message of its fallback branch; the summary lines are not
    printed and no chromosome is parsed. *)
Theorem read_fasta_period_0 (g : garbage) (f : string) (len : Z) :
  0 < len ->
  read_fasta g (Some f) 0 len
  = Exited (-1)
      (World "" (("Finding polynuc repeats >=" ++ dec 0 ++ "bp with unit size "
                  ++ dec len ++ "bp" ++ nl)
                 ++ "invalid r (this should never happen)" ++ nl)
         (Some (snd (seek_char f HEADER_PREFIX)))).
Proof. exact (read_fasta_rejects_period_0 g f len). Qed.

Lemma read_fasta_period_0_witness :
  read_fasta example_garbage (Some example_file) 0 3
  = Exited (-1)
      (World "" ("Finding polynuc repeats >=0bp with unit size 3bp" ++ nl
                 ++ "invalid r (this should never happen)" ++ nl)
         (Some ("chr1" ++ nl ++ "AAAANAAA" ++ nl)%string)).
Proof. apply (read_fasta_period_0 example_garbage example_file 3). lia. Defined.

(** X4.  For a period in 1..4, a threshold above it and a file that was
    opened, whatever the uninitialised memory holds: [read_fasta] has no
    undefined access, takes no error exit and needs no more iterations of
    the chromosome loop than the file has characters.  It returns 0,
    except that with period 1 it may not return at all; it does return
    when the file has no byte 255. *)
Theorem read_fasta_safe (g : garbage) (f : string) (rep len : Z) :
  1 <= rep <= 4 -> rep < len ->
  ((exists w, read_fasta g (Some f) rep len = Returned 0 w)
   \/ rep = 1 /\ read_fasta g (Some f) rep len = Hangs)
  /\ ((forall a, In a (list_ascii_of_string f) -> int_of_ascii a <> 255) ->
        exists w, read_fasta g (Some f) rep len = Returned 0 w).
Proof.
  intros Hrep Hlen. split.
  - exact (read_fasta_fuel g f rep len Hrep Hlen).
  - intros Hf. apply read_fasta_returns; [exact Hrep | exact Hlen |].
    intros _. exact Hf.
Qed.

Lemma read_fasta_safe_witness :
  exists w, read_fasta example_garbage (Some example_file) 2 4 = Returned 0 w.
Proof.
  destruct (read_fasta_safe example_garbage example_file 2 4) as [[Hret | [Hrep _]] _].
  - lia.
  - lia.
  - exact Hret.
  - discriminate Hrep.
Defined.

(** ** The record line *)

(** X5.  The start position [print_entry] prints: the run length goes
    through a [char] parameter, so the start is [p - n] only for
    [n < 128]; for a run of 128 to 383 symbols it is [p - n + 256], which
    is past the end position when [n < 256]. *)
Theorem print_entry_start (e : entry) :
  exists start,
    print_entry e
    = (c_string (chars_of (e_chr e)) ++ tab ++ dec start ++ tab ++ dec (e_p e)
       ++ tab ++ "unit=" ++ c_string (e_unit e) ++ nl)%string
    /\ (-128 <= e_n e < 128 -> start = e_p e - e_n e)
    /\ (128 <= e_n e < 384 -> start = e_p e - e_n e + 256)
    /\ (128 <= e_n e < 256 -> e_p e < start).
Proof.
  exists (e_p e - char_of_int (e_n e)). split; [reflexivity|].
  assert (H : 128 <= e_n e < 384 -> char_of_int (e_n e) = e_n e - 256).
  { intros Hn. unfold char_of_int.
    replace (e_n e + 128) with (e_n e - 128 + 1 * 256) by lia.
    rewrite Z_mod_plus_full, Z.mod_small by lia. lia. }
  split; [|split].
  - intros Hn. rewrite char_of_int_id by exact Hn. reflexivity.
  - intros Hn. rewrite (H Hn). lia.
  - intros Hn. rewrite (H ltac:(lia)). lia.
Qed.

Lemma print_entry_start_witness :
  exists start,
    print_entry (Entry "chr1" 200 200 [65; 84; 0])
    = ("chr1" ++ tab ++ dec start ++ tab ++ "200" ++ tab ++ "unit=AT" ++ nl)%string
    /\ start = 256.
Proof.
  destruct (print_entry_start (Entry "chr1" 200 200 [65; 84; 0]))
    as (start & Hline & _ & Hwrap & _).
  exists start. split; [exact Hline|]. simpl in Hwrap. rewrite Hwrap by lia. reflexivity.
Defined.

(** ** The FASTA parser *)

Lemma int_of_ascii_inj a b : int_of_ascii a = int_of_ascii b -> a = b.
Proof.
  unfold int_of_ascii. intros H. apply N2Z.inj in H.
  rewrite <- (ascii_N_embedding a), <- (ascii_N_embedding b), H. reflexivity.
Qed.

Lemma seek_char_found pre t rest :
  int_of_ascii t < 128 ->
  (forall a, In a (list_ascii_of_string pre) -> a <> t) ->
  seek_char (pre ++ String t rest) (int_of_ascii t) = (int_of_ascii t, rest).
Proof.
  intros Ht. pose proof (int_of_ascii_range t) as Hr.
  induction pre as [|b pre IH]; intros H.
  - change (EmptyString ++ String t rest)%string with (String t rest).
    rewrite seek_char_cons, char_of_int_id, Z.eqb_refl by lia. reflexivity.
  - change (String b pre ++ String t rest)%string with (String b (pre ++ String t rest)).
    rewrite seek_char_cons, char_of_int_id by lia.
    destruct (Z.eqb_spec (int_of_ascii t) (int_of_ascii b)) as [Heq | Hne].
    + exfalso. apply (H b); [left; reflexivity|]. symmetry. exact (int_of_ascii_inj _ _ Heq).
    + apply IH. intros a Ha. apply H. right. exact Ha.
Qed.

Lemma seek_char_missing fp t :
  (forall a, In a (list_ascii_of_string fp) -> a <> t) ->
  seek_char fp (int_of_ascii t) = (EOF, EmptyString).
Proof.
  induction fp as [|b fp IH]; intros H; [reflexivity|].
  rewrite seek_char_cons.
  destruct (Z.eqb_spec (char_of_int (int_of_ascii t)) (int_of_ascii b)) as [Heq | Hne].
  - exfalso. apply (H b); [left; reflexivity|]. symmetry. apply int_of_ascii_inj.
    exact (proj1 (char_of_int_eq_byte _ _ (int_of_ascii_range t) (int_of_ascii_range b) Heq)).
  - apply IH. intros a Ha. apply H. right. exact Ha.
Qed.

(** A byte above 127 is never found: as a [char] it is negative, and
    [fgetc] returns no negative value but [EOF]. *)
Lemma seek_char_high fp t :
  128 <= int_of_ascii t -> seek_char fp (int_of_ascii t) = (EOF, EmptyString).
Proof.
  intros Ht. induction fp as [|b fp IH]; [reflexivity|].
  rewrite seek_char_cons.
  destruct (Z.eqb_spec (char_of_int (int_of_ascii t)) (int_of_ascii b)) as [Heq | Hne];
    [|exact IH].
  exfalso.
  pose proof (char_of_int_eq_byte _ _ (int_of_ascii_range t) (int_of_ascii_range b) Heq)
    as [H1 H2].
  rewrite <- H1 in H2. rewrite H2 in Heq.
  pose proof (char_of_int_range (int_of_ascii t)). lia.
Qed.

(** X6.  [seek_char] looks for a [char].  For an ASCII character it stops
    right after the first occurrence, returning it; when the character
    does not occur it reads the file to its end and returns [EOF].  A byte
    above 127 is negative as a [char] and [fgetc] returns it as a positive
    [int], so such a byte is never found, even where it occurs: the file
    is read to its end and the result is [EOF]. *)
Theorem seek_char_first_occurrence (t : ascii) :
  (int_of_ascii t < 128 ->
     forall pre rest,
       (forall a, In a (list_ascii_of_string pre) -> a <> t) ->
       seek_char (pre ++ String t rest) (int_of_ascii t) = (int_of_ascii t, rest))
  /\ (forall fp,
        (forall a, In a (list_ascii_of_string fp) -> a <> t) ->
        seek_char fp (int_of_ascii t) = (EOF, EmptyString))
  /\ (128 <= int_of_ascii t ->
        forall fp, seek_char fp (int_of_ascii t) = (EOF, EmptyString)).
Proof.
  split; [|split].
  - intros Ht pre rest H. exact (seek_char_found pre t rest Ht H).
  - intros fp H. exact (seek_char_missing fp t H).
  - intros Ht fp. exact (seek_char_high fp t Ht).
Qed.

Lemma seek_char_first_occurrence_witness :
  seek_char ("desc" ++ String ">" ("chr1>x"))%string (int_of_ascii ">")
  = (int_of_ascii ">", "chr1>x"%string)
  /\ seek_char "ACGT" (int_of_ascii ">") = (EOF, EmptyString)
  /\ seek_char (String (ascii_of_nat 200) "cd") (int_of_ascii (ascii_of_nat 200))
     = (EOF, EmptyString).
Proof.
  destruct (seek_char_first_occurrence ">"%char) as (Hfound & Hmissing & _).
  destruct (seek_char_first_occurrence (ascii_of_nat 200)) as (_ & _ & Hhigh).
  split; [|split].
  - apply (Hfound ltac:(vm_compute; reflexivity) "desc"%string "chr1>x"%string).
    intros a Ha. simpl in Ha.
    repeat (destruct Ha as [<- | Ha]; [discriminate|]). destruct Ha.
  - apply (Hmissing "ACGT"%string).
    intros a Ha. simpl in Ha.
    repeat (destruct Ha as [<- | Ha]; [discriminate|]). destruct Ha.
  - apply Hhigh. vm_compute. discriminate.
Defined.

Lemma read_word_label k : forall fp w rest,
  read_word k fp = (w, rest) ->
  (String.length w <= k)%nat
  /\ (forall a, In a (list_ascii_of_string w) -> isspace a = false)
  /\ fp = (w ++ rest)%string.
Proof.
  induction k as [|k IH]; intros fp w rest H; simpl in H.
  - inversion H; subst. simpl. split; [lia|]. split; [intros a []|reflexivity].
  - destruct fp as [|b fp]; [inversion H; subst; simpl; split; [lia|]; split; [intros a [] | reflexivity]|].
    destruct (isspace b) eqn:Hb.
    + inversion H; subst. simpl. split; [lia|]. split; [intros a [] | reflexivity].
    + destruct (read_word k fp) as [w' rest'] eqn:Hrw. inversion H; subst.
      destruct (IH _ _ _ Hrw) as (Hl & Hns & Hfp). simpl.
      split; [lia|]. split; [|rewrite Hfp; reflexivity].
      intros a [<- | Ha]; [exact Hb | exact (Hns a Ha)].
Qed.

Lemma read_word_nonempty k b fp w rest :
  isspace b = false -> read_word (S k) (String b fp) = (w, rest) ->
  (1 <= String.length w)%nat.
Proof.
  intros Hb H. simpl in H. rewrite Hb in H.
  destruct (read_word k fp) as [w' rest']. inversion H; subst. simpl. lia.
Qed.

Lemma seek_char_result fp t c fp' :
  seek_char fp t = (c, fp') -> c = char_of_int t \/ c = EOF /\ fp' = EmptyString.
Proof.
  revert c fp'. induction fp as [|b fp IH]; intros c fp' H; simpl in H.
  - inversion H; subst. right. split; reflexivity.
  - destruct (Z.eqb_spec (char_of_int t) (int_of_ascii b)) as [Heq | Hne].
    + inversion H; subst. left. symmetry. exact Heq.
    + exact (IH _ _ H).
Qed.

(** X7.  [parse_header] never takes its error exit.  It returns the
    newline that ends the header line, or [EOF] with the file read to its
    end.  The label is left as it was only when nothing but white space was
    left in the file (and then the result is [EOF]); otherwise the new
    label has between 1 and 31 characters, none of them white space, so
    that it fits the 32 bytes of the caller's array. *)
Theorem parse_header_label (fp chr0 : string) :
  exists c chr' fp',
    parse_header fp chr0 = HeaderReturns c chr' fp'
    /\ (c = NEWLINE \/ c = EOF /\ fp' = EmptyString)
    /\ (chr' = chr0 /\ c = EOF /\ skip_space fp = EmptyString
        \/ (1 <= String.length chr' <= 31)%nat
           /\ forall a, In a (list_ascii_of_string chr') -> isspace a = false).
Proof.
  unfold parse_header, fscanf_s31.
  destruct (skip_space fp) as [|b fp1] eqn:Hsk.
  - simpl. eexists _, _, _. split; [reflexivity|].
    split; [right; split; reflexivity|]. left. repeat split; reflexivity.
  - assert (Hb : isspace b = false).
    { clear -Hsk. induction fp as [|a fp IH]; simpl in Hsk; [discriminate|].
      destruct (isspace a) eqn:Ha; [exact (IH Hsk)|]. inversion Hsk; subst. exact Ha. }
    destruct (read_word 31 (String b fp1)) as [w rest] eqn:Hrw. simpl.
    destruct (seek_char rest NEWLINE) as [c' fp''] eqn:Hseek.
    eexists _, _, _. split; [reflexivity|].
    split; [exact (seek_char_result _ _ _ _ Hseek)|]. right.
    destruct (read_word_label _ _ _ _ Hrw) as (Hl & Hns & _).
    split; [|exact Hns]. split; [|exact Hl].
    exact (read_word_nonempty 30 b fp1 w rest Hb Hrw).
Qed.

Lemma in_chars_app s1 s2 a :
  In a (list_ascii_of_string (s1 ++ s2)) <->
  In a (list_ascii_of_string s1) \/ In a (list_ascii_of_string s2).
Proof.
  induction s1 as [|b s1 IH]; simpl; [tauto|]. rewrite IH. tauto.
Qed.

Lemma skip_space_prefix ws b s :
  (forall a, In a (list_ascii_of_string ws) -> isspace a = true) ->
  isspace b = false ->
  skip_space (ws ++ String b s) = String b s.
Proof.
  intros Hws Hb. induction ws as [|a ws IH]; simpl.
  - rewrite Hb. reflexivity.
  - rewrite (Hws a (or_introl eq_refl)). apply IH.
    intros a' Ha'. apply Hws. right. exact Ha'.
Qed.

(** [read_word] takes the token that starts the input, up to [k]
    characters of it. *)
Lemma read_word_token k : forall w tail,
  (forall a, In a (list_ascii_of_string w) -> isspace a = false) ->
  (tail = EmptyString \/ exists b t, tail = String b t /\ isspace b = true) ->
  exists w1 w2,
    w = (w1 ++ w2)%string
    /\ String.length w1 = Nat.min k (String.length w)
    /\ read_word k (w ++ tail) = (w1, (w2 ++ tail)%string).
Proof.
  induction k as [|k IH]; intros w tail Hw Htail.
  - exists EmptyString, w. simpl. split; [reflexivity|]. split; reflexivity.
  - destruct w as [|b w].
    + exists EmptyString, EmptyString. simpl. split; [reflexivity|].
      split; [reflexivity|].
      destruct Htail as [-> | (b & t & -> & Hb)]; [reflexivity|]. rewrite Hb. reflexivity.
    + destruct (IH w tail) as (w1 & w2 & Hsplit & Hlen & Hrw).
      { intros a Ha. apply Hw. right. exact Ha. }
      { exact Htail. }
      exists (String b w1), w2. simpl.
      rewrite (Hw b (or_introl eq_refl)), Hrw.
      split; [rewrite Hsplit; reflexivity|]. split; [rewrite Hlen; reflexivity | reflexivity].
Qed.

(** X8.  A header line as [parse_header] reads it, i.e. what follows the
    header mark: optional white space, a token [w], then either the end of
    the line or white space and a description.  The label is [w] itself
    when it has at most 31 characters and its first 31 characters when it
    is longer (the rest of a longer token is dropped without an error); the
    description is skipped; the result is the newline and the file is left
    at the start of the next line. *)
Theorem parse_header_line (ws w desc rest chr0 : string) :
  (forall a, In a (list_ascii_of_string ws) -> isspace a = true) ->
  w <> EmptyString ->
  (forall a, In a (list_ascii_of_string w) -> isspace a = false) ->
  (desc = EmptyString \/ exists b t, desc = String b t /\ isspace b = true) ->
  (forall a, In a (list_ascii_of_string desc) -> int_of_ascii a <> NEWLINE) ->
  exists label dropped,
    parse_header (ws ++ w ++ desc ++ nl ++ rest) chr0 = HeaderReturns NEWLINE label rest
    /\ w = (label ++ dropped)%string
    /\ String.length label = Nat.min 31 (String.length w).
Proof.
  intros Hws Hne Hw Hdesc Hnl.
  destruct w as [|b w]; [contradiction|].
  assert (Htail : (desc ++ nl ++ rest)%string = EmptyString
                  \/ exists c t, (desc ++ nl ++ rest)%string = String c t /\ isspace c = true).
  { right. destruct Hdesc as [-> | (c & t & -> & Hc)]; simpl.
    - eexists _, _. split; [reflexivity|]. reflexivity.
    - eexists _, _. split; [reflexivity | exact Hc]. }
  destruct (read_word_token 31 (String b w) (desc ++ nl ++ rest) Hw Htail)
    as (label & dropped & Hsplit & Hlen & Hrw).
  exists label, dropped. split; [|split; assumption].
  assert (Hf : fscanf_s31 (ws ++ String b w ++ desc ++ nl ++ rest) chr0
               = (1, label, (dropped ++ desc ++ nl ++ rest)%string)).
  { unfold fscanf_s31.
    change (String b w ++ desc ++ nl ++ rest)%string
      with (String b (w ++ desc ++ nl ++ rest))%string.
    rewrite (skip_space_prefix ws b _ Hws (Hw b (or_introl eq_refl))).
    cbv beta iota.
    change (String b (w ++ desc ++ nl ++ rest))%string
      with (String b w ++ desc ++ nl ++ rest)%string.
    rewrite Hrw. reflexivity. }
  unfold parse_header. rewrite Hf. simpl negb. cbv iota.
  assert (Hseek : seek_char (dropped ++ desc ++ nl ++ rest) NEWLINE = (NEWLINE, rest)).
  { rewrite <- append_assoc.
    change (nl ++ rest)%string with (String (ascii_of_nat 10) rest).
    apply (seek_char_found (dropped ++ desc) (ascii_of_nat 10) rest);
      [vm_compute; reflexivity|].
    intros a Ha Heq. subst a. apply in_chars_app in Ha as [Ha | Ha].
    - assert (Hin : In (ascii_of_nat 10) (list_ascii_of_string (String b w))).
      { rewrite Hsplit. apply in_chars_app. right. exact Ha. }
      specialize (Hw _ Hin). discriminate Hw.
    - apply (Hnl _ Ha). reflexivity. }
  rewrite Hseek. reflexivity.
Qed.

Lemma parse_header_line_witness :
  exists label dropped,
    parse_header (" " ++ "chr1" ++ " human" ++ nl ++ "ACGT") "old"
    = HeaderReturns NEWLINE label "ACGT"
    /\ "chr1"%string = (label ++ dropped)%string
    /\ String.length label = 4%nat.
Proof.
  apply (parse_header_line " " "chr1" " human" "ACGT" "old").
  - intros a [<- | []]. reflexivity.
  - discriminate.
  - intros a Ha. simpl in Ha.
    repeat (destruct Ha as [<- | Ha]; [reflexivity|]). destruct Ha.
  - right. eexists _, _. split; reflexivity.
  - intros a Ha. simpl in Ha.
    repeat (destruct Ha as [<- | Ha]; [vm_compute; discriminate|]). destruct Ha.
Defined.

(** ** The whole run on files without headers, or with a preamble *)

(** X9.  What comes before the first header mark is ignored: for a
    configuration that passes the first tests, the run on a file is the
    run on the file from its first header mark on. *)
Theorem read_fasta_skips_preamble (g : garbage) (pre f : string) (rep len : Z) :
  rep < len -> rep <= 4 ->
  (forall a, In a (list_ascii_of_string pre) -> a <> ">"%char) ->
  read_fasta g (Some (pre ++ String ">" f)%string) rep len
  = read_fasta g (Some (String ">" f)) rep len.
Proof.
  intros Hlen Hrep Hpre. unfold read_fasta.
  destruct (Z.leb_spec len rep); [lia|]. destruct (Z.ltb_spec 4 rep); [lia|].
  change HEADER_PREFIX with (int_of_ascii ">").
  rewrite (seek_char_found pre ">" f ltac:(vm_compute; reflexivity) Hpre).
  pose proof (seek_char_found EmptyString ">" f ltac:(vm_compute; reflexivity)
                ltac:(intros a [])) as Hhead.
  simpl append in Hhead. rewrite Hhead. reflexivity.
Qed.

Lemma read_fasta_skips_preamble_witness :
  read_fasta example_garbage (Some ("; a comment" ++ nl ++ example_file)%string) 1 3
  = Returned 0 example_world.
Proof.
  change (("; a comment" ++ nl ++ example_file)%string)
    with (("; a comment" ++ nl) ++ String ">" ("chr1" ++ nl ++ "AAAANAAA" ++ nl))%string.
  rewrite (read_fasta_skips_preamble example_garbage ("; a comment" ++ nl)%string
             ("chr1" ++ nl ++ "AAAANAAA" ++ nl)%string 1 3).
  - vm_compute. reflexivity.
  - lia.
  - lia.
  - intros a Ha. vm_compute in Ha.
    repeat (destruct Ha as [<- | Ha]; [discriminate|]). destruct Ha.
Defined.

(** X10.  A file without a header mark, the empty file included, with a
    valid configuration: the run reads the file to its end, prints the two
    summary lines and nothing else on the standard output, only the banner
    on the standard error, and returns 0.  No symbol of such a file is
    scanned. *)
Theorem read_fasta_no_header (g : garbage) (f : string) (rep len : Z) :
  1 <= rep <= 4 -> rep < len ->
  (forall a, In a (list_ascii_of_string f) -> a <> ">"%char) ->
  read_fasta g (Some f) rep len
  = Returned 0
      (World ("#repeat_length: " ++ dec rep ++ nl ++ "#total_length: " ++ dec len ++ nl)
         (if rep =? 1
          then "Finding homopolymers >=" ++ dec len ++ "bp" ++ nl
          else "Finding polynuc repeats >=" ++ dec rep ++ "bp with unit size "
               ++ dec len ++ "bp" ++ nl)
         (Some EmptyString)).
Proof.
  intros Hrep Hlen Hf. unfold read_fasta.
  destruct (Z.leb_spec len rep); [lia|]. destruct (Z.ltb_spec 4 rep); [lia|].
  change HEADER_PREFIX with (int_of_ascii ">").
  rewrite (seek_char_missing f ">" Hf).
  destruct (Z.eqb_spec rep 1) as [-> | Hne]; cbv beta iota zeta delta [negb].
  - reflexivity.
  - destruct (init_seq_state_ok (g_chr g) rep len (g_elements g) (g_unit_buffer g)
                ltac:(lia)) as [st ->].
    reflexivity.
Qed.

Lemma read_fasta_no_header_witness :
  read_fasta example_garbage (Some ("ACGTACGT" ++ nl)%string) 2 4
  = Returned 0
      (World ("#repeat_length: 2" ++ nl ++ "#total_length: 4" ++ nl)
         ("Finding polynuc repeats >=2bp with unit size 4bp" ++ nl)
         (Some EmptyString)).
Proof.
  apply (read_fasta_no_header example_garbage ("ACGTACGT" ++ nl)%string 2 4).
  - lia.
  - lia.
  - intros a Ha. vm_compute in Ha.
    repeat (destruct Ha as [<- | Ha]; [discriminate|]). destruct Ha.
Defined.

(** ** The homopolymer machine: when it does not return *)

Lemma scan1_hangs_emit es r : scan1_hangs (scan1_emit es r) <-> scan1_hangs r.
Proof. destruct r; simpl; tauto. Qed.

Lemma char_of_int_255 c : is_byte c -> (char_of_int c = EOF <-> c = 255).
Proof.
  unfold is_byte, char_of_int, EOF. intros Hc.
  destruct (Z_lt_ge_dec c 128).
  - rewrite Z.mod_small by lia. lia.
  - replace (c + 128) with (c - 128 + 1 * 256) by lia.
    rewrite Z_mod_plus_full, Z.mod_small by lia. lia.
Qed.

Lemma scan1_loop_hangs chr0 len fp : forall s,
  -128 <= l1_last s < 128 -> l1_last s <> HEADER_PREFIX ->
  scan1_hangs (scan1_loop chr0 len s fp)
  <-> (forall a, In a (list_ascii_of_string fp) -> a <> ">"%char)
      /\ match last (symbols (fgetc_values fp)) with
         | Some x => x = 255
         | None => l1_last s = EOF
         end.
Proof.
  induction fp as [|a fp IH]; intros s Hl Hh.
  - simpl. unfold scan1_body. change (EOF =? NEWLINE) with false. cbv iota.
    destruct (Z.eqb_spec EOF (l1_last s)) as [Heq | Hne]; simpl.
    + split; [intros _; split; [intros a [] | congruence] | tauto].
    + split; [tauto | intros [_ H]; congruence].
  - pose proof (int_of_ascii_range a) as Hb.
    assert (Hvals : fgetc_values (String a fp) = int_of_ascii a :: fgetc_values fp)
      by reflexivity.
    rewrite Hvals. simpl scan1_loop. simpl list_ascii_of_string.
    assert (Hgt : a = ">"%char <-> int_of_ascii a = HEADER_PREFIX).
    { split; [intros ->; reflexivity|]. intros H.
      apply int_of_ascii_inj. exact H. }
    set (c := int_of_ascii a) in *.
    assert (Heof : c <> EOF) by (unfold EOF; lia).
    assert (Hsplit : forall P : Prop,
              c <> HEADER_PREFIX ->
              ((forall b, In b (a :: list_ascii_of_string fp) -> b <> ">"%char) /\ P)
              <-> ((forall b, In b (list_ascii_of_string fp) -> b <> ">"%char) /\ P)).
    { intros P Hc. split; intros [H1 H2]; (split; [|exact H2]).
      - intros b Hin. apply H1. right. exact Hin.
      - intros b [<- | Hin]; [intros Ha; apply Hc, Hgt, Ha | exact (H1 b Hin)]. }
    unfold scan1_body.
    destruct (Z.eqb_spec c NEWLINE) as [Hnl | Hnl].
    { cbv beta iota zeta. rewrite scan1_hangs_emit.
      etransitivity; [exact (IH s Hl Hh)|].
      assert (Hc : c <> HEADER_PREFIX) by (rewrite Hnl; discriminate).
      symmetry. etransitivity; [exact (Hsplit _ Hc)|]. simpl symbols.
      destruct (Z.eqb_spec c EOF); [contradiction|].
      destruct (Z.eqb_spec c HEADER_PREFIX); [contradiction|].
      destruct (Z.eqb_spec c NEWLINE); [|contradiction]. simpl. reflexivity. }
    assert (Hsym : c <> HEADER_PREFIX ->
              last (symbols (c :: fgetc_values fp))
              = match last (symbols (fgetc_values fp)) with
                | Some x => Some x
                | None => Some c
                end).
    { intros Hc. simpl symbols.
      destruct (Z.eqb_spec c EOF); [contradiction|].
      destruct (Z.eqb_spec c HEADER_PREFIX); [contradiction|].
      destruct (Z.eqb_spec c NEWLINE); [contradiction|]. simpl.
      destruct (symbols (fgetc_values fp)) as [|y l] eqn:Hs; [reflexivity|].
      rewrite last_cons. destruct (last (y :: l)); reflexivity. }
    destruct (Z.eqb_spec c (l1_last s)) as [Hm | Hm].
    { assert (Hc : c <> HEADER_PREFIX) by congruence.
      cbv beta iota zeta. rewrite scan1_hangs_emit.
      etransitivity; [apply IH; simpl; assumption|].
      symmetry. etransitivity; [exact (Hsplit _ Hc)|]. rewrite (Hsym Hc). simpl.
      destruct (last (symbols (fgetc_values fp))); [reflexivity|].
      split; intros [H1 H2]; exfalso; lia. }
    cbv zeta.
    destruct (Z.eqb_spec c EOF); [contradiction|].
    destruct (Z.eqb_spec c HEADER_PREFIX) as [Hc | Hc]; cbv beta iota zeta delta [orb].
    + simpl scan1_hangs. split; [tauto|]. intros [H _]. apply (H a); [left; reflexivity|].
      apply Hgt. exact Hc.
    + rewrite scan1_hangs_emit.
      etransitivity; [apply IH|].
      * simpl. apply char_of_int_range.
      * simpl. intros H. apply Hc.
        apply (char_of_int_eq_byte c HEADER_PREFIX Hb); [unfold HEADER_PREFIX; lia | exact H].
      * symmetry. etransitivity; [exact (Hsplit _ Hc)|]. rewrite (Hsym Hc). simpl.
        destruct (last (symbols (fgetc_values fp))); [reflexivity|].
        pose proof (char_of_int_255 c Hb). tauto.
Qed.

(** X11.  [scan_seq1] fails to return in exactly one situation: the
    segment runs to the end of the file (no header mark follows) and its
    last symbol is the byte 255.  That byte is stored in [last_base] as
    -1, the value of [EOF], so the test [c == last_base[0]] holds for
    [EOF] on every further iteration. *)
Theorem scan_seq1_hangs_iff (chr0 : string) (len : Z) (fp : string) :
  scan1_hangs (scan_seq1 fp chr0 len)
  <-> (forall a, In a (list_ascii_of_string fp) -> a <> ">"%char)
      /\ last (symbols (fgetc_values fp)) = Some 255.
Proof.
  unfold scan_seq1. etransitivity; [apply scan1_loop_hangs|].
  - simpl. unfold BASE_N. lia.
  - simpl. discriminate.
  - simpl. destruct (last (symbols (fgetc_values fp))) as [x|].
    + split; intros [H1 H2]; (split; [exact H1 | congruence]).
    + split; intros [H1 H2]; [discriminate H2 | discriminate H2].
Qed.

(** ** The homopolymer machine: every run is reported, in order *)

Lemma fresh1_p0 h s : fresh1 h s -> l1_p s = 0 -> l1_last s = BASE_N.
Proof.
  intros (Hp & Hn & _ & _ & Hsent & _) H0. cbv zeta in *. apply Hsent. lia.
Qed.

Lemma scan1_loop_complete chr0 len fp a b x :
  2 <= len -> 0 <= x < 128 -> x <> BASE_N -> 0 <= a -> len <= b - a ->
  forall h s, fresh1 h s -> run_pending s a b x ->
  let hh := h ++ symbols (fgetc_values fp) in
  b <= Z.of_nat (length hh) ->
  (forall i, a <= i < b -> hh !! Z.to_nat i = Some x) ->
  (1 <= a -> hh !! Z.to_nat (a - 1) <> Some x) ->
  hh !! Z.to_nat b <> Some x ->
  In (Entry chr0 b (b - a) [x; NUL]) (scan1_entries (scan1_loop chr0 len s fp)).
Proof.
  intros Hlen Hx HxN Ha Hba.
  assert (Hgate : forall s, l1_p s = b -> l1_p s - l1_n s = a -> l1_last s = x ->
            (if (len <=? l1_n s) && negb (l1_last s =? BASE_N)
             then [Entry chr0 (l1_p s) (l1_n s) [l1_last s; NUL]] else [])
            = [Entry chr0 b (b - a) [x; NUL]]).
  { intros s Hp Hst Hl. replace (l1_n s) with (b - a) by lia. rewrite Hp, Hl.
    destruct (Z.leb_spec len (b - a)); [|lia].
    destruct (Z.eqb_spec x BASE_N); [contradiction | reflexivity]. }
  induction fp as [|ch fp IH]; intros h s Hf Hpend hh Hb Hall Hleft Hright.
  - (* end of the file *)
    subst hh. unfold fgetc_values in *. simpl in *. rewrite app_nil_r in *.
    pose proof Hf as (Hp & _). cbv zeta in Hp.
    destruct Hpend as [Hfut | (Hab & Hst & Hl)]; [lia|].
    unfold scan1_body. change (EOF =? NEWLINE) with false. cbv iota.
    destruct (Z.eqb_spec EOF (l1_last s)) as [Heq | Hne]; [unfold EOF in Heq; lia|].
    cbv zeta. rewrite Z.eqb_refl. simpl orb. cbv iota. simpl scan1_entries.
    rewrite (Hgate s ltac:(lia) Hst Hl). left. reflexivity.
  - (* a character of the file *)
    pose proof (int_of_ascii_range ch) as Hbyte.
    assert (Hvals : fgetc_values (String ch fp) = int_of_ascii ch :: fgetc_values fp)
      by reflexivity.
    subst hh. rewrite Hvals in *. simpl scan1_loop.
    set (c := int_of_ascii ch) in *.
    pose proof Hf as (Hp & Hn & (Hl & Hlh) & Hbytes & Hsent & _). cbv zeta in *.
    assert (Heof : c <> EOF) by (unfold EOF; lia).
    unfold scan1_body.
    destruct (Z.eqb_spec c NEWLINE) as [Hnl | Hnl].
    { cbv beta iota zeta. rewrite scan1_entries_emit. simpl app.
      assert (Hs : symbols (c :: fgetc_values fp) = symbols (fgetc_values fp)).
      { simpl. rewrite Hnl. reflexivity. }
      rewrite Hs in *. exact (IH h s Hf Hpend Hb Hall Hleft Hright). }
    assert (Hsym : c <> HEADER_PREFIX ->
              h ++ symbols (c :: fgetc_values fp)
              = (h ++ [c]) ++ symbols (fgetc_values fp)).
    { intros Hc. rewrite <- app_assoc. simpl.
      destruct (Z.eqb_spec c EOF); [contradiction|].
      destruct (Z.eqb_spec c HEADER_PREFIX); [contradiction|].
      destruct (Z.eqb_spec c NEWLINE); [contradiction|]. reflexivity. }
    assert (Hhp : ((h ++ [c]) ++ symbols (fgetc_values fp)) !! Z.to_nat (l1_p s) = Some c).
    { apply lookup_app_l_Some. apply lookup_snoc_last. exact Hp. }
    destruct (Z.eqb_spec c (l1_last s)) as [Hm | Hm].
    { (* the run goes on *)
      assert (Hc : c <> HEADER_PREFIX) by congruence.
      cbv beta iota zeta. rewrite scan1_entries_emit. simpl app.
      rewrite (Hsym Hc) in Hb, Hall, Hleft, Hright.
      apply (IH (h ++ [c]) _ (fresh1_match h s c Hf Hbyte Hm)); try assumption.
      destruct Hpend as [Hfut | (Hab & Hst & Hlx)].
      - destruct (Z.eq_dec (l1_p s) a) as [Hpa | Hpa]; [|left; simpl; lia].
        (* the run starts here, so the symbol before it is not [x] *)
        exfalso. pose proof (Hall a ltac:(lia)) as Hxa.
        rewrite <- Hpa in Hxa.
        assert (Hcx : c = x) by (rewrite Hhp in Hxa; congruence).
        destruct (Z.eq_dec a 0) as [Ha0 | Ha0].
        + apply HxN. rewrite <- Hcx, Hm. apply (fresh1_p0 h s Hf). lia.
        + destruct (fresh1_latest h s Hf ltac:(lia)) as (y & Hy & Hyb & Hcy).
          apply (Hleft ltac:(lia)).
          rewrite <- Hpa. apply lookup_app_l_Some, lookup_snoc_old.
          rewrite Hy. f_equal.
          apply (char_of_int_eq_byte y x Hyb); [lia | congruence].
      - right. simpl. destruct (Z.eq_dec (l1_p s) b) as [Hpb | Hpb].
        + exfalso. apply Hright. rewrite <- Hpb, Hhp. congruence.
        + repeat split; lia. }
    cbv zeta.
    destruct (Z.eqb_spec c EOF); [contradiction|].
    destruct (Z.eqb_spec c HEADER_PREFIX) as [Hc | Hc]; cbv beta iota zeta delta [orb].
    + (* the end of the segment *)
      simpl scan1_entries.
      assert (Hs : symbols (c :: fgetc_values fp) = []) by (simpl; rewrite Hc; reflexivity).
      rewrite Hs, app_nil_r in *.
      destruct Hpend as [Hfut | (Hab & Hst & Hlx)]; [lia|].
      rewrite (Hgate s ltac:(lia) Hst Hlx). left. reflexivity.
    + (* another symbol *)
      rewrite scan1_entries_emit. apply in_or_app.
      destruct Hpend as [Hfut | (Hab & Hst & Hlx)].
      * right. rewrite (Hsym Hc) in Hb, Hall, Hleft, Hright.
        apply (IH (h ++ [c]) _ (fresh1_change h s c Hf Hbyte Hm Hc)); try assumption.
        destruct (Z.eq_dec (l1_p s) a) as [Hpa | Hpa]; [|left; simpl; lia].
        right. simpl. split; [lia|]. split; [lia|].
        pose proof (Hall a ltac:(lia)) as Hxa. rewrite <- Hpa in Hxa.
        rewrite Hhp in Hxa.
        inversion Hxa; subst x. apply char_of_int_id. lia.
      * destruct (Z.eq_dec (l1_p s) b) as [Hpb | Hpb].
        -- left. rewrite (Hgate s Hpb Hst Hlx). left. reflexivity.
        -- exfalso. apply Hm. pose proof (Hall (l1_p s) ltac:(lia)) as Hxp.
           rewrite (Hsym Hc), Hhp in Hxp. congruence.
Qed.

(** X12.  With a threshold of at least 2, [scan_seq1] reports every
    maximal run that qualifies: whenever the symbols [a .. b - 1] of the
    segment are all the same ASCII symbol [x], which is not the
    terminator, the symbol before position [a] (if any) and the symbol at
    position [b] (if any) are not [x], and the run has at least
    [threshold] symbols, the call [print_entry(chr, b, b - a, x)] is
    made. *)
Theorem homopolymer_runs_reported
    (chr0 : string) (len : Z) (fp : string) (a b x : Z) :
  2 <= len -> 0 <= x < 128 -> x <> BASE_N -> 0 <= a -> len <= b - a ->
  let hh := symbols (fgetc_values fp) in
  b <= Z.of_nat (length hh) ->
  (forall i, a <= i < b -> hh !! Z.to_nat i = Some x) ->
  (1 <= a -> hh !! Z.to_nat (a - 1) <> Some x) ->
  hh !! Z.to_nat b <> Some x ->
  In (Entry chr0 b (b - a) [x; NUL]) (scan1_entries (scan_seq1 fp chr0 len)).
Proof.
  intros Hlen Hx HxN Ha Hba hh Hb Hall Hleft Hright.
  apply (scan1_loop_complete chr0 len fp a b x Hlen Hx HxN Ha Hba [] _ fresh1_init);
    try assumption.
  left. simpl. exact Ha.
Qed.

Lemma homopolymer_runs_reported_witness :
  In (Entry "chr1" 6 4 [67; NUL]) (scan1_entries (scan_seq1 "AACCCCA" "chr1" 3)).
Proof.
  apply (homopolymer_runs_reported "chr1" 3 "AACCCCA" 2 6 67).
  - lia.
  - lia.
  - unfold BASE_N. lia.
  - lia.
  - lia.
  - vm_compute. discriminate.
  - intros i Hi.
    assert (i = 2 \/ i = 3 \/ i = 4 \/ i = 5) as [-> | [-> | [-> | ->]]] by lia;
      reflexivity.
  - intros _. vm_compute. discriminate.
  - vm_compute. discriminate.
Defined.

Lemma scan1_loop_apart chr0 len fp : forall s,
  1 <= l1_n s ->
  Forall (fun e => l1_p s - l1_n s <= e_p e - e_n e /\ l1_p s <= e_p e /\ 1 <= e_n e)
    (scan1_entries (scan1_loop chr0 len s fp))
  /\ StronglySorted runs_apart (scan1_entries (scan1_loop chr0 len s fp)).
Proof.
  induction fp as [|ch fp IH]; intros s Hn.
  - simpl. rewrite (surjective_pairing (scan1_body chr0 len s EOF)).
    rewrite (surjective_pairing (fst (scan1_body chr0 len s EOF))).
    assert (Hes : scan1_entries
              (match snd (scan1_body chr0 len s EOF) with
               | Continue => Scan1Hangs (fst (fst (scan1_body chr0 len s EOF)))
               | Break => Scan1Returns (fst (fst (scan1_body chr0 len s EOF))) EmptyString
               end) = fst (fst (scan1_body chr0 len s EOF)))
      by (destruct (snd (scan1_body chr0 len s EOF)); reflexivity).
    rewrite Hes, scan1_body_entries.
    destruct ((EOF =? NEWLINE) || (EOF =? l1_last s));
      [split; constructor|].
    destruct ((len <=? l1_n s) && negb (l1_last s =? BASE_N)); [|split; constructor].
    split; [constructor; [simpl; lia | constructor]|].
    constructor; constructor.
  - simpl. unfold scan1_body.
    destruct (int_of_ascii ch =? NEWLINE).
    { rewrite scan1_entries_emit. simpl. apply IH. exact Hn. }
    destruct (int_of_ascii ch =? l1_last s).
    { rewrite scan1_entries_emit. simpl.
      destruct (IH (Loop1 (l1_last s) (l1_p s + 1) (l1_n s + 1)) ltac:(simpl; lia))
        as [Hall Hsorted].
      split; [|exact Hsorted]. simpl in Hall.
      eapply Forall_impl; [exact Hall|]. simpl. intros e He. lia. }
    cbv zeta.
    set (es := if (len <=? l1_n s) && negb (l1_last s =? BASE_N)
               then [Entry chr0 (l1_p s) (l1_n s) [l1_last s; NUL]] else []).
    assert (Hes : Forall (fun e => e_p e = l1_p s /\ e_n e = l1_n s) es
                  /\ (es = [] \/ exists e, es = [e])).
    { subst es. destruct ((len <=? l1_n s) && negb (l1_last s =? BASE_N)).
      - split; [constructor; [split; reflexivity | constructor]|]. right. eauto.
      - split; [constructor | left; reflexivity]. }
    destruct Hes as [Hes Hshape].
    assert (Hes' : Forall (fun e => l1_p s - l1_n s <= e_p e - e_n e
                                    /\ l1_p s <= e_p e /\ 1 <= e_n e) es).
    { eapply Forall_impl; [exact Hes|]. simpl. intros e [-> ->]. lia. }
    assert (Hsort : StronglySorted runs_apart es).
    { destruct Hshape as [-> | [e ->]]; repeat constructor. }
    destruct ((int_of_ascii ch =? EOF) || (int_of_ascii ch =? HEADER_PREFIX)).
    { simpl. split; assumption. }
    rewrite scan1_entries_emit.
    destruct (IH (Loop1 (char_of_int (int_of_ascii ch)) (l1_p s + 1) 1) ltac:(simpl; lia))
      as [Hall Hsorted]. simpl in Hall.
    split.
    + apply Forall_app. split; [exact Hes'|].
      eapply Forall_impl; [exact Hall|]. simpl. intros e He. lia.
    + destruct Hshape as [-> | [e ->]]; [exact Hsorted|]. simpl.
      constructor; [exact Hsorted|].
      inversion Hes as [|? ? [Hp' Hn'] _]; subst.
      eapply Forall_impl; [exact Hall|]. simpl. unfold runs_apart.
      intros e' He'. lia.
Qed.

(** X13.  The records of [scan_seq1] for a segment come in the order of
    the sequence and their runs do not overlap: of any two records, the
    one printed later is for a run that starts at or after the end
    position of the one printed earlier.  Every reported run has at least
    one symbol. *)
Theorem homopolymer_records_in_order (chr0 : string) (len : Z) (fp : string) :
  StronglySorted runs_apart (scan1_entries (scan_seq1 fp chr0 len))
  /\ Forall (fun e => 1 <= e_n e /\ 0 <= e_p e) (scan1_entries (scan_seq1 fp chr0 len)).
Proof.
  destruct (scan1_loop_apart chr0 len fp (Loop1 BASE_N 0 1) ltac:(simpl; lia))
    as [Hall Hsorted].
  split; [exact Hsorted|]. eapply Forall_impl; [exact Hall|]. simpl. intros e He. lia.
Qed.

(** ** The period-N machine on the symbols *)

(** The validator on a ring that holds a window, for any end position. *)
Lemma invalid_repeat_on_window (st : SeqState) (p : Z) (w : list Z) :
  wf_state st -> period st - 1 <= p -> ring_holds_window st p w ->
  call_invalid_repeat st = Some (Z.b2z (degenerate_spec (period st) w)).
Proof.
  intros Hwf Hp [Hlen Hw]. pose proof Hwf as (_ & _ & Hv).
  unfold call_invalid_repeat.
  destruct Hv as [[Hr ->] | [[Hr ->] | [Hr ->]]]; rewrite Hr in *.
  - destruct w as [|a [|b [|? ?]]]; simpl in Hlen; try lia.
    pose proof (Hw 0%nat ltac:(simpl; lia)) as H0.
    pose proof (Hw 1%nat ltac:(simpl; lia)) as H1. simpl in H0, H1.
    pose proof (Z.mod_pos_bound p 2 ltac:(lia)) as Hm.
    assert (p mod 2 = 0 \/ p mod 2 = 1) as [Hc | Hc] by lia;
      window_slots Hc p 2; unfold invalid_repeat2;
      rewrite (lb_lookup st 0 _ ltac:(eassumption)) by lia;
      rewrite (lb_lookup st 1 _ ltac:(eassumption)) by lia; simpl;
      try reflexivity.
    rewrite (Z.eqb_sym b a). reflexivity.
  - destruct w as [|a [|b [|c [|? ?]]]]; simpl in Hlen; try lia.
    pose proof (Hw 0%nat ltac:(simpl; lia)) as H0.
    pose proof (Hw 1%nat ltac:(simpl; lia)) as H1.
    pose proof (Hw 2%nat ltac:(simpl; lia)) as H2. simpl in H0, H1, H2.
    pose proof (Z.mod_pos_bound p 3 ltac:(lia)) as Hm.
    assert (p mod 3 = 0 \/ p mod 3 = 1 \/ p mod 3 = 2) as [Hc | [Hc | Hc]] by lia;
      window_slots Hc p 3; unfold invalid_repeat3;
      rewrite (lb_lookup st 0 _ ltac:(eassumption)) by lia;
      rewrite (lb_lookup st 1 _ ltac:(eassumption)) by lia;
      rewrite (lb_lookup st 2 _ ltac:(eassumption)) by lia; simpl;
      destruct (Z.eqb_spec a b), (Z.eqb_spec b c), (Z.eqb_spec c a);
      simpl; try reflexivity; try congruence;
      repeat match goal with |- context [?x =? ?y] =>
        destruct (Z.eqb_spec x y); simpl; try reflexivity; try congruence end.
  - destruct w as [|a [|b [|c [|d [|? ?]]]]]; simpl in Hlen; try lia.
    pose proof (Hw 0%nat ltac:(simpl; lia)) as H0.
    pose proof (Hw 1%nat ltac:(simpl; lia)) as H1.
    pose proof (Hw 2%nat ltac:(simpl; lia)) as H2.
    pose proof (Hw 3%nat ltac:(simpl; lia)) as H3. simpl in H0, H1, H2, H3.
    pose proof (Z.mod_pos_bound p 4 ltac:(lia)) as Hm.
    assert (p mod 4 = 0 \/ p mod 4 = 1 \/ p mod 4 = 2 \/ p mod 4 = 3)
      as [Hc | [Hc | [Hc | Hc]]] by lia;
      window_slots Hc p 4; unfold invalid_repeat4;
      rewrite (lb_lookup st 0 _ ltac:(eassumption)) by lia;
      rewrite (lb_lookup st 1 _ ltac:(eassumption)) by lia;
      rewrite (lb_lookup st 2 _ ltac:(eassumption)) by lia;
      rewrite (lb_lookup st 3 _ ltac:(eassumption)) by lia; simpl;
      destruct (Z.eqb_spec a c), (Z.eqb_spec b d);
      simpl; try reflexivity; try congruence;
      repeat match goal with |- context [?x =? ?y] =>
        destruct (Z.eqb_spec x y); simpl; try reflexivity; try congruence end.
Qed.

Lemma sub_length h a k :
  0 <= a -> 0 <= k -> a + k <= Z.of_nat (length h) ->
  Z.of_nat (length (sub h a k)) = k.
Proof.
  intros Ha Hk Hl. unfold sub. rewrite length_take, length_drop. lia.
Qed.

Lemma sub_lookup h a k (j : nat) :
  0 <= a -> (Z.of_nat j < k) ->
  sub h a k !! j = h !! Z.to_nat (a + Z.of_nat j).
Proof.
  intros Ha Hj. unfold sub. rewrite lookup_take_lt by lia.
  rewrite lookup_drop. f_equal. lia.
Qed.

Lemma sub_app_l h t a k :
  0 <= a -> 0 <= k -> a + k <= Z.of_nat (length h) ->
  sub (h ++ t) a k = sub h a k.
Proof.
  intros Ha Hk Hl. apply list_eq. intros j.
  destruct (Z_lt_ge_dec (Z.of_nat j) k) as [Hj | Hj].
  - rewrite !sub_lookup by lia. apply lookup_app_l. lia.
  - pose proof (sub_length h a k Ha Hk Hl) as H1.
    assert (Hl' : a + k <= Z.of_nat (length (h ++ t))) by (rewrite length_app; lia).
    pose proof (sub_length (h ++ t) a k Ha Hk Hl') as H2.
    rewrite !lookup_ge_None_2 by lia. reflexivity.
Qed.

Lemma ascii_hist_lookup h (i : nat) x :
  ascii_hist h -> h !! i = Some x -> 0 <= x < 128.
Proof.
  intros Hh Hi. exact (Forall_lookup_1 _ _ _ _ Hh Hi).
Qed.

Lemma ascii_hist_push h c : ascii_hist h -> ascii7 c -> ascii_hist (push h c).
Proof.
  intros Hh Hc. destruct (push_cases h c) as [[-> _] | [-> (_ & He & _)]]; [exact Hh|].
  apply Forall_app. split; [exact Hh|]. constructor; [|constructor].
  destruct Hc as [Hc | Hc]; [contradiction | exact Hc].
Qed.

Lemma ascii7_fgetc_value c : ascii7 c -> fgetc_value c.
Proof. intros [H | H]; [left; exact H | right; unfold is_byte; lia]. Qed.

(** In a fresh state of an ASCII segment the slot of a position of the
    run holds the symbol itself. *)
Lemma fresh_slot h s i :
  fresh h s -> ascii_hist h -> ln_p s - ln_n s <= i < ln_p s ->
  exists x, h !! Z.to_nat i = Some x /\ ordinary x /\ 0 <= x < 128
    /\ r_elements (last_bases (ln_st s)) !! Z.to_nat (i mod period (ln_st s)) = Some x.
Proof.
  intros [Hp Hf] Hh Hi. destruct (Hf i Hi) as (x & Hx & _ & Ho & Hs).
  pose proof (ascii_hist_lookup _ _ _ Hh Hx) as Hr.
  exists x. split; [exact Hx|]. split; [exact Ho|]. split; [exact Hr|].
  rewrite Hs, char_of_int_id by lia. reflexivity.
Qed.

(** What [print_entryN] prints, read off the symbols. *)
Lemma print_entryN_hist h s evs st' :
  scanN_ok s -> period (ln_st s) < st_length (ln_st s) -> fresh h s -> ascii_hist h ->
  print_entryN (ln_st s) (ln_p s) (ln_n s) = Some (evs, st') ->
  entries_of evs
  = hist_print (chr (ln_st s)) (st_length (ln_st s)) (period (ln_st s)) h (ln_n s).
Proof.
  intros [Hwf Hn] Hlen Hf Hh Hpr.
  destruct (print_entryN_ok _ _ _ Hwf Hn)
    as (evs0 & st0 & Hpr0 & Hwf0 & Hlb & _ & _ & _ & Hshort & Hlong).
  rewrite Hpr in Hpr0. injection Hpr0 as <- <-.
  pose proof (wf_state_period _ Hwf) as Hr.
  pose proof Hf as [Hp _].
  unfold hist_print. destruct (Z.leb_spec (st_length (ln_st s)) (ln_n s)) as [Hl | Hl].
  - destruct (Hlong Hl) as [-> Hub]. simpl. rewrite <- Hp. do 2 f_equal.
    destruct Hwf0 as (_ & [Hul Hnul] & _).
    assert (Hper : period st' = period (ln_st s)) by (unfold period; rewrite Hlb; reflexivity).
    rewrite Hper in Hul, Hnul.
    assert (Hsl : Z.of_nat (length (sub h (ln_p s - ln_n s) (period (ln_st s))))
                  = period (ln_st s)) by (apply sub_length; lia).
    apply (list_eq_same_length _ _ (length (unit_buffer st'))); [|reflexivity|].
    { rewrite length_app. simpl. lia. }
    intros j x y Hj Hx Hy.
    destruct (Z_lt_ge_dec (Z.of_nat j) (period (ln_st s))) as [Hjr | Hjr].
    + destruct (Hub (Z.of_nat j) ltac:(lia)) as (x0 & Hx0 & Hu).
      rewrite Nat2Z.id in Hu. rewrite Hx in Hu. injection Hu as ->.
      destruct (fresh_slot h s (ln_p s - ln_n s + Z.of_nat j) Hf Hh ltac:(lia))
        as (z & Hz & _ & Hzr & Hs).
      rewrite Hs in Hx0. injection Hx0 as <-.
      rewrite lookup_app_l in Hy by lia.
      rewrite sub_lookup in Hy by lia. rewrite Hz in Hy. injection Hy as <-.
      apply char_of_int_id. lia.
    + assert (j = Z.to_nat (period (ln_st s))) as -> by lia.
      rewrite Hnul in Hx. injection Hx as <-.
      rewrite lookup_app_r in Hy by lia.
      replace (Z.to_nat (period (ln_st s))
               - length (sub h (ln_p s - ln_n s) (period (ln_st s))))%nat with 0%nat in Hy by lia.
      simpl in Hy. injection Hy as <-. reflexivity.
  - destruct (Hshort Hl) as [-> _]. reflexivity.
Qed.

(** What the validator answers after a write, read off the symbols. *)
Lemma validator_hist h st p :
  wf_state st -> fresh h (LoopN st p (period st)) -> ascii_hist h -> period st <= p ->
  call_invalid_repeat st
  = Some (Z.b2z (degenerate_spec (period st)
                   (sub h (Z.of_nat (length h) - period st) (period st)))).
Proof.
  intros Hwf Hf Hh Hp. pose proof (wf_state_period _ Hwf) as Hr.
  pose proof Hf as [Hpl _]. simpl in Hpl. rewrite <- Hpl.
  assert (Hsl : Z.of_nat (length (sub h (p - period st) (period st))) = period st)
    by (apply sub_length; lia).
  apply (invalid_repeat_on_window st (p - 1)); [exact Hwf | lia |].
  split; [exact Hsl|]. intros k Hk.
  destruct (fresh_slot h _ (p - period st + Z.of_nat k) Hf Hh ltac:(simpl; lia))
    as (x & Hx & _ & _ & Hs). simpl in Hs.
  replace (p - 1 - period st + 1 + Z.of_nat k) with (p - period st + Z.of_nat k) by lia.
  rewrite Hs, sub_lookup by lia. symmetry. exact Hx.
Qed.

Lemma b2z_inj (a b : bool) : Z.b2z a = Z.b2z b -> a = b.
Proof. destruct a, b; simpl; congruence. Qed.

Lemma hist_body_ordinary chr0 L r h n c :
  ordinary c ->
  hist_body chr0 L r h n c
  = if n <? r - 1 then ([], (h ++ [c], n + 1), Continue)
    else if r - 1 <? n then
      if hist_matches r h c then ([], (h ++ [c], n + 1), Continue)
      else (hist_print chr0 L r h n, (h ++ [c], hist_next_n r (h ++ [c])), Continue)
    else ([], (h ++ [c], hist_next_n r (h ++ [c])), Continue).
Proof.
  intros (H1 & H2 & H3 & H4). unfold hist_body.
  destruct (Z.eqb_spec c NEWLINE); [contradiction|].
  destruct (Z.eqb_spec c BASE_N); [contradiction|].
  destruct (Z.eqb_spec c EOF); [contradiction|].
  destruct (Z.eqb_spec c HEADER_PREFIX); [contradiction|]. reflexivity.
Qed.

(** One iteration of the scanner is one step of the machine on the
    symbols. *)
Lemma scanN_body_hist h s c :
  scanN_ok s -> period (ln_st s) < st_length (ln_st s) -> fresh h s ->
  ascii_hist h -> ascii7 c ->
  exists evs s' k,
    scanN_body s c = Some (evs, s', k)
    /\ hist_body (chr (ln_st s)) (st_length (ln_st s)) (period (ln_st s)) h (ln_n s) c
       = (entries_of evs, (push h c, ln_n s'), k).
Proof.
  intros Hok Hlen Hf Hh Hc. pose proof Hok as [Hwf Hn].
  pose proof (wf_state_period _ Hwf) as Hr. pose proof Hf as [Hp _].
  destruct s as [st p n]. simpl in *.
  destruct (ordinary_dec c) as [-> | [-> | [He | Ho]]].
  - exists [], (LoopN st p n), Continue. split; [apply scanN_body_newline|].
    reflexivity.
  - destruct (print_entryN_ok _ _ _ Hwf Hn) as (evs & st' & Hpr & _).
    exists evs, (LoopN st' (p + 1) 0), Continue. split.
    + rewrite scanN_body_N. simpl. rewrite Hpr. reflexivity.
    + rewrite (print_entryN_hist h (LoopN st p n) evs st' Hok Hlen Hf Hh Hpr).
      reflexivity.
  - destruct (print_entryN_ok _ _ _ Hwf Hn) as (evs & st' & Hpr & _).
    exists evs, (LoopN st' p n), Break. split.
    + rewrite (scanN_body_end _ _ He). simpl. rewrite Hpr. reflexivity.
    + rewrite (print_entryN_hist h (LoopN st p n) evs st' Hok Hlen Hf Hh Hpr).
      rewrite (push_end _ _ He). simpl.
      unfold hist_body. destruct He as [-> | ->]; reflexivity.
  - assert (Hcb : is_byte c).
    { destruct Hc as [-> | Hc]; [destruct Ho as (_ & _ & Ho & _); contradiction|].
      unfold is_byte. lia. }
    rewrite (hist_body_ordinary _ _ _ _ _ _ Ho), (push_ordinary _ _ Ho).
    destruct (Z.ltb_spec n (period st - 1)) as [Hfill | Hnf].
    + destruct (scanN_body_fill (LoopN st p n) c Hok Ho Hfill)
        as (ring & _ & _ & _ & _ & Hb).
      eexists _, _, _. split; [exact Hb|]. reflexivity.
    + destruct (Z.ltb_spec (period st - 1) n) as [Hcmp | Hbd].
      * destruct (scanN_body_compare (LoopN st p n) c Hok Ho ltac:(simpl; lia))
          as (c0 & _ & Hslot & Heq & Hne). simpl in Hslot, Heq, Hne.
        destruct (fresh_slot h (LoopN st p n) (p - period st) Hf Hh ltac:(simpl; lia))
          as (x & Hx & _ & _ & Hs). simpl in Hs.
        replace ((p - period st) mod period st) with (p mod period st) in Hs
          by (replace (p - period st) with (p + (-1) * period st) by lia;
              rewrite Z_mod_plus_full; reflexivity).
        rewrite Hs in Hslot. injection Hslot as <-.
        unfold hist_matches. rewrite <- Hp, Hx.
        destruct (Z.eqb_spec x c) as [Hxc | Hxc].
        -- eexists _, _, _. split; [exact (Heq Hxc)|]. reflexivity.
        -- destruct (Hne Hxc)
             as (evs & st1 & ring & b & Hpr & Hlb & _ & Hwr & Hrs & _ & Hv & Hb).
           eexists _, _, _. split; [exact Hb|].
           rewrite entries_of_app. simpl. rewrite app_nil_r.
           rewrite (print_entryN_hist h (LoopN st p n) evs st1 Hok Hlen Hf Hh Hpr).
           simpl. do 3 f_equal.
           destruct (print_entryN_ok _ _ _ Hwf Hn)
             as (evs0 & st0 & Hpr0 & Hwf1 & _).
           rewrite Hpr in Hpr0. injection Hpr0 as <- <-.
           assert (Hper : period st1 = period st)
             by (unfold period; rewrite Hlb; reflexivity).
           assert (Hf1 : fresh h (LoopN st1 p n)) by (apply (fresh_same_ring h st); assumption).
           assert (Hwr1 : write_ring (last_bases st1) p c = Some ring)
             by (rewrite Hlb; exact Hwr).
           pose proof (fresh_write h st1 p n c ring (period st1) Hwf1 Hf1 Hn Hcb Ho Hwr1
                         ltac:(lia) ltac:(lia)) as Hf2.
           assert (Hwf2 : wf_state (set_last_bases st1 ring)).
           { apply set_last_bases_wf; [exact Hwf1 | | lia].
             eapply write_ring_wf; [| exact Hwr1]. apply Hwf1. }
           assert (Hper2 : period (set_last_bases st1 ring) = period st1)
             by (rewrite Hper; unfold period; simpl; exact Hrs).
           rewrite <- Hper2 in Hf2.
           pose proof (validator_hist _ _ _ Hwf2 Hf2
                         ltac:(apply Forall_app; split; [exact Hh | constructor; [destruct Hc; [destruct Ho as (_&_&?&_); contradiction | assumption] | constructor]])
                         ltac:(lia)) as Hv2.
           rewrite Hv in Hv2. injection Hv2 as Hv2. apply b2z_inj in Hv2.
           unfold hist_next_n. rewrite Hper2, Hper in Hv2. rewrite <- Hv2.
           destruct b; simpl; lia.
      * assert (Hnb : n = period st - 1) by lia.
        destruct (scanN_body_boundary (LoopN st p n) c Hok Ho Hnb)
          as (ring & b & Hwr & Hwf2 & Hrs & _ & Hv & Hb). simpl in *.
        eexists _, _, _. split; [exact Hb|]. simpl. do 3 f_equal.
        pose proof (fresh_write h st p n c ring (period st) Hwf Hf Hn Hcb Ho Hwr
                      ltac:(lia) ltac:(lia)) as Hf2.
        assert (Hper2 : period (set_last_bases st ring) = period st)
          by (unfold period; simpl; exact Hrs).
        rewrite <- Hper2 in Hf2.
        pose proof (validator_hist _ _ _ Hwf2 Hf2
                      ltac:(apply Forall_app; split; [exact Hh | constructor; [destruct Hc; [destruct Ho as (_&_&?&_); contradiction | assumption] | constructor]])
                      ltac:(lia)) as Hv2.
        rewrite Hv in Hv2. injection Hv2 as Hv2. apply b2z_inj in Hv2.
        unfold hist_next_n. rewrite Hper2 in Hv2. rewrite <- Hv2.
        destruct b; simpl; lia.
Qed.

Lemma hist_run_cons chr0 L r h n c cs :
  hist_run chr0 L r h n (c :: cs)
  = let '(es, (h', n'), k) := hist_body chr0 L r h n c in
    match k with
    | Break => (es, (h', n'), Break)
    | Continue =>
        let '(es', hn, k') := hist_run chr0 L r h' n' cs in
        (es ++ es', hn, k')
    end.
Proof. reflexivity. Qed.

(** The scanner run on the values of [fgetc] is the machine on the
    symbols run on them. *)
Lemma scanN_run_hist cs : forall h s,
  scanN_ok s -> period (ln_st s) < st_length (ln_st s) -> fresh h s -> ascii_hist h ->
  Forall ascii7 cs ->
  exists evs s' k,
    scanN_run s cs = Some (evs, s', k)
    /\ hist_run (chr (ln_st s)) (st_length (ln_st s)) (period (ln_st s)) h (ln_n s) cs
       = (entries_of evs, (h ++ symbols cs, ln_n s'), k).
Proof.
  induction cs as [|c cs IH]; intros h s Hok Hlen Hf Hh Hcs.
  - exists [], s, Continue. split; [reflexivity|]. simpl. rewrite app_nil_r. reflexivity.
  - inversion Hcs as [|? ? Hc Hcs']; subst.
    destruct (scanN_body_hist h s c Hok Hlen Hf Hh Hc) as (evs & s1 & k & Hb & Hhb).
    destruct (scanN_body_fresh h s c Hok Hlen Hf (ascii7_fgetc_value _ Hc))
      as (evs0 & s0 & k0 & Hb0 & Hok1 & Hcfg & Hf1 & _ & Hk).
    rewrite Hb in Hb0. injection Hb0 as <- <- <-.
    rewrite hist_run_cons, Hhb.
    change (scanN_run s (c :: cs))
      with ('(evs, s', k) ← scanN_body s c;
            match k with
            | Break => Some (evs, s', Break)
            | Continue =>
                '(evs', s'', k') ← scanN_run s' cs;
                Some (evs ++ evs', s'', k')
            end).
    rewrite Hb. cbn [mbind option_bind].
    destruct k.
    + assert (Hne : c <> EOF /\ c <> HEADER_PREFIX).
      { split; intros ->; assert (Continue = Break) by (apply Hk; auto); discriminate. }
      destruct Hne as [Hne1 Hne2].
      destruct Hcfg as (Hper & Hl & _ & Hchr).
      assert (Hlen1 : period (ln_st s1) < st_length (ln_st s1)) by lia.
      destruct (IH (push h c) s1 Hok1 Hlen1 Hf1 (ascii_hist_push _ _ Hh Hc) Hcs')
        as (evs' & s2 & k' & Hr & Hhr).
      rewrite Hper, Hl, Hchr in Hhr. rewrite Hhr.
      exists (evs ++ evs'), s2, k'. split.
      * rewrite Hr. reflexivity.
      * rewrite entries_of_app, (symbols_push c cs Hne1 Hne2). reflexivity.
    + assert (He : c = EOF \/ c = HEADER_PREFIX) by (apply Hk; reflexivity).
      exists evs, s1, Break. split; [reflexivity|].
      rewrite (symbols_end _ _ He), app_nil_r, (push_end _ _ He). reflexivity.
Qed.

Lemma snoc_old (h : list Z) c i :
  0 <= i < Z.of_nat (length h) -> (h ++ [c]) !! Z.to_nat i = h !! Z.to_nat i.
Proof. intros Hi. apply lookup_app_l. lia. Qed.

Lemma app_old (h t : list Z) i :
  0 <= i < Z.of_nat (length h) -> (h ++ t) !! Z.to_nat i = h !! Z.to_nat i.
Proof. intros Hi. apply lookup_app_l. lia. Qed.

Lemma length_snoc (h : list Z) c : Z.of_nat (length (h ++ [c])) = Z.of_nat (length h) + 1.
Proof. rewrite length_app. simpl. lia. Qed.

Lemma hist_body_cases chr0 L r h n c :
  let p := Z.of_nat (length h) in
  c = NEWLINE /\ hist_body chr0 L r h n c = ([], (h, n), Continue)
  \/ c = BASE_N
     /\ hist_body chr0 L r h n c = (hist_print chr0 L r h n, (h ++ [c], 0), Continue)
  \/ (c = EOF \/ c = HEADER_PREFIX)
     /\ hist_body chr0 L r h n c = (hist_print chr0 L r h n, (h, n), Break)
  \/ ordinary c /\ n < r - 1
     /\ hist_body chr0 L r h n c = ([], (h ++ [c], n + 1), Continue)
  \/ ordinary c /\ r <= n /\ h !! Z.to_nat (p - r) = Some c
     /\ hist_body chr0 L r h n c = ([], (h ++ [c], n + 1), Continue)
  \/ ordinary c /\ r <= n /\ h !! Z.to_nat (p - r) <> Some c
     /\ hist_body chr0 L r h n c
        = (hist_print chr0 L r h n, (h ++ [c], hist_next_n r (h ++ [c])), Continue)
  \/ ordinary c /\ n = r - 1
     /\ hist_body chr0 L r h n c = ([], (h ++ [c], hist_next_n r (h ++ [c])), Continue).
Proof.
  intros p. destruct (ordinary_dec c) as [-> | [-> | [He | Ho]]].
  - left. split; reflexivity.
  - right. left. split; reflexivity.
  - right. right. left. split; [exact He|]. destruct He as [-> | ->]; reflexivity.
  - do 3 right. rewrite (hist_body_ordinary _ _ _ _ _ _ Ho).
    destruct (Z.ltb_spec n (r - 1)) as [H1 | H1]; [left; auto|].
    destruct (Z.ltb_spec (r - 1) n) as [H2 | H2].
    + unfold hist_matches. fold p.
      destruct (h !! Z.to_nat (p - r)) as [x|] eqn:Hx.
      * destruct (Z.eqb_spec x c) as [-> | Hne].
        -- right. left. split; [exact Ho|]. split; [lia|]. split; reflexivity.
        -- right. right. left. split; [exact Ho|]. split; [lia|]. split; [|reflexivity].
           intros Heq. injection Heq as ->. contradiction.
      * right. right. left. split; [exact Ho|]. split; [lia|]. split; [|reflexivity].
        discriminate.
    + do 3 right. split; [exact Ho|]. split; [lia | reflexivity].
Qed.

Lemma hist_next_n_cases r h :
  degenerate_spec r (sub h (Z.of_nat (length h) - r) r) = false /\ hist_next_n r h = r
  \/ degenerate_spec r (sub h (Z.of_nat (length h) - r) r) = true /\ hist_next_n r h = r - 1.
Proof.
  unfold hist_next_n.
  destruct (degenerate_spec r (sub h (Z.of_nat (length h) - r) r));
    [right | left]; split; simpl; try reflexivity; lia.
Qed.

(** A window and the next one. *)
Lemma sub_shift h a r c :
  0 <= a -> 0 < r -> a + r = Z.of_nat (length h) ->
  exists x0 ws,
    sub h a r = x0 :: ws /\ h !! Z.to_nat a = Some x0
    /\ sub (h ++ [c]) (a + 1) r = ws ++ [c].
Proof.
  intros Ha Hr Hl. unfold sub.
  assert (Hd : length (drop (Z.to_nat a) h) = Z.to_nat r) by (rewrite length_drop; lia).
  rewrite take_ge by lia.
  destruct (drop (Z.to_nat a) h) as [|x0 ws] eqn:Hdrop; [simpl in Hd; lia|].
  exists x0, ws. split; [reflexivity|]. split.
  - rewrite <- (Nat.add_0_r (Z.to_nat a)), <- lookup_drop, Hdrop. reflexivity.
  - replace (Z.to_nat (a + 1)) with (S (Z.to_nat a)) by lia.
    rewrite drop_app_le by lia.
    replace (S (Z.to_nat a)) with (Z.to_nat a + 1)%nat by lia.
    rewrite <- drop_drop, Hdrop. simpl. rewrite drop_0.
    apply take_ge. rewrite length_app. simpl in *. lia.
Qed.

(** A degenerate window followed by one that is not: the new symbol
    differs from the one that left the window. *)
Lemma degenerate_shift r x0 ws c :
  Z.of_nat (length (x0 :: ws)) = r ->
  degenerate_spec r (x0 :: ws) = true ->
  degenerate_spec r (ws ++ [c]) = false -> x0 <> c.
Proof.
  intros Hl Hd Hv ->.
  destruct ws as [|x1 [|x2 [|x3 [|? ?]]]]; simpl in Hd, Hv; try discriminate.
  - destruct (r =? 2); simpl in *; [|discriminate].
    apply Z.eqb_eq in Hd. subst. rewrite Z.eqb_refl in Hv. discriminate.
  - destruct (r =? 3); simpl in *; [|discriminate].
    apply andb_true_iff in Hd as [H1 H2]. apply Z.eqb_eq in H1, H2. subst.
    rewrite Z.eqb_refl in Hv. discriminate.
  - destruct (r =? 4); simpl in *; [|discriminate].
    apply andb_true_iff in Hd as [H1 H2]. apply Z.eqb_eq in H1, H2. subst.
    rewrite !Z.eqb_refl in Hv. discriminate.
Qed.

Lemma run_inv_init r : 2 <= r -> run_inv r [] 0.
Proof.
  intros Hr. unfold run_inv. cbv zeta. simpl length. change (Z.of_nat 0) with 0.
  split; [lia|]. split; [intros; lia|]. split; [intros; lia|]. split; [intros; lia|].
  split; [left; reflexivity|]. intros; lia.
Qed.

Lemma run_inv_N r h : 2 <= r -> run_inv r (h ++ [BASE_N]) 0.
Proof.
  intros Hr. unfold run_inv. cbv zeta. rewrite length_snoc.
  split; [lia|]. split; [intros; lia|]. split; [intros; lia|]. split; [intros; lia|].
  split.
  - right. left. apply lookup_snoc_last. lia.
  - intros m Hm Hall. destruct (Z.eq_dec m 0) as [-> | Hm0]; [lia|].
    exfalso. apply (Hall (Z.of_nat (length h))); [lia|].
    apply lookup_snoc_last. reflexivity.
Qed.

(** The run grows by a symbol: in the filling phase, or on a match. *)
Lemma run_inv_extend r h n c :
  2 <= r -> run_inv r h n -> c <> BASE_N ->
  (n < r - 1 \/ r <= n /\ h !! Z.to_nat (Z.of_nat (length h) - r) = Some c) ->
  run_inv r (h ++ [c]) (n + 1).
Proof.
  intros Hr (Hn & Hno & Hper & Hdeg & Hleft & HK) HcN Hcase.
  unfold run_inv. cbv zeta. rewrite length_snoc.
  set (p := Z.of_nat (length h)) in *.
  split; [lia|]. split.
  { intros i Hi. destruct (Z.eq_dec i p) as [-> | Hip].
    - rewrite (lookup_snoc_last h c p) by reflexivity. congruence.
    - rewrite snoc_old by (fold p; lia). apply Hno. lia. }
  split.
  { intros i H1 H2. destruct Hcase as [Hf | [Hrn Hm]]; [lia|].
    destruct (Z.eq_dec (i + r) p) as [Heq | Hne].
    - rewrite Heq, (lookup_snoc_last h c p) by reflexivity. rewrite snoc_old by (fold p; lia).
      replace i with (p - r) by lia. exact Hm.
    - rewrite !snoc_old by (fold p; lia). apply Hper; lia. }
  split.
  { intros Hrn. destruct Hcase as [Hf | [Hrn' Hm]]; [lia|].
    replace (p + 1 - (n + 1)) with (p - n) by lia.
    rewrite sub_app_l by (fold p; lia). apply Hdeg. lia. }
  split.
  { replace (p + 1 - (n + 1)) with (p - n) by lia.
    destruct (Z.eq_dec (p - n) 0) as [Hz | Hnz]; [left; exact Hz|].
    destruct Hleft as [H | [H | [[H1 H2] | (H1 & _)]]].
    - contradiction.
    - right. left. rewrite snoc_old by (fold p; lia). exact H.
    - right. right. left. split; [lia|]. rewrite !snoc_old by (fold p; lia). exact H2.
    - destruct Hcase as [Hf | [Hrn' Hm]]; lia. }
  intros m Hm Hall. destruct (Z.eq_dec m 0) as [-> | Hm0]; [lia|].
  assert (Z.min (m - 1) (r - 1) <= n); [|lia].
  apply HK; [lia|]. intros i Hi. rewrite <- (snoc_old h c) by (fold p; lia).
  apply Hall. lia.
Qed.

(** The run restarts with the window that ends at the new symbol: at the
    boundary, or after a mismatch. *)
Lemma run_inv_restart r h n c :
  2 <= r -> run_inv r h n -> c <> BASE_N -> r - 1 <= n ->
  (n = r - 1 \/ h !! Z.to_nat (Z.of_nat (length h) - r) <> Some c) ->
  run_inv r (h ++ [c]) (hist_next_n r (h ++ [c])).
Proof.
  intros Hr (Hn & Hno & Hper & Hdeg & Hleft & HK) HcN Hn1 Hcase.
  assert (HnoN : forall i, Z.of_nat (length h) + 1 - r <= i < Z.of_nat (length h) + 1 ->
                   (h ++ [c]) !! Z.to_nat i <> Some BASE_N).
  { intros i Hi. destruct (Z.eq_dec i (Z.of_nat (length h))) as [-> | Hip].
    - rewrite (lookup_snoc_last h c (Z.of_nat (length h))) by reflexivity. congruence.
    - rewrite snoc_old by lia. apply Hno. lia. }
  destruct (hist_next_n_cases r (h ++ [c])) as [[Hv ->] | [Hd ->]];
    rewrite length_snoc in *; unfold run_inv; cbv zeta; rewrite length_snoc;
    set (p := Z.of_nat (length h)) in *.
  - split; [lia|]. split; [intros i Hi; apply HnoN; lia|]. split; [intros; lia|].
    split; [intros _; exact Hv|]. split; [|intros; lia].
    destruct (Z.eq_dec (p + 1 - r) 0) as [Hz | Hnz]; [left; exact Hz|].
    right. right. left. split; [lia|].
    replace (p + 1 - r - 1) with (p - r) by lia. replace (p - r + r) with p by lia.
    rewrite (lookup_snoc_last h c p) by reflexivity. rewrite snoc_old by (fold p; lia).
    destruct Hcase as [Hnr | Hm]; [|exact Hm].
    destruct Hleft as [H | [H | [[H1 _] | (_ & _ & _ & Hdw)]]]; try lia.
    + replace (p - n - 1) with (p - r) in H by lia. rewrite H. congruence.
    + destruct (sub_shift h (p - r) r c ltac:(lia) ltac:(lia) ltac:(fold p; lia))
        as (x0 & ws & Hs & Hx0 & Hs').
      replace (p - r + 1) with (p + 1 - r) in Hs' by lia.
      rewrite Hs in Hdw. rewrite Hs' in Hv. rewrite Hx0.
      intros Heq. injection Heq as Heq. revert Heq.
      apply (degenerate_shift r x0 ws c); try assumption.
      rewrite <- Hs. apply sub_length; fold p; lia.
  - split; [lia|]. split; [intros i Hi; apply HnoN; lia|]. split; [intros; lia|].
    split; [intros; lia|]. split; [|intros; lia].
    right. right. right. split; [reflexivity|]. split; [lia|]. split; [|exact Hd].
    intros i Hi. apply HnoN. lia.
Qed.

Lemma run_inv_step chr0 L r h n c es h' n' k :
  2 <= r -> run_inv r h n ->
  hist_body chr0 L r h n c = (es, (h', n'), k) -> run_inv r h' n'.
Proof.
  intros Hr Hinv Hb.
  destruct (hist_body_cases chr0 L r h n c)
    as [[_ H] | [[Hc H] | [[_ H] | [(Ho & Hn & H) | [(Ho & Hn & Hm & H)
        | [(Ho & Hn & Hm & H) | (Ho & Hn & H)]]]]]];
    rewrite H in Hb; injection Hb as <- <- <- <-; try exact Hinv.
  - subst c. apply (run_inv_N r h Hr).
  - apply run_inv_extend; [exact Hr | exact Hinv | apply Ho | left; exact Hn].
  - apply run_inv_extend; [exact Hr | exact Hinv | apply Ho | right; split; assumption].
  - apply (run_inv_restart r h n c); [exact Hr | exact Hinv | apply Ho | lia | right; exact Hm].
  - apply (run_inv_restart r h n c); [exact Hr | exact Hinv | apply Ho | lia | left; exact Hn].
Qed.

Lemma symbols_cons c cs :
  c <> EOF -> c <> HEADER_PREFIX -> c <> NEWLINE -> symbols (c :: cs) = c :: symbols cs.
Proof.
  intros H1 H2 H3. simpl.
  destruct (Z.eqb_spec c EOF); [contradiction|].
  destruct (Z.eqb_spec c HEADER_PREFIX); [contradiction|].
  destruct (Z.eqb_spec c NEWLINE); [contradiction|]. reflexivity.
Qed.

Lemma symbols_newline cs : symbols (NEWLINE :: cs) = symbols cs.
Proof. reflexivity. Qed.

Lemma hist_run_cons_inv chr0 L r h n c cs es hn k :
  hist_run chr0 L r h n (c :: cs) = (es, hn, k) ->
  exists es0 h' n' k0,
    hist_body chr0 L r h n c = (es0, (h', n'), k0)
    /\ (k0 = Break /\ es = es0 /\ hn = (h', n') /\ k = Break
        \/ k0 = Continue
           /\ exists es', hist_run chr0 L r h' n' cs = (es', hn, k) /\ es = es0 ++ es').
Proof.
  rewrite hist_run_cons.
  destruct (hist_body chr0 L r h n c) as [[es0 [h' n']] k0].
  exists es0, h', n', k0. split; [reflexivity|].
  destruct k0.
  - right. split; [reflexivity|].
    destruct (hist_run chr0 L r h' n' cs) as [[es' hn'] k'].
    injection H as <- <- <-. exists es'. split; reflexivity.
  - left. injection H as <- <- <-. repeat split.
Qed.

(** A record printed in state [(h, n)] before the symbols [t], the
    first of which ends the run. *)
Lemma hist_print_sound chr0 L r h n t e :
  2 <= r -> r < L -> run_inv r h n ->
  In e (hist_print chr0 L r h n) ->
  (t = [] \/ exists c t', t = c :: t'
      /\ (c = BASE_N \/ h !! Z.to_nat (Z.of_nat (length h) - r) <> Some c)) ->
  reported_run chr0 L r (h ++ t) e.
Proof.
  intros Hr HL (Hn & Hno & Hper & Hdeg & Hleft & HK) He Ht.
  unfold hist_print in He. set (p := Z.of_nat (length h)) in *.
  destruct (Z.leb_spec L n) as [Hl | Hl]; [|destruct He].
  destruct He as [<- | []]. unfold reported_run. simpl.
  split; [reflexivity|]. split; [exact Hl|].
  split; [rewrite sub_app_l by (fold p; lia); reflexivity|].
  split; [|split].
  - unfold tandem_run. split; [lia|]. split; [rewrite length_app; fold p; lia|].
    split; [|split].
    + intros i Hi. rewrite app_old by (fold p; lia). apply Hno. lia.
    + intros i H1 H2. rewrite !app_old by (fold p; lia). apply Hper; lia.
    + rewrite sub_app_l by (fold p; lia). apply Hdeg. lia.
  - unfold left_maximal. destruct (Z.eq_dec (p - n) 0) as [Hz | Hnz]; [left; exact Hz|].
    destruct Hleft as [H | [H | [[H1 H2] | (H1 & _)]]]; [contradiction | | | lia].
    + right. left. rewrite app_old by (fold p; lia). exact H.
    + right. right. rewrite !app_old by (fold p; lia). exact H2.
  - unfold right_maximal. destruct Ht as [-> | (c & t' & -> & Hc)].
    + left. rewrite app_nil_r. reflexivity.
    + right. assert (Hp : (h ++ c :: t') !! Z.to_nat p = Some c).
      { unfold p. rewrite Nat2Z.id. apply list_lookup_middle. reflexivity. }
      rewrite Hp. destruct Hc as [-> | Hc]; [left; reflexivity|].
      right. rewrite app_old by (fold p; lia). congruence.
Qed.

(** Every record of a run of the machine on the symbols. *)
Lemma hist_run_sound chr0 L r cs : forall h n es hn k,
  2 <= r -> r < L -> run_inv r h n ->
  hist_run chr0 L r h n cs = (es, hn, k) ->
  forall e, In e es -> reported_run chr0 L r (h ++ symbols cs) e.
Proof.
  induction cs as [|c cs IH]; intros h n es hn k Hr HL Hinv Hrun e He.
  - simpl in Hrun. injection Hrun as <- <- <-. destruct He.
  - destruct (hist_run_cons_inv _ _ _ _ _ _ _ _ _ _ Hrun)
      as (es0 & h' & n' & k0 & Hb & Hk).
    pose proof (run_inv_step _ _ _ _ _ _ _ _ _ _ Hr Hinv Hb) as Hinv'.
    assert (Hrest : forall es', k0 = Continue ->
              hist_run chr0 L r h' n' cs = (es', hn, k) -> In e es' ->
              reported_run chr0 L r (h' ++ symbols cs) e).
    { intros es' _ Hrun' He'. exact (IH h' n' es' hn k Hr HL Hinv' Hrun' e He'). }
    destruct (hist_body_cases chr0 L r h n c)
      as [[Hc H] | [[Hc H] | [[Hc H] | [(Ho & Hn & H) | [(Ho & Hn & Hm & H)
          | [(Ho & Hn & Hm & H) | (Ho & Hn & H)]]]]]];
      rewrite H in Hb; injection Hb as <- <- <- <-.
    + subst c. destruct Hk as [(Hk & _) | (_ & es' & Hrun' & ->)]; [discriminate|].
      rewrite symbols_newline. simpl in He. eauto.
    + subst c. destruct Hk as [(Hk & _) | (_ & es' & Hrun' & ->)]; [discriminate|].
      rewrite symbols_cons by discriminate.
      apply in_app_or in He as [He | He].
      * apply (hist_print_sound _ _ _ _ n); try assumption. right. eauto.
      * replace (h ++ BASE_N :: symbols cs) with ((h ++ [BASE_N]) ++ symbols cs)
          by (rewrite <- app_assoc; reflexivity). eauto.
    + destruct Hk as [(_ & -> & _) | (Hk & _)]; [|discriminate].
      rewrite (symbols_end _ _ Hc).
      apply (hist_print_sound _ _ _ _ n); try assumption. left. reflexivity.
    + destruct Hk as [(Hk & _) | (_ & es' & Hrun' & ->)]; [discriminate|].
      destruct Ho as (Ho1 & Ho2 & Ho3 & Ho4). rewrite symbols_cons by assumption.
      replace (h ++ c :: symbols cs) with ((h ++ [c]) ++ symbols cs)
        by (rewrite <- app_assoc; reflexivity). simpl in He. eauto.
    + destruct Hk as [(Hk & _) | (_ & es' & Hrun' & ->)]; [discriminate|].
      destruct Ho as (Ho1 & Ho2 & Ho3 & Ho4). rewrite symbols_cons by assumption.
      replace (h ++ c :: symbols cs) with ((h ++ [c]) ++ symbols cs)
        by (rewrite <- app_assoc; reflexivity). simpl in He. eauto.
    + destruct Hk as [(Hk & _) | (_ & es' & Hrun' & ->)]; [discriminate|].
      destruct Ho as (Ho1 & Ho2 & Ho3 & Ho4). rewrite symbols_cons by assumption.
      apply in_app_or in He as [He | He].
      * apply (hist_print_sound _ _ _ _ n); try assumption. right. eauto.
      * replace (h ++ c :: symbols cs) with ((h ++ [c]) ++ symbols cs)
          by (rewrite <- app_assoc; reflexivity). eauto.
    + destruct Hk as [(Hk & _) | (_ & es' & Hrun' & ->)]; [discriminate|].
      destruct Ho as (Ho1 & Ho2 & Ho3 & Ho4). rewrite symbols_cons by assumption.
      replace (h ++ c :: symbols cs) with ((h ++ [c]) ++ symbols cs)
        by (rewrite <- app_assoc; reflexivity). simpl in He. eauto.
Qed.

(** Once the first [r] symbols of a repeat that cannot be extended to the
    left are in, the machine is on it. *)
Lemma run_inv_locks r h t n a b :
  2 <= r -> run_inv r h n ->
  tandem_run r (h ++ t) a b -> left_maximal r (h ++ t) a ->
  Z.of_nat (length h) = a + r -> n = r.
Proof.
  intros Hr (Hn & Hno & Hper & Hdeg & Hleft & HK) (Ha & Hb & Htn & Htp & Htd) Hlm Hp.
  set (p := Z.of_nat (length h)) in *.
  assert (HnoN : forall i, a <= i < p -> h !! Z.to_nat i <> Some BASE_N).
  { intros i Hi. rewrite <- (app_old h t) by (fold p; lia). apply Htn. lia. }
  assert (H1 : r - 1 <= n).
  { pose proof (HK r ltac:(lia) ltac:(intros i Hi; apply HnoN; lia)). lia. }
  assert (H2 : n <= r).
  { destruct (Z_le_gt_dec n r) as [H | H]; [exact H|]. exfalso.
    destruct Hlm as [Hz | [HN | Hne]].
    - lia.
    - rewrite app_old in HN by (fold p; lia). apply (Hno (a - 1)); [lia | exact HN].
    - rewrite !app_old in Hne by (fold p; lia). apply Hne. apply Hper; lia. }
  destruct (Z.eq_dec n r) as [H | H]; [exact H|]. exfalso.
  assert (Hn' : n = r - 1) by lia.
  destruct Hleft as [Hz | [HN | [[Hrn _] | (_ & _ & _ & Hd)]]].
  - lia.
  - replace (p - n - 1) with a in HN by lia. apply (HnoN a); [lia | exact HN].
  - lia.
  - replace (p - r) with a in Hd by lia.
    rewrite sub_app_l in Htd by (fold p; lia). congruence.
Qed.

Lemma hist_print_long chr0 L r h n :
  L <= n ->
  hist_print chr0 L r h n
  = [Entry chr0 (Z.of_nat (length h)) n (sub h (Z.of_nat (length h) - n) r ++ [NUL])].
Proof.
  intros Hl. unfold hist_print. destruct (Z.leb_spec L n); [reflexivity | lia].
Qed.

(** Every repeat that cannot be extended and is long enough is printed
    by a run of the machine on the symbols that ends the segment. *)
Lemma hist_run_complete chr0 L r a b cs : forall h n hh es hn,
  2 <= r -> run_inv r h n -> hh = h ++ symbols cs ->
  tandem_run r hh a b -> left_maximal r hh a -> right_maximal r hh b ->
  L <= b - a ->
  (Z.of_nat (length h) <= a + r
   \/ a + r <= Z.of_nat (length h) <= b /\ n = Z.of_nat (length h) - a) ->
  hist_run chr0 L r h n cs = (es, hn, Break) ->
  In (Entry chr0 b (b - a) (sub hh a r ++ [NUL])) es.
Proof.
  induction cs as [|c cs IH]; intros h n hh es hn Hr Hinv Hhh Ht Hlm Hrm HL Hpend Hrun.
  - simpl in Hrun. discriminate.
  - destruct (hist_run_cons_inv _ _ _ _ _ _ _ _ _ _ Hrun)
      as (es0 & h' & n' & k0 & Hb & Hk).
    pose proof (run_inv_step _ _ _ _ _ _ _ _ _ _ Hr Hinv Hb) as Hinv'.
    set (p := Z.of_nat (length h)) in *.
    pose proof Ht as (Ha & Hbb & Htn & Htp & Htd).
    assert (Hpend' : p < a + r \/ a + r <= p <= b /\ n = p - a).
    { destruct Hpend as [H | H]; [|right; exact H].
      destruct (Z.eq_dec p (a + r)) as [Heq | Hne]; [|left; lia].
      right. split; [lia|]. subst hh.
      rewrite (run_inv_locks r h _ n a b Hr Hinv Ht Hlm Heq). lia. }
    clear Hpend.
    assert (Hemit : p = b -> n = p - a ->
              In (Entry chr0 b (b - a) (sub hh a r ++ [NUL])) (hist_print chr0 L r h n)).
    { intros Hpb Hn. rewrite hist_print_long by lia. fold p. left.
      subst hh. rewrite sub_app_l by (fold p; lia).
      replace (p - n) with a by lia. rewrite Hpb, Hn, Hpb. reflexivity. }
    assert (Hsnoc : c <> EOF -> c <> HEADER_PREFIX -> c <> NEWLINE ->
              hh = (h ++ [c]) ++ symbols cs /\ hh !! Z.to_nat p = Some c
              /\ p + 1 <= Z.of_nat (length hh)).
    { intros H1 H2 H3. rewrite symbols_cons in Hhh by assumption. subst hh.
      split; [rewrite <- app_assoc; reflexivity|]. split.
      - unfold p. rewrite Nat2Z.id. apply list_lookup_middle. reflexivity.
      - rewrite length_app. simpl. fold p. lia. }
    destruct (hist_body_cases chr0 L r h n c)
      as [[Hc H] | [[Hc H] | [[Hc H] | [(Ho & Hn & H) | [(Ho & Hn & Hm & H)
          | [(Ho & Hn & Hm & H) | (Ho & Hn & H)]]]]]];
      fold p in H; rewrite H in Hb; injection Hb as <- <- <- <-.
    + (* newline *)
      subst c. destruct Hk as [(Hk & _) | (_ & es' & Hrun' & ->)]; [discriminate|].
      rewrite symbols_newline in Hhh. simpl.
      apply (IH h n hh es' hn); try assumption.
      fold p. destruct Hpend' as [Hp | Hp]; [left; lia | right; exact Hp].
    + (* the terminator *)
      subst c. destruct Hk as [(Hk & _) | (_ & es' & Hrun' & ->)]; [discriminate|].
      destruct (Hsnoc ltac:(discriminate) ltac:(discriminate) ltac:(discriminate))
        as (Hhh' & Hlast & Hlen).
      apply in_or_app.
      destruct Hpend' as [Hp | [Hp Hn]].
      * right. apply (IH (h ++ [BASE_N]) 0 hh es' hn); try assumption.
        left. rewrite length_snoc. fold p. lia.
      * destruct (Z.eq_dec p b) as [Hpb | Hpb]; [left; auto|].
        exfalso. apply (Htn p); [lia | exact Hlast].
    + (* the end of the segment *)
      destruct Hk as [(_ & -> & _) | (Hk & _)]; [|discriminate].
      rewrite (symbols_end _ _ Hc), app_nil_r in Hhh.
      assert (Hlen : Z.of_nat (length hh) = p) by (subst hh; reflexivity).
      destruct Hpend' as [Hp | [Hp Hn]]; [lia|]. apply Hemit; lia.
    + (* filling *)
      destruct Hk as [(Hk & _) | (_ & es' & Hrun' & ->)]; [discriminate|].
      destruct Ho as (Ho1 & Ho2 & Ho3 & Ho4).
      destruct (Hsnoc Ho3 Ho4 Ho1) as (Hhh' & Hlast & Hlen). simpl.
      destruct Hpend' as [Hp | [Hp Hn']]; [|lia].
      apply (IH (h ++ [c]) (n + 1) hh es' hn); try assumption.
      left. rewrite length_snoc. fold p. lia.
    + (* match *)
      destruct Hk as [(Hk & _) | (_ & es' & Hrun' & ->)]; [discriminate|].
      destruct Ho as (Ho1 & Ho2 & Ho3 & Ho4).
      destruct (Hsnoc Ho3 Ho4 Ho1) as (Hhh' & Hlast & Hlen). simpl.
      apply (IH (h ++ [c]) (n + 1) hh es' hn); try assumption.
      rewrite length_snoc. fold p.
      destruct Hpend' as [Hp | [Hp Hn']]; [left; lia|].
      right. split; [|lia].
      destruct (Z.eq_dec p b) as [Hpb | Hpb]; [|lia]. exfalso.
      subst b. destruct Hrm as [Hz | [HN | Hne]].
      * lia.
      * rewrite Hlast in HN. congruence.
      * apply Hne. rewrite Hlast.
        rewrite Hhh', <- app_assoc, app_old by (fold p; lia). symmetry. exact Hm.
    + (* mismatch *)
      destruct Hk as [(Hk & _) | (_ & es' & Hrun' & ->)]; [discriminate|].
      destruct Ho as (Ho1 & Ho2 & Ho3 & Ho4).
      destruct (Hsnoc Ho3 Ho4 Ho1) as (Hhh' & Hlast & Hlen).
      apply in_or_app.
      destruct Hpend' as [Hp | [Hp Hn']].
      * right. apply (IH (h ++ [c]) (hist_next_n r (h ++ [c])) hh es' hn); try assumption.
        left. rewrite length_snoc. fold p. lia.
      * destruct (Z.eq_dec p b) as [Hpb | Hpb]; [left; auto|].
        exfalso. apply Hm.
        pose proof (Htp (p - r) ltac:(lia) ltac:(lia)) as Heq.
        replace (p - r + r) with p in Heq by lia. rewrite Hlast in Heq.
        rewrite Hhh', <- app_assoc, app_old in Heq by (fold p; lia). exact Heq.
    + (* boundary *)
      destruct Hk as [(Hk & _) | (_ & es' & Hrun' & ->)]; [discriminate|].
      destruct Ho as (Ho1 & Ho2 & Ho3 & Ho4).
      destruct (Hsnoc Ho3 Ho4 Ho1) as (Hhh' & Hlast & Hlen). simpl.
      destruct Hpend' as [Hp | [Hp Hn']]; [|lia].
      apply (IH (h ++ [c]) (hist_next_n r (h ++ [c])) hh es' hn); try assumption.
      left. rewrite length_snoc. fold p. lia.
Qed.

Lemma hist_print_cases chr0 L r h n :
  hist_print chr0 L r h n = []
  \/ exists e0, hist_print chr0 L r h n = [e0]
       /\ e_p e0 = Z.of_nat (length h) /\ e_n e0 = n.
Proof.
  unfold hist_print. destruct (L <=? n); [right | left; reflexivity].
  eexists. split; [reflexivity|]. split; reflexivity.
Qed.

Lemma runs_ordered_step r p n p' n' es0 es' :
  (es0 = [] \/ exists e0, es0 = [e0] /\ e_p e0 = p /\ e_n e0 = n
                 /\ p < p' /\ p - r < p' - n') ->
  p <= p' -> p - n <= p' - n' ->
  Forall (runs_ahead p' n') es' -> StronglySorted (runs_ordered r) es' ->
  Forall (runs_ahead p n) (es0 ++ es') /\ StronglySorted (runs_ordered r) (es0 ++ es').
Proof.
  intros H0 Hp Hs Hall Hsort.
  assert (Hall' : Forall (runs_ahead p n) es').
  { eapply Forall_impl; [exact Hall|]. unfold runs_ahead. simpl. intros e [H1 H2]. lia. }
  destruct H0 as [-> | (e0 & -> & Hp0 & Hn0 & Hlt & Hgap)]; [split; assumption|].
  simpl. split.
  - constructor; [unfold runs_ahead; lia | exact Hall'].
  - constructor; [exact Hsort|].
    eapply Forall_impl; [exact Hall|]. unfold runs_ahead, runs_ordered. simpl.
    intros e [H1 H2]. lia.
Qed.

(** The records of a run of the machine on the symbols, in output order. *)
Lemma hist_run_ordered chr0 L r cs : forall h n es hn k,
  0 < r -> 0 <= n ->
  hist_run chr0 L r h n cs = (es, hn, k) ->
  Forall (runs_ahead (Z.of_nat (length h)) n) es
  /\ StronglySorted (runs_ordered r) es.
Proof.
  induction cs as [|c cs IH]; intros h n es hn k Hr Hn Hrun.
  - simpl in Hrun. injection Hrun as <- <- <-. split; constructor.
  - destruct (hist_run_cons_inv _ _ _ _ _ _ _ _ _ _ Hrun)
      as (es0 & h' & n' & k0 & Hb & Hk).
    set (p := Z.of_nat (length h)) in *.
    pose proof (hist_next_n_cases r (h ++ [c])) as Hnext.
    destruct (hist_body_cases chr0 L r h n c)
      as [[Hc H] | [[Hc H] | [[Hc H] | [(Ho & Hn1 & H) | [(Ho & Hn1 & Hm & H)
          | [(Ho & Hn1 & Hm & H) | (Ho & Hn1 & H)]]]]]];
      fold p in H; rewrite H in Hb; injection Hb as <- <- <- <-.
    + destruct Hk as [(Hk & _) | (_ & es' & Hrun' & ->)]; [discriminate|].
      exact (IH h n es' hn k Hr Hn Hrun').
    + destruct Hk as [(Hk & _) | (_ & es' & Hrun' & ->)]; [discriminate|].
      destruct (IH (h ++ [c]) 0 es' hn k Hr ltac:(lia) Hrun') as [Hall Hsort].
      rewrite length_snoc in Hall. fold p in Hall.
      apply (runs_ordered_step r p n (p + 1) 0); try assumption; try lia.
      destruct (hist_print_cases chr0 L r h n) as [-> | (e0 & -> & H1 & H2)];
        [left; reflexivity|].
      right. exists e0. fold p in H1. split; [reflexivity|]. split; [exact H1|].
      split; [exact H2|]. lia.
    + destruct Hk as [(_ & -> & _) | (Hk & _)]; [|discriminate].
      destruct (hist_print_cases chr0 L r h n) as [-> | (e0 & -> & H1 & H2)];
        [split; constructor|].
      fold p in H1. split.
      * constructor; [unfold runs_ahead; lia | constructor].
      * constructor; constructor.
    + destruct Hk as [(Hk & _) | (_ & es' & Hrun' & ->)]; [discriminate|].
      destruct (IH (h ++ [c]) (n + 1) es' hn k Hr ltac:(lia) Hrun') as [Hall Hsort].
      rewrite length_snoc in Hall. fold p in Hall.
      apply (runs_ordered_step r p n (p + 1) (n + 1) []); try assumption; try lia.
      left. reflexivity.
    + destruct Hk as [(Hk & _) | (_ & es' & Hrun' & ->)]; [discriminate|].
      destruct (IH (h ++ [c]) (n + 1) es' hn k Hr ltac:(lia) Hrun') as [Hall Hsort].
      rewrite length_snoc in Hall. fold p in Hall.
      apply (runs_ordered_step r p n (p + 1) (n + 1) []); try assumption; try lia.
      left. reflexivity.
    + destruct Hk as [(Hk & _) | (_ & es' & Hrun' & ->)]; [discriminate|].
      assert (Hb : r - 1 <= hist_next_n r (h ++ [c]) <= r)
        by (destruct Hnext as [[_ ->] | [_ ->]]; lia).
      destruct (IH (h ++ [c]) (hist_next_n r (h ++ [c])) es' hn k Hr ltac:(lia) Hrun') as [Hall Hsort].
      rewrite length_snoc in Hall. fold p in Hall.
      apply (runs_ordered_step r p n (p + 1) (hist_next_n r (h ++ [c])));
        try assumption; try lia.
      destruct (hist_print_cases chr0 L r h n) as [-> | (e0 & -> & H1 & H2)];
        [left; reflexivity|].
      right. exists e0. fold p in H1. split; [reflexivity|]. split; [exact H1|].
      split; [exact H2|]. lia.
    + destruct Hk as [(Hk & _) | (_ & es' & Hrun' & ->)]; [discriminate|].
      assert (Hb : r - 1 <= hist_next_n r (h ++ [c]) <= r)
        by (destruct Hnext as [[_ ->] | [_ ->]]; lia).
      destruct (IH (h ++ [c]) (hist_next_n r (h ++ [c])) es' hn k Hr ltac:(lia) Hrun') as [Hall Hsort].
      rewrite length_snoc in Hall. fold p in Hall.
      apply (runs_ordered_step r p n (p + 1) (hist_next_n r (h ++ [c])) []);
        try assumption; try lia.
      left. reflexivity.
Qed.

Lemma ascii_file_values fp : ascii_file fp -> Forall ascii7 (fgetc_values fp).
Proof.
  intros Hfp. unfold fgetc_values. apply Forall_app. split.
  - apply Forall_map. apply List.Forall_forall. intros a Ha. simpl.
    right. pose proof (int_of_ascii_range a). pose proof (Hfp a Ha). lia.
  - constructor; [left; reflexivity | constructor].
Qed.

(** [scan_seqN] on an ASCII file prints what the machine on the symbols
    prints on the segment the file starts with. *)
Lemma scan_seqN_hist fp st :
  wf_state st -> period st < st_length st -> ascii_file fp ->
  exists evs st' rest n',
    scan_seqN fp st = Some (evs, st', rest)
    /\ hist_run (chr st) (st_length st) (period st) [] 0 (fgetc_values fp)
       = (entries_of evs, (symbols (fgetc_values fp), n'), Break).
Proof.
  intros Hwf Hlen Hfp.
  destruct (scanN_run_hist (fgetc_values fp) [] (LoopN st 0 0)
              (scanN_ok_init st Hwf) Hlen (fresh_init [] st eq_refl)
              ltac:(constructor) (ascii_file_values fp Hfp))
    as (evs & s' & k & Hrun & Hh). simpl in Hh.
  destruct (scanN_run_loop fp _ _ _ _ Hrun) as (rest & Hloop).
  destruct (scanN_loop_run fp _ _ _ _ Hloop) as (s'' & Hrun' & _).
  rewrite Hrun in Hrun'. injection Hrun' as <- ->.
  exists evs, (ln_st s'), rest, (ln_n s'). split; [exact Hloop | exact Hh].
Qed.

Lemma ascii_file_literal fp :
  forallb (fun a => int_of_ascii a <? 128) (list_ascii_of_string fp) = true ->
  ascii_file fp.
Proof.
  intros H a Ha. rewrite forallb_forall in H. apply Z.ltb_lt. exact (H a Ha).
Qed.

(** X14. Every run the period-N scan of an ASCII segment reports is a
    repeat of the period: it lies in the segment and is at least one unit
    long, none of its symbols is [N], each of its symbols equals the one a
    period later, its first [period] symbols are not degenerate, and they
    are the unit that is printed. *)
Theorem scanN_records_are_repeats (fp : string) (st : SeqState) :
  wf_state st -> period st < st_length st -> ascii_file fp ->
  exists evs st' rest,
    scan_seqN fp st = Some (evs, st', rest)
    /\ forall e, In e (entries_of evs) ->
         tandem_run (period st) (symbols (fgetc_values fp)) (e_p e - e_n e) (e_p e)
         /\ e_unit e
            = sub (symbols (fgetc_values fp)) (e_p e - e_n e) (period st) ++ [NUL].
Proof.
  intros Hwf Hlen Hfp.
  destruct (scan_seqN_hist fp st Hwf Hlen Hfp) as (evs & st' & rest & n' & Hscan & Hh).
  exists evs, st', rest. split; [exact Hscan|]. intros e He.
  pose proof (wf_state_period _ Hwf) as Hr.
  pose proof (hist_run_sound (chr st) (st_length st) (period st) (fgetc_values fp)
                [] 0 _ _ _ ltac:(lia) Hlen
                (run_inv_init (period st) ltac:(lia)) Hh e He) as (_ & _ & Hu & Ht & _).
  simpl in Hu, Ht. split; assumption.
Qed.

Lemma scanN_records_are_repeats_witness :
  exists evs st' rest,
    scan_seqN "CATATATG" example_state2 = Some (evs, st', rest)
    /\ forall e, In e (entries_of evs) ->
         tandem_run (period example_state2) (symbols (fgetc_values "CATATATG"))
           (e_p e - e_n e) (e_p e)
         /\ e_unit e
            = sub (symbols (fgetc_values "CATATATG")) (e_p e - e_n e)
                (period example_state2) ++ [NUL].
Proof.
  apply (scanN_records_are_repeats "CATATATG" example_state2).
  - exact example_state2_wf.
  - unfold period. simpl. lia.
  - apply ascii_file_literal. vm_compute. reflexivity.
Defined.

(** X15. Every run the period-N scan of an ASCII segment reports is
    maximal: it starts at the first position of the segment, or after an
    [N], or after a symbol that differs from the one a period later; and
    it ends at the end of the segment, or before an [N], or before a
    symbol that differs from the one a period earlier. *)
Theorem scanN_records_are_maximal (fp : string) (st : SeqState) :
  wf_state st -> period st < st_length st -> ascii_file fp ->
  exists evs st' rest,
    scan_seqN fp st = Some (evs, st', rest)
    /\ forall e, In e (entries_of evs) ->
         left_maximal (period st) (symbols (fgetc_values fp)) (e_p e - e_n e)
         /\ right_maximal (period st) (symbols (fgetc_values fp)) (e_p e).
Proof.
  intros Hwf Hlen Hfp.
  destruct (scan_seqN_hist fp st Hwf Hlen Hfp) as (evs & st' & rest & n' & Hscan & Hh).
  exists evs, st', rest. split; [exact Hscan|]. intros e He.
  pose proof (wf_state_period _ Hwf) as Hr.
  pose proof (hist_run_sound (chr st) (st_length st) (period st) (fgetc_values fp)
                [] 0 _ _ _ ltac:(lia) Hlen
                (run_inv_init (period st) ltac:(lia)) Hh e He) as (_ & _ & _ & _ & Hl & Hrm).
  simpl in Hl, Hrm. split; assumption.
Qed.

Lemma scanN_records_are_maximal_witness :
  exists evs st' rest,
    scan_seqN "CATATATG" example_state2 = Some (evs, st', rest)
    /\ forall e, In e (entries_of evs) ->
         left_maximal (period example_state2) (symbols (fgetc_values "CATATATG"))
           (e_p e - e_n e)
         /\ right_maximal (period example_state2) (symbols (fgetc_values "CATATATG"))
              (e_p e).
Proof.
  apply (scanN_records_are_maximal "CATATATG" example_state2).
  - exact example_state2_wf.
  - unfold period. simpl. lia.
  - apply ascii_file_literal. vm_compute. reflexivity.
Defined.

(** X16. The period-N scan of an ASCII segment misses nothing: every
    maximal repeat of the period whose length reaches the threshold is
    reported, with its end, its length and its first [period] symbols as
    unit. *)
Theorem scanN_repeats_are_reported (fp : string) (st : SeqState) :
  wf_state st -> period st < st_length st -> ascii_file fp ->
  exists evs st' rest,
    scan_seqN fp st = Some (evs, st', rest)
    /\ forall a b,
         tandem_run (period st) (symbols (fgetc_values fp)) a b ->
         left_maximal (period st) (symbols (fgetc_values fp)) a ->
         right_maximal (period st) (symbols (fgetc_values fp)) b ->
         st_length st <= b - a ->
         In (Entry (chr st) b (b - a)
               (sub (symbols (fgetc_values fp)) a (period st) ++ [NUL]))
            (entries_of evs).
Proof.
  intros Hwf Hlen Hfp.
  destruct (scan_seqN_hist fp st Hwf Hlen Hfp) as (evs & st' & rest & n' & Hscan & Hh).
  exists evs, st', rest. split; [exact Hscan|]. intros a b Ht Hl Hrm HL.
  pose proof (wf_state_period _ Hwf) as Hr.
  apply (hist_run_complete (chr st) (st_length st) (period st) a b
           (fgetc_values fp) [] 0 (symbols (fgetc_values fp)) (entries_of evs)
           (symbols (fgetc_values fp), n') ltac:(lia)
           (run_inv_init (period st) ltac:(lia)) eq_refl Ht Hl Hrm HL); [|exact Hh].
  left. destruct Ht as (Ha & _). simpl. lia.
Qed.

Lemma scanN_repeats_are_reported_witness :
  exists evs st' rest,
    scan_seqN "CATATATG" example_state2 = Some (evs, st', rest)
    /\ In (Entry "chr1" 7 6 [65; 84; NUL]) (entries_of evs).
Proof.
  destruct (scanN_repeats_are_reported "CATATATG" example_state2)
    as (evs & st' & rest & Hscan & H).
  - exact example_state2_wf.
  - unfold period. simpl. lia.
  - apply ascii_file_literal. vm_compute. reflexivity.
  - exists evs, st', rest. split; [exact Hscan|].
    apply (H 1 7).
    + unfold tandem_run. split; [lia|]. split; [vm_compute; split; discriminate|].
      split; [|split].
      * intros i Hi.
        assert (i = 1 \/ i = 2 \/ i = 3 \/ i = 4 \/ i = 5 \/ i = 6)
          as [-> | [-> | [-> | [-> | [-> | ->]]]]] by lia; vm_compute; discriminate.
      * intros i H1 H2. unfold period in H2. simpl in H2.
        assert (i = 1 \/ i = 2 \/ i = 3 \/ i = 4) as [-> | [-> | [-> | ->]]] by lia;
          reflexivity.
      * reflexivity.
    + right. right. vm_compute. discriminate.
    + right. right. vm_compute. discriminate.
    + simpl. lia.
Defined.

(** X17. The period-N scan reports the runs of an ASCII segment in the
    order of their ends, each ending after the one before it, and two
    successive runs share fewer symbols than the period. *)
Theorem scanN_records_in_order (fp : string) (st : SeqState) :
  wf_state st -> period st < st_length st -> ascii_file fp ->
  exists evs st' rest,
    scan_seqN fp st = Some (evs, st', rest)
    /\ StronglySorted (runs_ordered (period st)) (entries_of evs).
Proof.
  intros Hwf Hlen Hfp.
  destruct (scan_seqN_hist fp st Hwf Hlen Hfp) as (evs & st' & rest & n' & Hscan & Hh).
  exists evs, st', rest. split; [exact Hscan|].
  pose proof (wf_state_period _ Hwf) as Hr.
  exact (proj2 (hist_run_ordered (chr st) (st_length st) (period st) (fgetc_values fp)
                  [] 0 _ _ _ ltac:(lia) ltac:(lia) Hh)).
Qed.

Lemma scanN_records_in_order_witness :
  exists evs st' rest,
    scan_seqN "ACACAGAGAG" example_state2 = Some (evs, st', rest)
    /\ StronglySorted (runs_ordered (period example_state2)) (entries_of evs).
Proof.
  apply (scanN_records_in_order "ACACAGAGAG" example_state2).
  - exact example_state2_wf.
  - unfold period. simpl. lia.
  - apply ascii_file_literal. vm_compute. reflexivity.
Defined.

(** ** Uninitialised memory *)

Lemma scanN_loop_nil s :
  scanN_loop s EmptyString
  = '(evs, s', _) ← scanN_body s EOF; Some (evs, ln_st s', EmptyString).
Proof. reflexivity. Qed.

Lemma scanN_loop_cons s a fp :
  scanN_loop s (String a fp)
  = '(evs, s', k) ← scanN_body s (int_of_ascii a);
    match k with
    | Break => Some (evs, ln_st s', fp)
    | Continue =>
        '(evs', st', rest) ← scanN_loop s' fp;
        Some (evs ++ evs', st', rest)
    end.
Proof. reflexivity. Qed.

(** Two iterations from states that differ in the slots outside the
    current run and in the unit buffer only. *)
Lemma scanN_body_indep h s1 s2 c :
  scanN_ok s1 -> scanN_ok s2 -> fresh h s1 -> fresh h s2 ->
  same_config (ln_st s1) (ln_st s2) -> ln_n s1 = ln_n s2 ->
  period (ln_st s1) < st_length (ln_st s1) -> ascii_hist h -> ascii7 c ->
  exists evs1 evs2 s1' s2' k,
    scanN_body s1 c = Some (evs1, s1', k)
    /\ scanN_body s2 c = Some (evs2, s2', k)
    /\ entries_of evs1 = entries_of evs2
    /\ scanN_ok s1' /\ scanN_ok s2'
    /\ fresh (push h c) s1' /\ fresh (push h c) s2'
    /\ same_config (ln_st s1') (ln_st s2') /\ ln_n s1' = ln_n s2'
    /\ period (ln_st s1') < st_length (ln_st s1')
    /\ (k = Break <-> c = EOF \/ c = HEADER_PREFIX).
Proof.
  intros Hok1 Hok2 Hf1 Hf2 Hcfg Hn Hlen Hh Hc.
  pose proof Hcfg as (Hper & Hl & Hv & Hchr).
  assert (Hlen2 : period (ln_st s2) < st_length (ln_st s2)) by lia.
  destruct (scanN_body_hist h s1 c Hok1 Hlen Hf1 Hh Hc) as (evs1 & s1' & k1 & Hb1 & Hh1).
  destruct (scanN_body_hist h s2 c Hok2 Hlen2 Hf2 Hh Hc) as (evs2 & s2' & k2 & Hb2 & Hh2).
  rewrite Hper, Hl, Hchr, <- Hn, Hh1 in Hh2. injection Hh2 as He Hn' Hk.
  destruct (scanN_body_fresh h s1 c Hok1 Hlen Hf1 (ascii7_fgetc_value _ Hc))
    as (? & ? & ? & Hb1' & Hok1' & Hcfg1 & Hf1' & _ & Hbr).
  rewrite Hb1 in Hb1'. injection Hb1' as <- <- <-.
  destruct (scanN_body_fresh h s2 c Hok2 Hlen2 Hf2 (ascii7_fgetc_value _ Hc))
    as (? & ? & ? & Hb2' & Hok2' & Hcfg2 & Hf2' & _ & _).
  rewrite Hb2 in Hb2'. injection Hb2' as <- <- <-.
  subst k2. exists evs1, evs2, s1', s2', k1.
  split; [exact Hb1|]. split; [exact Hb2|]. split; [exact He|].
  split; [exact Hok1'|]. split; [exact Hok2'|]. split; [exact Hf1'|].
  split; [exact Hf2'|].
  destruct Hcfg1 as (A1 & A2 & A3 & A4). destruct Hcfg2 as (B1 & B2 & B3 & B4).
  split; [unfold same_config; repeat split; congruence|].
  split; [exact Hn'|]. split; [lia | exact Hbr].
Qed.

Lemma ascii_file_tail a fp : ascii_file (String a fp) -> ascii_file fp.
Proof. intros H b Hb. apply H. right. exact Hb. Qed.

Lemma ascii_file_head a fp : ascii_file (String a fp) -> ascii7 (int_of_ascii a).
Proof.
  intros H. right. pose proof (int_of_ascii_range a).
  pose proof (H a ltac:(left; reflexivity)). lia.
Qed.

Lemma scanN_loop_indep fp : forall h s1 s2,
  scanN_ok s1 -> scanN_ok s2 -> fresh h s1 -> fresh h s2 ->
  same_config (ln_st s1) (ln_st s2) -> ln_n s1 = ln_n s2 ->
  period (ln_st s1) < st_length (ln_st s1) -> ascii_hist h -> ascii_file fp ->
  exists evs1 evs2 st1 st2 rest,
    scanN_loop s1 fp = Some (evs1, st1, rest)
    /\ scanN_loop s2 fp = Some (evs2, st2, rest)
    /\ entries_of evs1 = entries_of evs2
    /\ wf_state st1 /\ wf_state st2 /\ same_config st1 st2
    /\ period st1 < st_length st1
    /\ ascii_file rest.
Proof.
  induction fp as [|a fp IH]; intros h s1 s2 Hok1 Hok2 Hf1 Hf2 Hcfg Hn Hlen Hh Hfp.
  - destruct (scanN_body_indep h s1 s2 EOF Hok1 Hok2 Hf1 Hf2 Hcfg Hn Hlen Hh
                ltac:(left; reflexivity))
      as (evs1 & evs2 & s1' & s2' & k & Hb1 & Hb2 & He & Hok1' & Hok2' & _ & _
          & Hcfg' & _ & Hlen' & _).
    exists evs1, evs2, (ln_st s1'), (ln_st s2'), EmptyString.
    rewrite !scanN_loop_nil, Hb1, Hb2.
    split; [reflexivity|]. split; [reflexivity|]. split; [exact He|].
    split; [apply Hok1'|]. split; [apply Hok2'|]. split; [exact Hcfg'|].
    split; [exact Hlen' | exact Hfp].
  - destruct (scanN_body_indep h s1 s2 (int_of_ascii a) Hok1 Hok2 Hf1 Hf2 Hcfg Hn Hlen Hh
                (ascii_file_head _ _ Hfp))
      as (evs1 & evs2 & s1' & s2' & k & Hb1 & Hb2 & He & Hok1' & Hok2' & Hf1' & Hf2'
          & Hcfg' & Hn' & Hlen' & _).
    rewrite !scanN_loop_cons, Hb1, Hb2. cbn [mbind option_bind].
    destruct k.
    + destruct (IH (push h (int_of_ascii a)) s1' s2' Hok1' Hok2' Hf1' Hf2' Hcfg' Hn' Hlen'
                  (ascii_hist_push _ _ Hh (ascii_file_head _ _ Hfp))
                  (ascii_file_tail _ _ Hfp))
        as (evs1' & evs2' & st1 & st2 & rest & Hl1 & Hl2 & He' & Hrest).
      exists (evs1 ++ evs1'), (evs2 ++ evs2'), st1, st2, rest.
      rewrite Hl1, Hl2. split; [reflexivity|]. split; [reflexivity|].
      split; [rewrite !entries_of_app; congruence | exact Hrest].
    + exists evs1, evs2, (ln_st s1'), (ln_st s2'), fp.
      split; [reflexivity|]. split; [reflexivity|]. split; [exact He|].
      split; [apply Hok1'|]. split; [apply Hok2'|]. split; [exact Hcfg'|].
      split; [exact Hlen' | exact (ascii_file_tail _ _ Hfp)].
Qed.

(** The label [parse_header] leaves matters only if a line was found. *)
Lemma parse_header_indep fp chr1 chr2 :
  exists c fp' chr1' chr2',
    parse_header fp chr1 = HeaderReturns c chr1' fp'
    /\ parse_header fp chr2 = HeaderReturns c chr2' fp'
    /\ (c <> EOF -> chr1' = chr2').
Proof.
  unfold parse_header, fscanf_s31.
  destruct (skip_space fp) as [|a fp0].
  - exists EOF, EmptyString, chr1, chr2. repeat split. intros H. contradiction.
  - destruct (read_word 31 (String a fp0)) as [w rest].
    cbv beta iota. change (negb (1 =? 1) && negb (1 =? EOF)) with false. cbv iota.
    destruct (seek_char rest NEWLINE) as [c' fp''].
    exists c', fp'', w, w. repeat split.
Qed.

Lemma parse_chromosomes_S fuel st len chr0 out err fp :
  parse_chromosomes (S fuel) st len chr0 out err fp
  = match parse_header fp chr0 with
    | HeaderExit status msg => Exited status (World (out ++ msg) err (Some fp))
    | HeaderReturns c chr' fp' =>
        if c =? EOF then Returned 0 (World out err (Some fp'))
        else
          let err' := (err ++ "Parsing chromosome "
                       ++ c_string (chars_of chr') ++ nl)%string in
          match st with
          | None =>
              match scan_seq1 fp' chr' len with
              | Scan1Returns es fp'' =>
                  parse_chromosomes fuel None len chr'
                    (out ++ print_entries es) err' fp''
              | Scan1Hangs _ => Hangs
              end
          | Some st0 =>
              match scan_seqN fp' (set_chr st0 chr') with
              | None => Undefined
              | Some (evs, st', fp'') =>
                  parse_chromosomes fuel (Some st') len chr'
                    (out ++ print_entries (entries_of evs)) err' fp''
              end
          end
    end.
Proof. reflexivity. Qed.

Lemma parse_chromosomes_indep1 fuel : forall len chr1 chr2 out err fp,
  parse_chromosomes fuel None len chr1 out err fp
  = parse_chromosomes fuel None len chr2 out err fp.
Proof.
  induction fuel as [|fuel IH]; intros len chr1 chr2 out err fp; [reflexivity|].
  rewrite !parse_chromosomes_S.
  destruct (parse_header_indep fp chr1 chr2) as (c & fp' & chr1' & chr2' & -> & -> & Hc).
  destruct (Z.eqb_spec c EOF) as [He | He]; [reflexivity|].
  rewrite (Hc He). reflexivity.
Qed.

Lemma parse_chromosomes_indepN fuel : forall st1 st2 len chr1 chr2 out err fp,
  wf_state st1 -> wf_state st2 ->
  period st2 = period st1 -> st_length st2 = st_length st1 ->
  invalid_repeat st2 = invalid_repeat st1 ->
  period st1 < st_length st1 -> ascii_file fp ->
  parse_chromosomes fuel (Some st1) len chr1 out err fp
  = parse_chromosomes fuel (Some st2) len chr2 out err fp.
Proof.
  induction fuel as [|fuel IH];
    intros st1 st2 len chr1 chr2 out err fp Hwf1 Hwf2 Hper Hl Hv Hlen Hfp; [reflexivity|].
  rewrite !parse_chromosomes_S.
  destruct (parse_header_indep fp chr1 chr2) as (c & fp' & chr1' & chr2' & H1 & H2 & Hc).
  rewrite H1, H2.
  destruct (Z.eqb_spec c EOF) as [He | He]; [reflexivity|].
  rewrite <- (Hc He). cbv zeta.
  assert (Hfp' : ascii_file fp').
  { intros a Ha. apply Hfp. exact (parse_header_chars _ _ _ _ _ _ H1 Ha). }
  destruct (scanN_loop_indep fp' [] (LoopN (set_chr st1 chr1') 0 0)
              (LoopN (set_chr st2 chr1') 0 0)
              (scanN_ok_init _ (set_chr_wf _ _ Hwf1))
              (scanN_ok_init _ (set_chr_wf _ _ Hwf2))
              (fresh_init [] _ eq_refl) (fresh_init [] _ eq_refl)
              ltac:(unfold same_config; simpl; repeat split; assumption)
              eq_refl Hlen ltac:(constructor) Hfp')
    as (evs1 & evs2 & st1' & st2' & rest & Hs1 & Hs2 & He' & Hwf1' & Hwf2'
        & (A1 & A2 & A3 & _) & Hlen' & Hrest).
  unfold scan_seqN. rewrite Hs1, Hs2, He'.
  apply IH; assumption.
Qed.

(** X18. What [read_fasta] does with an ASCII file does not depend on the
    memory it starts from: the label array, the ring and the unit buffer
    are never read before they are written. *)
Theorem read_fasta_ignores_uninitialised_memory
    (g1 g2 : garbage) (fp : option string) (rep len : Z) :
  (forall f, fp = Some f -> ascii_file f) ->
  read_fasta g1 fp rep len = read_fasta g2 fp rep len.
Proof.
  intros Hfp. unfold read_fasta.
  destruct (Z.leb_spec len rep) as [Hlr | Hlr]; [reflexivity|].
  destruct (Z.ltb_spec 4 rep) as [H4 | H4]; [reflexivity|].
  destruct fp as [f|]; [|reflexivity].
  destruct (seek_char f HEADER_PREFIX) as [c f1] eqn:Hseek.
  assert (Hf1 : ascii_file f1).
  { intros a Ha. apply (Hfp f eq_refl). exact (seek_char_chars _ _ _ _ _ Hseek Ha). }
  destruct (Z.eqb_spec rep 1) as [H1 | H1]; cbv beta iota zeta delta [negb].
  - apply parse_chromosomes_indep1.
  - destruct (Z_lt_ge_dec rep 2) as [Hlow | Hhigh].
    + assert (Hinit : forall g, init_seq_state (g_chr g) rep len (g_elements g) (g_unit_buffer g)
                = (if 0 <=? rep
                   then InitExit (-1) ("invalid r (this should never happen)" ++ nl)
                   else InitUndefined)).
      { intros g. unfold init_seq_state. destruct (Z.leb_spec 0 rep) as [H0 | H0].
        - rewrite store_Some by (rewrite length_alloc; lia).
          destruct (Z.eqb_spec rep 2); [lia|]. destruct (Z.eqb_spec rep 3); [lia|].
          destruct (Z.eqb_spec rep 4); [lia|]. reflexivity.
        - unfold store. destruct (Z.leb_spec 0 rep); [lia | reflexivity]. }
      rewrite !Hinit. destruct (0 <=? rep); reflexivity.
    + destruct (init_seq_state_ok (g_chr g1) rep len (g_elements g1) (g_unit_buffer g1)
                  ltac:(lia)) as [st1 Hst1].
      destruct (init_seq_state_ok (g_chr g2) rep len (g_elements g2) (g_unit_buffer g2)
                  ltac:(lia)) as [st2 Hst2].
      rewrite Hst1, Hst2.
      destruct (init_seq_state_wf _ _ _ _ _ _ Hst1) as (Hwf1 & Hp1 & Hl1 & _).
      destruct (init_seq_state_wf _ _ _ _ _ _ Hst2) as (Hwf2 & Hp2 & Hl2 & _).
      apply parse_chromosomes_indepN; try assumption; try lia.
      destruct Hwf1 as (_ & _ & Hv1). destruct Hwf2 as (_ & _ & Hv2).
      destruct Hv1 as [[? ->] | [[? ->] | [? ->]]];
        destruct Hv2 as [[? ->] | [[? ->] | [? ->]]]; try reflexivity; lia.
Qed.

Lemma read_fasta_ignores_uninitialised_memory_witness :
  read_fasta (Garbage "junk" [71; 71; 71] [84; 84; 84; 84]) (Some example_file) 2 4
  = read_fasta example_garbage (Some example_file) 2 4.
Proof.
  apply (read_fasta_ignores_uninitialised_memory
           (Garbage "junk" [71; 71; 71] [84; 84; 84; 84]) example_garbage
           (Some example_file) 2 4).
  intros f Hf. injection Hf as <-. apply ascii_file_literal. vm_compute. reflexivity.
Defined.

(** ** Bytes above 127 *)

(** X19. The ring holds [char]s and [read_ring] returns them sign
    extended, while [fgetc] returns a byte above 127 as it is: in the
    comparison phase such a byte never matches, even when the symbol a
    period earlier was the same byte.  The run ends there (it is
    printed if it is long enough) and a new one starts. *)
Theorem scanN_high_byte_ends_run (h : list Z) (s : loopN) (c : Z) :
  scanN_ok s -> fresh h s -> period (ln_st s) <= ln_n s -> 128 <= c < 256 ->
  exists evs s',
    scanN_body s c = Some (evs, s', Continue)
    /\ ln_p s' = ln_p s + 1
    /\ period (ln_st s) - 1 <= ln_n s' <= period (ln_st s)
    /\ (st_length (ln_st s) <= ln_n s ->
          exists u, entries_of evs = [Entry (chr (ln_st s)) (ln_p s) (ln_n s) u]).
Proof.
  intros Hok Hf Hn Hc. pose proof Hok as [Hwf Hnp].
  pose proof (wf_state_period _ Hwf) as Hr.
  assert (Ho : ordinary c).
  { unfold ordinary, NEWLINE, BASE_N, EOF, HEADER_PREFIX. lia. }
  destruct (scanN_body_compare s c Hok Ho Hn) as (c0 & _ & Hslot & _ & Hne).
  cbv zeta in Hslot, Hne.
  destruct Hf as [_ Hf].
  destruct (Hf (ln_p s - period (ln_st s)) ltac:(lia)) as (x & _ & Hx & _ & Hs).
  replace ((ln_p s - period (ln_st s)) mod period (ln_st s))
    with (ln_p s mod period (ln_st s)) in Hs
    by (replace (ln_p s - period (ln_st s)) with (ln_p s + (-1) * period (ln_st s)) by lia;
        rewrite Z_mod_plus_full; reflexivity).
  rewrite Hs in Hslot. injection Hslot as <-.
  pose proof (char_of_int_range x) as Hrange.
  destruct (Hne ltac:(lia)) as (evs & st1 & ring & b & _ & _ & He & _ & _ & _ & _ & Hb).
  eexists _, _. split; [exact Hb|]. simpl. split; [reflexivity|].
  split; [destruct b; lia|].
  intros Hl. rewrite entries_of_app. simpl. rewrite app_nil_r, He.
  destruct (Z.leb_spec (st_length (ln_st s)) (ln_n s)); [|lia].
  eexists. reflexivity.
Qed.

Lemma scanN_high_byte_ends_run_witness :
  exists evs s',
    scanN_body (LoopN (mkSeqState (mkRing 2 [-56; -55]) 4 Invalid_repeat2 "chr1" [0; 0; 0])
                  2 2) 200
    = Some (evs, s', Continue)
    /\ ln_p s' = 3 /\ 1 <= ln_n s' <= 2.
Proof.
  destruct (scanN_high_byte_ends_run [200; 201]
              (LoopN (mkSeqState (mkRing 2 [-56; -55]) 4 Invalid_repeat2 "chr1" [0; 0; 0])
                 2 2) 200)
    as (evs & s' & Hb & Hp & Hn & _).
  - split; [|simpl; lia].
    split; [split; [simpl; lia | reflexivity]|].
    split; [split; reflexivity|]. left. split; reflexivity.
  - split; [reflexivity|]. simpl. intros i Hi.
    assert (i = 0 \/ i = 1) as [-> | ->] by lia.
    + exists 200. vm_compute. repeat split; discriminate.
    + exists 201. vm_compute. repeat split; discriminate.
  - unfold period. simpl. lia.
  - lia.
  - exists evs, s'. split; [exact Hb|]. split; [exact Hp | exact Hn].
Defined.
